(** * Zettlr editor overlays: inline decorator, line highlighters, chess renderer

    A shallow embedding of
    - [source/common/modules/markdown-editor/parser/syntax-extensions.ts]
      (inline tag/highlight decorator, code-block and heading line
      highlighters), and
    - the CodeMirror command [markdownRenderChess],
    together with the parts of the host they call: ECMAScript regular
    expression matching, the CodeMirror 6 document/syntax-tree accessors and
    the CodeMirror 5 marker store. *)

From Stdlib Require Import String Ascii.
From Stdlib Require Import List NArith Arith Lia Bool Sorted.
Import ListNotations.

Set Implicit Arguments.
Set Warnings "-register-all".

(** ** JavaScript strings *)

(** A JavaScript string is a sequence of UTF-16 code units. *)
Definition jsstring := list N.

(** ASCII literals, for writing down concrete inputs. *)
Definition str (s : String.string) : jsstring :=
  map Ascii.N_of_ascii (String.list_ascii_of_string s).
Arguments str s%_string_scope.

Definition is_lead (c : N) : bool := ((55296 <=? c) && (c <=? 56319))%N.
Definition is_trail (c : N) : bool := ((56320 <=? c) && (c <=? 57343))%N.

Definition code_point (hi lo : N) : N :=
  ((hi - 55296) * 1024 + (lo - 56320) + 65536)%N.

(** [StringToCodePoints]: a lead surrogate directly followed by a trail
    surrogate is one code point, every other unit stands for itself. *)
Fixpoint StringToCodePoints (s : jsstring) : list N :=
  match s with
  | [] => []
  | c :: rest =>
      match rest with
      | t :: rest' =>
          if is_lead c && is_trail t
          then code_point c t :: StringToCodePoints rest'
          else c :: StringToCodePoints rest
      | [] => [c]
      end
  end.

(** [s.substring(from, to)] for [from <= to]. *)
Definition substring (s : jsstring) (from to : nat) : jsstring :=
  firstn (to - from) (skipn from s).

(** Number of UTF-16 units a character occupies. *)
Definition width (c : N) : nat := if (65536 <=? c)%N then 2 else 1.

Fixpoint utf16_length (cs : list N) : nat :=
  match cs with
  | [] => 0
  | c :: cs' => width c + utf16_length cs'
  end.

(** ** ECMAScript regular expressions (the backtracking matcher) *)

Module RegExp.

Inductive ClassAtom : Type :=
| CA_char (c : N)          (* a literal character *)
| CA_space.                (* the escape \s *)

Inductive regex : Type :=
| R_empty
| R_char (c : N)
| R_dot
| R_class (invert : bool) (atoms : list ClassAtom)
| R_seq (r1 r2 : regex)
| R_alt (r1 r2 : regex)
| R_quant (r : regex) (min : nat) (max : option nat) (greedy : bool)
| R_group (n : nat) (r : regex)
| R_lookbehind (r : regex)
| R_bol                    (* ^ without the m flag *)
| R_eol.                   (* $ without the m flag *)

(** WhiteSpace and LineTerminator code points, as \s understands them. *)
Definition is_line_terminator (c : N) : bool :=
  ((c =? 10) || (c =? 13) || (c =? 8232) || (c =? 8233))%N.

Definition is_whitespace (c : N) : bool :=
  ((c =? 9) || (c =? 11) || (c =? 12) || (c =? 32) || (c =? 160)
   || (c =? 5760) || ((8192 <=? c) && (c <=? 8202)) || (c =? 8239)
   || (c =? 8287) || (c =? 12288) || (c =? 65279))%N
  || is_line_terminator c.

Definition atom_mem (a : ClassAtom) (c : N) : bool :=
  match a with
  | CA_char c' => (c =? c')%N
  | CA_space => is_whitespace c
  end.

Definition class_mem (atoms : list ClassAtom) (c : N) : bool :=
  existsb (fun a => atom_mem a c) atoms.

(** Matcher state: the input split at the current end index ([before] is
    kept reversed), and the captures found so far. *)
Record MState : Type := mkState {
  before : list N;
  after : list N;
  caps : list (nat * (nat * nat))
}.

Inductive MResult : Type :=
| Failure
| Success (y : MState)
| OutOfFuel.

Definition Cont : Type := MState -> MResult.

Inductive direction : Type := Forward | Backward.

Definition endIndex (x : MState) : nat := length (before x).

Definition read (d : direction) (x : MState) : option (N * MState) :=
  match d with
  | Forward =>
      match after x with
      | [] => None
      | ch :: rest => Some (ch, mkState (ch :: before x) rest (caps x))
      end
  | Backward =>
      match before x with
      | [] => None
      | ch :: rest => Some (ch, mkState rest (ch :: after x) (caps x))
      end
  end.

Fixpoint cap_get (n : nat) (cs : list (nat * (nat * nat))) : option (nat * nat) :=
  match cs with
  | [] => None
  | (k, v) :: cs' => if k =? n then Some v else cap_get n cs'
  end.

Definition cap_clear (gs : list nat) (cs : list (nat * (nat * nat))) :=
  filter (fun kv => negb (existsb (Nat.eqb (fst kv)) gs)) cs.

Definition set_cap (n : nat) (v : nat * nat) (y : MState) : MState :=
  mkState (before y) (after y) ((n, v) :: cap_clear [n] (caps y)).

Definition clear_caps (gs : list nat) (x : MState) : MState :=
  mkState (before x) (after x) (cap_clear gs (caps x)).

Definition with_caps (x : MState) (cs : list (nat * (nat * nat))) : MState :=
  mkState (before x) (after x) cs.

Definition span (d : direction) (x y : MState) : nat * nat :=
  match d with
  | Forward => (endIndex x, endIndex y)
  | Backward => (endIndex y, endIndex x)
  end.

(** Capture groups that occur inside a term (reset by each iteration of a
    quantifier around it). *)
Fixpoint groups (r : regex) : list nat :=
  match r with
  | R_seq r1 r2 | R_alt r1 r2 => groups r1 ++ groups r2
  | R_quant r0 _ _ _ | R_lookbehind r0 => groups r0
  | R_group n r0 => n :: groups r0
  | _ => []
  end.

(** [RepeatMatcher] of the language specification.  An iteration that
    matches the empty string once the minimum is reached is rejected, so the
    recursion is bounded by [min] plus the input still to be read. *)
Fixpoint repeat_matcher (m : MState -> Cont -> MResult) (gs : list nat)
    (greedy : bool) (fuel : nat) (min : nat) (max : option nat)
    (x : MState) (c : Cont) : MResult :=
  match fuel with
  | O => OutOfFuel
  | S fuel' =>
      match max with
      | Some O => c x
      | _ =>
          let d : Cont := fun y =>
            if (min =? 0) && (endIndex y =? endIndex x) then Failure
            else repeat_matcher m gs greedy fuel' (pred min)
                   (option_map pred max) y c in
          let xr := clear_caps gs x in
          if negb (min =? 0) then m xr d
          else if negb greedy then
            match c x with
            | Failure => m xr d
            | z => z
            end
          else
            match m xr d with
            | Failure => c x
            | z => z
            end
      end
  end.

Definition single (d : direction) (x : MState) (c : Cont) (p : N -> bool) : MResult :=
  match read d x with
  | Some (ch, y) => if p ch then c y else Failure
  | None => Failure
  end.

Fixpoint rmatch (r : regex) (d : direction) (x : MState) (c : Cont) : MResult :=
  match r with
  | R_empty => c x
  | R_char ch => single d x c (N.eqb ch)
  | R_dot => single d x c (fun ch => negb (is_line_terminator ch))
  | R_class inv atoms => single d x c (fun ch => xorb inv (class_mem atoms ch))
  | R_seq r1 r2 =>
      match d with
      | Forward => rmatch r1 d x (fun y => rmatch r2 d y c)
      | Backward => rmatch r2 d x (fun y => rmatch r1 d y c)
      end
  | R_alt r1 r2 =>
      match rmatch r1 d x c with
      | Failure => rmatch r2 d x c
      | z => z
      end
  | R_quant r0 min max greedy =>
      repeat_matcher (rmatch r0 d) (groups r0) greedy
        (S (min + length (before x) + length (after x))) min max x c
  | R_group n r0 =>
      rmatch r0 d x (fun y => c (set_cap n (span d x y) y))
  | R_lookbehind r0 =>
      match rmatch r0 Backward x Success with
      | Success y => c (with_caps x (caps y))
      | z => z
      end
  | R_bol => match before x with [] => c x | _ => Failure end
  | R_eol => match after x with [] => c x | _ => Failure end
  end.

(** A regular expression object: pattern and the flags the sources use. *)
Record RegExpObj : Type := mkRegExp {
  pattern : regex;
  flag_g : bool;
  flag_u : bool
}.

Definition input_of (re : RegExpObj) (s : jsstring) : list N :=
  if flag_u re then StringToCodePoints s else s.

(** [RegExpBuiltinExec]: try the pattern at the current index, on failure
    advance by one character; past the end the result is null.  The result
    pairs the state where the match starts with the state where it ends. *)
Fixpoint scan (r : regex) (bef aft : list N) : option (MState * MResult) :=
  let x := mkState bef aft [] in
  match rmatch r Forward x Success with
  | Failure =>
      match aft with
      | [] => None
      | ch :: rest => scan r (ch :: bef) rest
      end
  | z => Some (x, z)
  end.

(** [RegExp.prototype.test] on a regular expression whose lastIndex is 0.
    ([scan] never ends out of fuel, see [scan_spec]: what is not a success
    here is the null of exec.) *)
Definition test (re : RegExpObj) (s : jsstring) : bool :=
  match scan (pattern re) [] (input_of re s) with
  | Some (_, Success _) => true
  | _ => false
  end.

(** A match as the callers see it: [index] and the length of [m[0]] in
    UTF-16 units, and the captures. *)
Record Match : Type := mkMatch {
  m_index : nat;
  m_length : nat;
  m_groups : list (nat * (nat * nat))
}.

Definition match_of (x y : MState) : Match :=
  mkMatch (utf16_length (before x))
          (utf16_length (before y) - utf16_length (before x))
          (caps y).

(** [while (m = re.exec(s)) ...] for a global expression, lastIndex starting
    at 0: every exec resumes where the last match ended.  A match of the
    empty string would repeat forever; [None] stands for that. *)
Fixpoint exec_loop (fuel : nat) (r : regex) (bef aft : list N) : option (list Match) :=
  match fuel with
  | O => None
  | S fuel' =>
      match scan r bef aft with
      | None => Some []
      | Some (x, Success y) =>
          match exec_loop fuel' r (before y) (after y) with
          | Some ms => Some (match_of x y :: ms)
          | None => None
          end
      | Some (_, _) => None
      end
  end.

Definition exec_all (re : RegExpObj) (s : jsstring) : option (list Match) :=
  let cs := input_of re s in
  exec_loop (S (length cs)) (pattern re) [] cs.

(** *** What the expressions denote

    [Denote r d x y]: read in direction [d], the term [r] can take the
    matcher from state [x] to state [y].  This is the meaning of each
    construct without the order in which the matcher tries the
    possibilities. *)

Fixpoint iter (n : nat) (R : MState -> MState -> Prop) (x y : MState) : Prop :=
  match n with
  | O => y = x
  | S n' => exists z, R x z /\ iter n' R z y
  end.

Definition reads (d : direction) (p : N -> bool) (x y : MState) : Prop :=
  exists ch, read d x = Some (ch, y) /\ p ch = true.

Definition within (n : nat) (max : option nat) : Prop :=
  match max with
  | Some k => n <= k
  | None => True
  end.

Fixpoint Denote (r : regex) (d : direction) (x y : MState) : Prop :=
  match r with
  | R_empty => y = x
  | R_char ch => reads d (N.eqb ch) x y
  | R_dot => reads d (fun ch => negb (is_line_terminator ch)) x y
  | R_class inv atoms => reads d (fun ch => xorb inv (class_mem atoms ch)) x y
  | R_seq r1 r2 =>
      match d with
      | Forward => exists z, Denote r1 d x z /\ Denote r2 d z y
      | Backward => exists z, Denote r2 d x z /\ Denote r1 d z y
      end
  | R_alt r1 r2 => Denote r1 d x y \/ Denote r2 d x y
  | R_quant r0 min max _ =>
      exists n, min <= n /\ within n max /\
        iter n (fun a b => Denote r0 d (clear_caps (groups r0) a) b) x y
  | R_group n r0 => exists z, Denote r0 d x z /\ y = set_cap n (span d x z) z
  | R_lookbehind r0 => exists z, Denote r0 Backward x z /\ y = with_caps x (caps z)
  | R_bol => y = x /\ before x = []
  | R_eol => y = x /\ after x = []
  end.

(** Quantifier bounds as the syntax admits them: [{min,max}] with
    [min <= max]. *)
Fixpoint well_formed (r : regex) : Prop :=
  match r with
  | R_seq r1 r2 | R_alt r1 r2 => well_formed r1 /\ well_formed r2
  | R_quant r0 min max _ => within min max /\ well_formed r0
  | R_group _ r0 | R_lookbehind r0 => well_formed r0
  | _ => True
  end.

End RegExp.

(** ** CodeMirror 6 decorations *)

Inductive Decoration : Type :=
| Deco_mark (class : String.string)     (* Decoration.mark({ class }) *)
| Deco_line (class : String.string).    (* Decoration.line({ class }) *)
Arguments Deco_mark class%_string_scope.
Arguments Deco_line class%_string_scope.

(** A decoration placed on a range of the document. *)
Record Range : Type := mkRange {
  r_from : nat;
  r_to : nat;
  r_value : Decoration
}.

(** ** syntax-extensions.ts : getInlineDecorator *)

Module InlineDecorator.
Import RegExp.

Definition chr (a : Ascii.ascii) : N := Ascii.N_of_ascii a.
Arguments chr a%_char_scope.

Definition tagDeco : Decoration := Deco_mark "cm-zkn-tag".
Definition highlightDeco : Decoration := Deco_mark "cm-highlight".

(** [.+?] *)
Definition lazy_any : regex := R_quant R_dot 1 None false.

(** [/(::.+?::|==.+?==)/] *)
Definition highlightRe : regex :=
  R_group 1
    (R_alt
       (R_seq (R_char (chr ":")) (R_seq (R_char (chr ":"))
          (R_seq lazy_any (R_seq (R_char (chr ":")) (R_char (chr ":"))))))
       (R_seq (R_char (chr "=")) (R_seq (R_char (chr "="))
          (R_seq lazy_any (R_seq (R_char (chr "=")) (R_char (chr "="))))))).

(** The characters a tag cannot contain: the negated class of [tagRe]. *)
Definition tag_excluded : list ClassAtom :=
  [ CA_space; CA_char (chr ","); CA_char (chr "."); CA_char (chr ":");
    CA_char (chr ";"); CA_char 8230 (* horizontal ellipsis *);
    CA_char (chr "!"); CA_char (chr "?"); CA_char 34 (* double quote *);
    CA_char (chr "'"); CA_char (chr "`");
    CA_char 187; CA_char 171 (* guillemets *);
    CA_char 8220; CA_char 8221; CA_char 8216; CA_char 8217 (* curly quotes *);
    CA_char 8212; CA_char 8211 (* em and en dash *);
    CA_char (chr "@"); CA_char (chr "$"); CA_char (chr "%"); CA_char (chr "&");
    CA_char (chr "*"); CA_char (chr "#"); CA_char (chr "^"); CA_char (chr "+");
    CA_char (chr "~"); CA_char 247 (* division sign *);
    CA_char 92 (* backslash *); CA_char (chr "/"); CA_char (chr "|");
    CA_char (chr "<"); CA_char (chr "="); CA_char (chr ">"); CA_char (chr "[");
    CA_char (chr "]"); CA_char (chr "("); CA_char (chr ")"); CA_char (chr "{");
    CA_char (chr "}") ].

(** [[^...]+] *)
Definition tag_chars : regex := R_quant (R_class true tag_excluded) 1 None true.

(** [#?] *)
Definition opt_hash : regex := R_quant (R_char (chr "#")) 0 (Some 1) true.

(** [(?<=^|\s|[({[])] *)
Definition tag_boundary : regex :=
  R_lookbehind
    (R_alt R_bol
       (R_alt (R_class false [CA_space])
              (R_class false [CA_char (chr "("); CA_char (chr "{"); CA_char (chr "[")]))).

(** [/(?<=^|\s|[({[])#(#?[^...]+#?)/]; inside the combined expression its
    group is the second one. *)
Definition tagRe : regex :=
  R_seq tag_boundary
    (R_seq (R_char (chr "#"))
       (R_group 2 (R_seq opt_hash (R_seq tag_chars opt_hash)))).

(** [new RegExp(`${highlightRe}|${tagRe}`, 'gu')] *)
Definition regexp : RegExpObj :=
  mkRegExp (R_alt highlightRe tagRe) true true.

(** The [decoration] callback: the highlight style when the first group took
    part in the match, the tag style otherwise. *)
Definition decoration (m : Match) : Decoration :=
  match cap_get 1 (m_groups m) with
  | Some _ => highlightDeco
  | None => tagDeco
  end.

(** [MatchDecorator]: the expression is run over each line of the visible
    text until exec returns null; a match [m] found at offset [pos] of the
    document is decorated from [pos + m.index] to that plus the length of
    [m[0]]. *)
Definition addMatch (pos : nat) (m : Match) : Range :=
  mkRange (pos + m_index m) (pos + m_index m + m_length m) (decoration m).

Definition decorate_line (pos : nat) (line : jsstring) : option (list Range) :=
  option_map (map (addMatch pos)) (exec_all regexp line).

(** [createDeco] over a document given by its lines, all of them visible;
    a line break counts one position. *)
Fixpoint createDeco_from (pos : nat) (lines : list jsstring) : option (list Range) :=
  match lines with
  | [] => Some []
  | l :: rest =>
      match decorate_line pos l, createDeco_from (pos + length l + 1) rest with
      | Some rs, Some rs' => Some (rs ++ rs')
      | _, _ => None
      end
  end.

Definition createDeco (lines : list jsstring) : option (list Range) :=
  createDeco_from 0 lines.

(** *** The shapes the two patterns describe *)

(** A text between a pair of doubled delimiters: at least one character,
    none of them a line terminator. *)
Definition delimited (dl : N) (w : list N) : Prop :=
  exists body, body <> [] /\
    Forall (fun ch => is_line_terminator ch = false) body /\
    w = [dl; dl] ++ body ++ [dl; dl].

(** What may stand in front of the [#] of a tag: nothing, white space or an
    opening bracket. *)
Definition boundary (bef : list N) : Prop :=
  bef = [] \/
  exists p rest, bef = p :: rest /\
    (is_whitespace p = true \/ p = chr "(" \/ p = chr "{" \/ p = chr "[").

Definition maybe_hash (w : list N) : Prop := w = [] \/ w = [chr "#"].

(** A tag: [#], possibly a second [#], one or more characters outside the
    excluded class, possibly a closing [#]. *)
Definition tag_word (w : list N) : Prop :=
  exists h1 body h2, maybe_hash h1 /\ maybe_hash h2 /\ body <> [] /\
    Forall (fun ch => class_mem tag_excluded ch = false) body /\
    w = chr "#" :: h1 ++ body ++ h2.

(** The tag shape without the second [#]: [#], one or more characters
    outside the excluded class, possibly a closing [#]. *)
Definition plain_tag_word (w : list N) : Prop :=
  exists body h2, maybe_hash h2 /\ body <> [] /\
    Forall (fun ch => class_mem tag_excluded ch = false) body /\
    w = chr "#" :: body ++ h2.

End InlineDecorator.

(** ** CodeMirror 6 host: document text and syntax tree *)

Module CM6.

(** The document, as its lines (a document always has at least one). *)
Definition Text := list jsstring.

Record Line : Type := mkLine {
  l_from : nat;
  l_to : nat;
  l_number : nat
}.

Fixpoint doc_length_from (start : nat) (doc : Text) : nat :=
  match doc with
  | [] => start
  | [l] => start + length l
  | l :: rest => doc_length_from (start + length l + 1) rest
  end.

(** [doc.length]: all lines and one position for each line break. *)
Definition doc_length (doc : Text) : nat := doc_length_from 0 doc.

Fixpoint lineAt_from (start number : nat) (doc : Text) (pos : nat) : option Line :=
  match doc with
  | [] => None
  | l :: rest =>
      if pos <=? start + length l
      then Some (mkLine start (start + length l) number)
      else lineAt_from (start + length l + 1) (S number) rest pos
  end.

(** [doc.lineAt(pos)]; a position past the end is a RangeError ([None]). *)
Definition lineAt (doc : Text) (pos : nat) : option Line :=
  lineAt_from 0 1 doc pos.

Fixpoint line_from (start number : nat) (doc : Text) (n : nat) : option Line :=
  match doc with
  | [] => None
  | l :: rest =>
      if number =? n
      then Some (mkLine start (start + length l) number)
      else line_from (start + length l + 1) (S number) rest n
  end.

(** [doc.line(n)], lines numbered from 1; a number outside the document is a
    RangeError ([None]). *)
Definition line (doc : Text) (n : nat) : option Line :=
  line_from 0 1 doc n.

(** A node of the syntax tree: type name, range, children. *)
Inductive SyntaxNode : Type :=
| Node (name : String.string) (from to : nat) (children : list SyntaxNode).
Arguments Node name%_string_scope from to children.

Definition node_name (n : SyntaxNode) : String.string :=
  match n with Node name _ _ _ => name end.
Definition node_from (n : SyntaxNode) : nat :=
  match n with Node _ from _ _ => from end.
Definition node_to (n : SyntaxNode) : nat :=
  match n with Node _ _ to _ => to end.
Definition node_children (n : SyntaxNode) : list SyntaxNode :=
  match n with Node _ _ _ children => children end.

(** All nodes of a tree in document order, parents before children. *)
Fixpoint nodes (n : SyntaxNode) : list SyntaxNode :=
  match n with
  | Node _ _ _ children =>
      n :: (fix below (ns : list SyntaxNode) : list SyntaxNode :=
              match ns with
              | [] => []
              | k :: ns' => nodes k ++ below ns'
              end) children
  end.

(** What an [enter] callback does to the state it closes over: [None] when
    it throws, otherwise the new state and whether the iteration descends
    into the node ([false] only when the callback returns [false]). *)
Definition Enter (S : Type) : Type := SyntaxNode -> S -> option (S * bool).

(** [tree.iterate({ from, to, enter })]: nodes are entered in document order,
    parents before children; a node that does not touch the range, or whose
    callback returns [false], is passed over with everything below it. *)
Fixpoint iterate (S : Type) (from to : nat) (enter : Enter S)
    (n : SyntaxNode) (acc : S) : option S :=
  match n with
  | Node _ nfrom nto children =>
      if (nfrom <=? to) && (from <=? nto) then
        match enter n acc with
        | None => None
        | Some (acc', false) => Some acc'
        | Some (acc', true) =>
            (fix siblings (ns : list SyntaxNode) (a : S) : option S :=
               match ns with
               | [] => Some a
               | k :: ns' =>
                   match iterate from to enter k a with
                   | None => None
                   | Some a' => siblings ns' a'
                   end
               end) children acc'
        end
      else Some acc
  end.

(** Insertion of a range in front of the ranges that start no earlier: the
    stable order [Decoration.set] establishes when asked to sort.  (The
    ranges of one line highlighter all have the same side, so only the
    start position decides.) *)
Fixpoint insert_range (r : Range) (rs : list Range) : list Range :=
  match rs with
  | [] => [r]
  | r' :: rs' =>
      if r_from r' <? r_from r then r' :: insert_range r rs'
      else r :: rs
  end.

Fixpoint sort_ranges (rs : list Range) : list Range :=
  match rs with
  | [] => []
  | r :: rs' => insert_range r (sort_ranges rs')
  end.

Fixpoint sorted_ranges (rs : list Range) : bool :=
  match rs with
  | [] => true
  | r :: rs' =>
      match rs' with
      | [] => true
      | r' :: _ => (r_from r <=? r_from r') && sorted_ranges rs'
      end
  end.

(** [Decoration.set(ranges, sort)]: with [sort] the ranges are sorted (the
    order of ranges at one position is kept), without it they must come
    sorted, or the call throws. *)
Definition Decoration_set (rs : list Range) (sort : bool) : option (list Range) :=
  if sort then Some (sort_ranges rs)
  else if sorted_ranges rs then Some rs else None.

(** [deco.range(from)] for a line decoration. *)
Definition range_at (d : Decoration) (from : nat) : Range := mkRange from from d.

(** The decorations a set puts on line [n] of the document, in the order
    of the set. *)
Definition line_decorations (doc : Text) (set : list Range) (n : nat) : list Decoration :=
  match line doc n with
  | Some l => map r_value (filter (fun r => r_from r =? l_from l) set)
  | None => []
  end.

(** The node lies within the document. *)
Definition fits (doc : Text) (n : SyntaxNode) : Prop :=
  node_from n <= doc_length doc /\ node_to n <= doc_length doc.

End CM6.

(** ** syntax-extensions.ts : getCodeBlockLineHighlighter *)

Module CodeBlockLineHighlighter.
Import CM6.

Definition codeLineDecorator : Decoration := Deco_line "code code-block-line".
Definition codeBlockStart : Decoration := Deco_line "code-block-first-line".
Definition codeBlockEnd : Decoration := Deco_line "code-block-last-line".

(** [for (let lineNo = start; lineNo <= end; lineNo++)]: one code-line
    decoration for each line, pushed in order; [count] lines are left. *)
Fixpoint push_code_lines (doc : Text) (lineNo count : nat)
    (widgets : list Range) : option (list Range) :=
  match count with
  | O => Some widgets
  | S count' =>
      match line doc lineNo with
      | None => None
      | Some l =>
          push_code_lines doc (S lineNo) count'
            (widgets ++ [range_at codeLineDecorator (l_from l)])
      end
  end.

(** The [enter] callback.  It never returns [false]. *)
Definition enter (doc : Text) : Enter (list Range) := fun node widgets =>
  if negb (String.eqb (node_name node) "CodeText") then Some (widgets, true)
  else
    match lineAt doc (node_from node), lineAt doc (node_to node) with
    | Some ls, Some le =>
        let start := l_number ls in
        let end_ := l_number le in
        match line doc start with
        | None => None
        | Some l1 =>
            let widgets1 := widgets ++ [range_at codeBlockStart (l_from l1)] in
            match push_code_lines doc start (S end_ - start) widgets1 with
            | None => None
            | Some widgets2 =>
                match line doc end_ with
                | None => None
                | Some l2 =>
                    Some (widgets2 ++ [range_at codeBlockEnd (l_from l2)], true)
                end
            end
        end
    | _, _ => None
    end.

(** [render(state)], for the document and the syntax tree of the state. *)
Definition render (doc : Text) (tree : SyntaxNode) : option (list Range) :=
  match iterate 0 (doc_length doc) (enter doc) tree [] with
  | None => None
  | Some widgets => Decoration_set widgets true
  end.

(** The ranges one node accounts for: none unless it is a CodeText node;
    for such a node, with [ls] and [le] the lines of its two ends, the
    first-line decoration on [ls], the last-line decoration on [le] and the
    code-line decoration on every line from [ls] to [le]. *)
Definition block_range (doc : Text) (n : SyntaxNode) (r : Range) : Prop :=
  node_name n = "CodeText"%string /\
  exists ls le,
    lineAt doc (node_from n) = Some ls /\ lineAt doc (node_to n) = Some le /\
    (r = range_at codeBlockStart (l_from ls)
     \/ r = range_at codeBlockEnd (l_from le)
     \/ exists k lk, l_number ls <= k <= l_number le /\
          line doc k = Some lk /\ r = range_at codeLineDecorator (l_from lk)).

(** A document of eight lines with a fenced block whose fences are on lines
    2 and 6; the code text is lines 3 to 5 (positions 11 to 16). *)
Definition example_doc : Text :=
  [str "text"; str "```js"; str "a"; str "b"; str "c"; str "```"; str "more";
   str "end"].

Definition example_tree : SyntaxNode :=
  Node "Document" 0 29
    [ Node "Paragraph" 0 4 [];
      Node "FencedCode" 5 20
        [ Node "CodeMark" 5 8 []; Node "CodeInfo" 8 10 [];
          Node "CodeText" 11 16 []; Node "CodeMark" 17 20 [] ];
      Node "Paragraph" 21 29 [] ].

(** A document whose code text is line 5 alone (positions 14 to 15). *)
Definition single_line_doc : Text :=
  [str "a"; str "b"; str "c"; str "```"; str "x"; str "```"].

Definition single_line_tree : SyntaxNode :=
  Node "Document" 0 19
    [ Node "Paragraph" 0 5 [];
      Node "FencedCode" 6 19
        [ Node "CodeMark" 6 9 []; Node "CodeText" 10 11 [];
          Node "CodeMark" 12 15 [] ] ].

End CodeBlockLineHighlighter.

(** ** syntax-extensions.ts : getHeadingLineHighlighter *)

Module HeadingLineHighlighter.
Import CM6.

Definition h1 : Decoration := Deco_line "size-header-1".
Definition h2 : Decoration := Deco_line "size-header-2".
Definition h3 : Decoration := Deco_line "size-header-3".
Definition h4 : Decoration := Deco_line "size-header-4".
Definition h5 : Decoration := Deco_line "size-header-5".
Definition h6 : Decoration := Deco_line "size-header-6".

Definition startsWith (s prefix : String.string) : bool := String.prefix prefix s.
Arguments startsWith s%_string_scope prefix%_string_scope.

Definition name_is (n : SyntaxNode) (s : String.string) : bool :=
  String.eqb (node_name n) s.
Arguments name_is n s%_string_scope.

(** The [switch] over the node's type name; a name without a case pushes
    nothing. *)
Definition heading_deco (node : SyntaxNode) : option Decoration :=
  if name_is node "ATXHeading1" || name_is node "SetextHeading1" then Some h1
  else if name_is node "ATXHeading2" || name_is node "SetextHeading2" then Some h2
  else if name_is node "ATXHeading3" then Some h3
  else if name_is node "ATXHeading4" then Some h4
  else if name_is node "ATXHeading5" then Some h5
  else if name_is node "ATXHeading6" then Some h6
  else None.

(** The [enter] callback: the document node is descended into, any other
    node that is neither ATX... nor Setext... returns [false]. *)
Definition enter : Enter (list Range) := fun node widgets =>
  if name_is node "Document" then Some (widgets, true)
  else if negb (startsWith (node_name node) "ATX")
          && negb (startsWith (node_name node) "Setext")
  then Some (widgets, false)
  else
    match heading_deco node with
    | Some h => Some (widgets ++ [range_at h (node_from node)], true)
    | None => Some (widgets, true)
    end.

(** [render(state)]; the set is built without sorting. *)
Definition render (doc : Text) (tree : SyntaxNode) : option (list Range) :=
  match iterate 0 (doc_length doc) enter tree [] with
  | None => None
  | Some widgets => Decoration_set widgets false
  end.

(** *** Heading nodes and how the iteration reaches them *)

(** The heading nodes of the Markdown grammar with their levels: the ATX
    notation for levels 1 to 6, the Setext notation for levels 1 and 2. *)
Definition heading_names : list (String.string * nat) :=
  [ ("ATXHeading1", 1); ("ATXHeading2", 2); ("ATXHeading3", 3);
    ("ATXHeading4", 4); ("ATXHeading5", 5); ("ATXHeading6", 6);
    ("SetextHeading1", 1); ("SetextHeading2", 2) ]%string.

Fixpoint lookup_name (s : String.string) (table : list (String.string * nat)) : option nat :=
  match table with
  | [] => None
  | (k, v) :: table' => if String.eqb k s then Some v else lookup_name s table'
  end.

Definition heading_level (n : SyntaxNode) : option nat :=
  lookup_name (node_name n) heading_names.

(** The size class of a level. *)
Definition size_header (level : nat) : Decoration :=
  match level with
  | 1 => h1 | 2 => h2 | 3 => h3 | 4 => h4 | 5 => h5 | _ => h6
  end.

(** The nodes below which the iteration goes on. *)
Definition descends (n : SyntaxNode) : bool :=
  name_is n "Document" || startsWith (node_name n) "ATX"
  || startsWith (node_name n) "Setext".

(** [reached root n]: every node on the way from the root down to [n], [n]
    excepted, is one the iteration descends into. *)
Inductive reached (root : SyntaxNode) : SyntaxNode -> Prop :=
| reached_root : reached root root
| reached_child p c :
    reached root p -> descends p = true -> In c (node_children p) ->
    reached root c.

Fixpoint nondecreasing (l : list nat) : bool :=
  match l with
  | [] => true
  | a :: l' =>
      match l' with
      | [] => true
      | b :: _ => (a <=? b) && nondecreasing l'
      end
  end.

(** Nodes start in document order: none starts before one that precedes it
    in the tree. *)
Definition in_document_order (tree : SyntaxNode) : bool :=
  nondecreasing (map node_from (nodes tree)).

(** Ten lines; a level-2 heading on line 1 and a level-4 heading on
    line 10, in the ATX notation... *)
Definition atx_doc : Text :=
  [str "## Two"; str ""; str "a"; str "b"; str "c"; str "d"; str "e"; str "f";
   str ""; str "#### Four"].

Definition atx_tree : SyntaxNode :=
  Node "Document" 0 30
    [ Node "ATXHeading2" 0 6 [Node "HeaderMark" 0 2 []];
      Node "Paragraph" 8 19 [];
      Node "ATXHeading4" 21 30 [Node "HeaderMark" 21 25 []] ].

(** ... and with the level-2 heading in the Setext notation (the heading
    node takes lines 1 and 2). *)
Definition setext_doc : Text :=
  [str "Two"; str "---"; str "a"; str "b"; str "c"; str "d"; str "e"; str "f";
   str ""; str "#### Four"].

Definition setext_tree : SyntaxNode :=
  Node "Document" 0 30
    [ Node "SetextHeading2" 0 7 [Node "HeaderMark" 4 7 []];
      Node "Paragraph" 8 19 [];
      Node "ATXHeading4" 21 30 [Node "HeaderMark" 21 25 []] ].

(** A heading inside a block quote: [> # Title]. *)
Definition quoted_doc : Text := [str "> # Title"].

Definition quoted_tree : SyntaxNode :=
  Node "Document" 0 9
    [ Node "Blockquote" 0 9
        [ Node "QuoteMark" 0 1 [];
          Node "ATXHeading1" 2 9 [Node "HeaderMark" 2 3 []] ] ].

(** An indented heading: [  ## T].  Up to three blanks may stand before
    the marks of a heading; the heading node starts at the first mark. *)
Definition indented_doc : Text := [str "  ## T"].

Definition indented_tree : SyntaxNode :=
  Node "Document" 0 6
    [ Node "ATXHeading2" 2 6 [Node "HeaderMark" 2 4 []] ].

End HeadingLineHighlighter.

(** ** CodeMirror 5 host: lines, caret, viewport, text markers *)

Module CM5.

Record Pos : Type := mkPos {
  line : nat;
  ch : nat
}.

(** [cmp(a, b) < 0] on positions. *)
Definition pos_lt (a b : Pos) : bool :=
  (line a <? line b) || ((line a =? line b) && (ch a <? ch b)).

(** What a thrown value (an object) carries: its [str] property, if it
    has one. *)
Record JsError : Type := mkError {
  err_str : option jsstring
}.

(** How a statement or call completes. *)
Inductive Completion (A : Type) : Type :=
| Normal (a : A)
| Throw (e : JsError).
Arguments Normal {A} a.
Arguments Throw {A} e.

(** [try { body } catch (err) { handler }], body and handler working on a
    state [S] (here: the element they change). *)
Definition try_catch (S A : Type) (body : S * Completion A)
    (handler : JsError -> S -> S * Completion A) : S * Completion A :=
  match body with
  | (s, Normal a) => (s, Normal a)
  | (s, Throw e) => handler e s
  end.

(** An event handler installed on an element. *)
Inductive Handler : Type :=
| ClearMarker (id : nat).        (* (e) => { textMarker.clear() } *)

Section Host.

(** What a Chessboard builds inside its element. *)
Variable Board : Type.

Inductive Content : Type :=
| NoContent
| BoardContent (b : Board)
| InnerText (t : jsstring).

Record Element : Type := mkElement {
  tagName : String.string;
  classList : list String.string;
  content : Content;
  onclick : option Handler
}.

Record TextMarker : Type := mkMarker {
  m_id : nat;
  m_from : Pos;
  m_to : Pos;
  clearOnEnter : bool;
  replacedWith : Element;
  handleMouseEvents : bool
}.

Record Editor : Type := mkEditor {
  lines : list jsstring;
  cursor : Pos;                       (* the 'from' end of the selection *)
  viewport : nat * nat;
  modeName : nat -> String.string;    (* name of the mode at (line, 0) *)
  marks : list TextMarker;
  next_id : nat
}.

Definition lineCount (cm : Editor) : nat := length (lines cm).
Definition getLine (cm : Editor) (n : nat) : option jsstring := nth_error (lines cm) n.

Definition with_marks (cm : Editor) (ms : list TextMarker) (next : nat) : Editor :=
  mkEditor (lines cm) (cursor cm) (viewport cm) (modeName cm) ms next.

(** [clipPos]: a position is moved into the document. *)
Definition clipPos (cm : Editor) (p : Pos) : Pos :=
  if lineCount cm <=? line p
  then mkPos (lineCount cm - 1) (length (nth (lineCount cm - 1) (lines cm) []))
  else mkPos (line p) (Nat.min (ch p) (length (nth (line p) (lines cm) []))).

(** The part of a marker on line [l]: where it starts and ends on that
    line, [None] standing for a marker that comes from the line before or
    goes on to the next. *)
Definition span_on (m : TextMarker) (l : nat) : option (option nat * option nat) :=
  if (line (m_from m) <=? l) && (l <=? line (m_to m))
  then Some (if line (m_from m) =? l then Some (ch (m_from m)) else None,
             if line (m_to m) =? l then Some (ch (m_to m)) else None)
  else None.

(** The test [findMarks] applies to a span on line [l]. *)
Definition span_found (from to : Pos) (l : nat) (sp : option nat * option nat) : bool :=
  negb (match snd sp with
        | Some sto => (l =? line from) && (sto <=? ch from)
        | None => false
        end
        || match fst sp with
           | None => negb (l =? line from)
           | Some sfrom => (l =? line to) && (ch to <=? sfrom)
           end).

Definition marker_found (from to : Pos) (m : TextMarker) : bool :=
  existsb (fun l => match span_on m l with
                    | Some sp => span_found from to l sp
                    | None => false
                    end)
          (seq (line from) (S (line to) - line from)).

(** [cm.findMarks(from, to)]: the markers with a part between the two
    (clipped) positions. *)
Definition findMarks (cm : Editor) (from to : Pos) : list TextMarker :=
  filter (marker_found (clipPos cm from) (clipPos cm to)) (marks cm).

(** Options of [markText] the command sets. *)
Record MarkOptions : Type := mkOptions {
  o_clearOnEnter : bool;
  o_replacedWith : Element;
  o_handleMouseEvents : bool
}.

(** [cm.markText(from, to, options)]: a new marker on the (clipped) range;
    a marker on an empty range is not attached.  The result is the editor
    and the new marker. *)
Definition markText (cm : Editor) (from to : Pos) (o : MarkOptions) : Editor * TextMarker :=
  let m := mkMarker (next_id cm) (clipPos cm from) (clipPos cm to)
             (o_clearOnEnter o) (o_replacedWith o) (o_handleMouseEvents o) in
  if pos_lt (clipPos cm from) (clipPos cm to)
  then (with_marks cm (marks cm ++ [m]) (S (next_id cm)), m)
  else (with_marks cm (marks cm) (S (next_id cm)), m).

(** [elem.onclick = h] for the element a marker was given: the element is
    the one object the marker shows, so the marker sees the handler. *)
Definition set_onclick (cm : Editor) (id : nat) (h : Handler) : Editor :=
  with_marks cm
    (map (fun m =>
            if m_id m =? id
            then mkMarker (m_id m) (m_from m) (m_to m) (clearOnEnter m)
                   (mkElement (tagName (replacedWith m)) (classList (replacedWith m))
                      (content (replacedWith m)) (Some h))
                   (handleMouseEvents m)
            else m) (marks cm))
    (next_id cm).

(** [textMarker.clear()] *)
Definition clear_marker (cm : Editor) (id : nat) : Editor :=
  with_marks cm (filter (fun m => negb (m_id m =? id)) (marks cm)) (next_id cm).

Definition run_handler (cm : Editor) (h : Handler) : Editor :=
  match h with
  | ClearMarker id => clear_marker cm id
  end.

(** The click event on the element that replaces marker [m]: the handler
    installed on the element runs.  (Where the press of the mouse button
    puts the caret is the editor's own doing, and no part of this.) *)
Definition click (cm : Editor) (m : TextMarker) : Editor :=
  match onclick (replacedWith m) with
  | Some h => run_handler cm h
  | None => cm
  end.

(** A position inside the range of a marker, its two ends excepted. *)
Definition caret_inside (p : Pos) (m : TextMarker) : bool :=
  pos_lt (m_from m) p && pos_lt p (m_to m).

(** The caret is placed at [p], moved into the document: as the manual has
    it for the option [clearOnEnter], a marker with the option clears itself
    when the caret enters its range. *)
Definition setCursor (cm : Editor) (p : Pos) : Editor :=
  mkEditor (lines cm) (clipPos cm p) (viewport cm) (modeName cm)
    (filter (fun m => negb (clearOnEnter m && caret_inside (clipPos cm p) m)) (marks cm))
    (next_id cm).

End Host.

End CM5.

(** ** The CodeMirror command markdownRenderChess *)

Module RenderChess.
Import RegExp CM5.

(** A sequence of literal characters. *)
Definition lit (s : jsstring) : regex :=
  fold_right (fun c r => R_seq (R_char c) r) R_empty s.

(** [/^```chess/] *)
Definition fence_open : RegExpObj :=
  mkRegExp (R_seq R_bol (lit (str "```chess"))) false false.

(** [/^```\s*$/] *)
Definition fence_close : RegExpObj :=
  mkRegExp
    (R_seq R_bol
       (R_seq (lit (str "```"))
          (R_seq (R_quant (R_class false [CA_space]) 0 None true) R_eol)))
    false false.

(** [re.test(cm.getLine(n))]: a line that does not exist is [undefined],
    which [test] converts to a string. *)
Definition test_line (re : RegExpObj) (l : option jsstring) : bool :=
  test re (match l with Some s => s | None => str "undefined" end).

(** [parts.join(sep)] *)
Fixpoint join (sep : jsstring) (parts : list jsstring) : jsstring :=
  match parts with
  | [] => []
  | [p] => p
  | p :: rest => p ++ sep ++ join sep rest
  end.

Definition newline : jsstring := [10%N].

(** The text interpolated for a property that may be undefined. *)
Definition interpolate (v : option jsstring) : jsstring :=
  match v with
  | Some s => s
  | None => str "undefined"
  end.

Record ChessProps : Type := mkProps {
  position : jsstring;
  sprite_url : String.string
}.

(** What the inner loop leaves behind: the counter [j], the flag, the end
    line and the lines read. *)
Record ReadResult : Type := mkRead {
  rr_j : nat;
  rr_cursorInBlock : bool;
  rr_endLine : nat;
  rr_codeblock : list jsstring
}.

(** The inner loop, [for (; j < cm.lineCount(); j++)], over the lines from
    [j] on ([rest]); [endLine] still is the start line when the loop runs
    off the end of the document. *)
Fixpoint read_block (currentCursorPosition : nat) (rest : list jsstring)
    (j endLine : nat) (codeblock : list jsstring) : ReadResult :=
  match rest with
  | [] => mkRead j false endLine codeblock
  | l :: rest' =>
      if currentCursorPosition =? j then mkRead j true endLine codeblock
      else if test_line fence_close (Some l) then mkRead j false j codeblock
      else read_block currentCursorPosition rest' (S j) endLine (codeblock ++ [l])
  end.

Section Command.

Variable Board : Type.

(** [new Chessboard(elem, props)] of cm-chessboard: what it leaves of the
    element, and how it completes. *)
Variable new_Chessboard :
  Element Board -> ChessProps -> Element Board * Completion unit.

Definition createElement (tag : String.string) : Element Board :=
  mkElement tag [] (NoContent Board) None.
Arguments createElement tag%_string_scope.

Definition classList_add (e : Element Board) (c : String.string) : Element Board :=
  mkElement (tagName e) (classList e ++ [c]) (content e) (onclick e).
Arguments classList_add e c%_string_scope.

(** [elem.innerText = t]: the text replaces whatever the element held. *)
Definition set_innerText (e : Element Board) (t : jsstring) : Element Board :=
  mkElement (tagName e) (classList e) (InnerText Board t) (onclick e).

Definition sprite : String.string :=
  "https://raw.githubusercontent.com/shaack/cm-chessboard/master/assets/images/chessboard-sprite.svg"%string.

(** The text of the error element. *)
Definition error_text (err : JsError) : jsstring :=
  str "Could not render Chessboard" ++ newline ++ interpolate (err_str err).

(** Lines 74-88: the element for a block, [try]/[catch] included. *)
Definition build_element (codeblock : list jsstring) : Element Board * Completion unit :=
  let code := join newline codeblock in
  let elem := createElement "div" in
  let elem := classList_add elem "chessboard" in
  try_catch
    (new_Chessboard elem (mkProps code sprite))
    (fun err elem =>
       let elem := classList_add elem "error" in
       let elem := set_innerText elem (error_text err) in
       (elem, Normal tt)).

(** Lines 74-100: element, marker, click handler. *)
Definition render_block (cm : Editor Board) (startLine endLine : nat)
    (codeblock : list jsstring) : Completion (Editor Board) :=
  let (elem, r) := build_element codeblock in
  match r with
  | Throw e => Throw e
  | Normal _ =>
      let (cm1, textMarker) :=
        markText cm (mkPos startLine 0) (mkPos endLine 3)
          (mkOptions true elem true) in
      Normal (set_onclick cm1 (m_id textMarker) (ClearMarker (m_id textMarker)))
  end.

(** The lines the inner loop reads for the fence on line [i]. *)
Definition read_from (cm : Editor Board) (currentCursorPosition i : nat) : ReadResult :=
  read_block currentCursorPosition (skipn (S i) (lines cm)) (S i) i [].

(** One round of the outer loop, lines 30-101, at counter [i]: how the
    round completes, what it leaves of the editor, and the value of [i]
    when it ends ([i] is moved to the inner counter once a block has been
    read; the [i++] of the loop follows). *)
Definition loop_body (cm : Editor Board) (currentCursorPosition i : nat)
    : Completion (Editor Board) * nat :=
  if negb (String.eqb (modeName cm i) "markdown-zkn") then (Normal cm, i)
  else if currentCursorPosition =? i then (Normal cm, i)
  else if test_line fence_open (getLine cm i) then
    let startLine := i in
    let rr := read_from cm currentCursorPosition i in
    let endLine := rr_endLine rr in
    let i := rr_j rr in
    if rr_cursorInBlock rr then (Normal cm, i)
    else if endLine <=? startLine then (Normal cm, i)
    else if 0 <? length (findMarks cm (mkPos startLine 0) (mkPos endLine 3))
    then (Normal cm, i)
    else (render_block cm startLine endLine (rr_codeblock rr), i)
  else (Normal cm, i).

(** The outer loop, [for (let i = ...; i < viewport.to; i++)], from [i] on;
    [fuel] bounds the rounds and [None] says it ran out. *)
Fixpoint scan_from (fuel : nat) (cm : Editor Board) (currentCursorPosition : nat)
    (i : nat) : option (Completion (Editor Board)) :=
  match fuel with
  | O => None
  | S fuel' =>
      if negb (i <? snd (viewport cm)) then Some (Normal cm)
      else
        match loop_body cm currentCursorPosition i with
        | (Throw e, _) => Some (Throw e)
        | (Normal cm', i') => scan_from fuel' cm' currentCursorPosition (S i')
        end
  end.

(** [commands.markdownRenderChess(cm)] *)
Definition markdownRenderChess (cm : Editor Board) : option (Completion (Editor Board)) :=
  let currentCursorPosition := line (cursor cm) in
  let viewport := viewport cm in
  scan_from (S (snd viewport - fst viewport)) cm currentCursorPosition (fst viewport).

(** *** Words for the statements about the command *)

(** The element of a block as its marker shows it, the click handler
    installed. *)
Definition widget_element (codeblock : list jsstring) (id : nat) : Element Board :=
  let e := fst (build_element codeblock) in
  mkElement (tagName e) (classList e) (content e) (Some (ClearMarker id)).

(** The marker the command creates for a block from [startLine] to
    [endLine] with the lines [codeblock] between the fences. *)
Definition widget (cm : Editor Board) (startLine endLine : nat)
    (codeblock : list jsstring) : TextMarker Board :=
  mkMarker (next_id cm) (clipPos cm (mkPos startLine 0)) (clipPos cm (mkPos endLine 3))
    true (widget_element codeblock (next_id cm)) true.

Definition add_widget (cm : Editor Board) (startLine endLine : nat)
    (codeblock : list jsstring) : Editor Board :=
  with_marks cm (marks cm ++ [widget cm startLine endLine codeblock]) (S (next_id cm)).

(** Two editors show the same document in the same way. *)
Definition same_doc (cm cm' : Editor Board) : Prop :=
  lines cm' = lines cm /\ cursor cm' = cursor cm /\
  viewport cm' = viewport cm /\ modeName cm' = modeName cm.

(** Marker identities are those the editor has handed out. *)
Definition fresh_ids (cm : Editor Board) : Prop :=
  Forall (fun m => m_id m < next_id cm) (marks cm).

(** Line [i] is where a round starts to read a block. *)
Definition opens_block (cm : Editor Board) (currentCursorPosition i : nat) : Prop :=
  modeName cm i = "markdown-zkn"%string /\ currentCursorPosition <> i /\
  test_line fence_open (getLine cm i) = true.

(** The lines between two fences. *)
Definition lines_between (cm : Editor Board) (startLine endLine : nat) : list jsstring :=
  firstn (endLine - S startLine) (skipn (S startLine) (lines cm)).

Definition closes (cm : Editor Board) (k : nat) : bool :=
  test_line fence_close (getLine cm k).

(** Lines [s] to [e] are a block as a round reads it with the caret on line
    [cur]: an opening fence on [s], the first closing fence behind it on
    [e], and the caret on none of the lines from [s] to [e]. *)
Definition block (cm : Editor Board) (cur s e : nat) : Prop :=
  opens_block cm cur s /\ s < e < lineCount cm /\
  (forall k, s < k <= e -> k <> cur) /\
  (forall k, s < k < e -> closes cm k = false) /\
  closes cm e = true.

(** The marker with identity [id] for the block from [s] to [e]. *)
Definition widget_of (cm : Editor Board) (s e id : nat) : TextMarker Board :=
  mkMarker id (clipPos cm (mkPos s 0)) (clipPos cm (mkPos e 3))
    true (widget_element (lines_between cm s e) id) true.

(** [m] is a marker a pass over [cm] from line [i] on creates: the marker
    of a block that starts in the viewport, at or after [i], in whose range
    [cm] has no marker. *)
Definition created (cm : Editor Board) (cur i : nat) (m : TextMarker Board) : Prop :=
  exists s e id,
    block cm cur s e /\ i <= s < snd (viewport cm) /\
    findMarks cm (mkPos s 0) (mkPos e 3) = [] /\
    next_id cm <= id /\ m = widget_of cm s e id.

End Command.

(** *** Example editors *)

(** A constructor for the examples: a position with a rank separator is
    drawn, anything else is refused. *)
Definition example_Chessboard (elem : Element jsstring) (props : ChessProps)
    : Element jsstring * Completion unit :=
  if existsb (N.eqb 47) (position props)
  then (mkElement (tagName elem) (classList elem)
          (BoardContent (position props)) (onclick elem), Normal tt)
  else (elem, Throw (mkError (Some (str "Invalid FEN")))).

Definition markdown_zkn : nat -> String.string := fun _ => "markdown-zkn"%string.

(** A chess block from line 2 to line 6, the caret on line 0. *)
Definition block_lines : list jsstring :=
  [ str "intro"; str ""; str "```chess"; str "rnbqkbnr/pppppppp";
    str "8/8/8/8"; str "PPPPPPPP/RNBQKBNR"; str "```"; str "outro" ].

Definition block_editor : Editor jsstring :=
  mkEditor block_lines (mkPos 0 0) (0, 8) markdown_zkn [] 0.

(** The marker the command puts on that block. *)
Definition block_widget : TextMarker jsstring :=
  mkMarker 0 (mkPos 2 0) (mkPos 6 3) true
    (mkElement "div" ["chessboard"%string]
       (BoardContent
          (str "rnbqkbnr/pppppppp" ++ newline ++ str "8/8/8/8" ++ newline
             ++ str "PPPPPPPP/RNBQKBNR"))
       (Some (ClearMarker 0)))
    true.

Definition block_rendered : Editor jsstring :=
  mkEditor block_lines (mkPos 0 0) (0, 8) markdown_zkn [block_widget] 1.

(** The same document with the caret on line 4, inside the block. *)
Definition caret_inside_editor : Editor jsstring :=
  mkEditor block_lines (mkPos 4 0) (0, 8) markdown_zkn [] 0.

(** The same document in another mode. *)
Definition other_mode_editor : Editor jsstring :=
  mkEditor block_lines (mkPos 0 0) (0, 8) (fun _ => "gfm"%string) [] 0.

(** A block whose text is not a position, then one whose text is. *)
Definition invalid_editor : Editor jsstring :=
  mkEditor
    [ str "intro"; str "```chess"; str "nonsense"; str "```";
      str "```chess"; str "8/8"; str "```" ]
    (mkPos 0 0) (0, 7) markdown_zkn [] 0.

Definition invalid_widget : TextMarker jsstring :=
  mkMarker 0 (mkPos 1 0) (mkPos 3 3) true
    (mkElement "div" ["chessboard"; "error"]%string
       (InnerText jsstring
          (str "Could not render Chessboard" ++ newline ++ str "Invalid FEN"))
       (Some (ClearMarker 0)))
    true.

Definition valid_widget : TextMarker jsstring :=
  mkMarker 1 (mkPos 4 0) (mkPos 6 3) true
    (mkElement "div" ["chessboard"%string] (BoardContent (str "8/8"))
       (Some (ClearMarker 1)))
    true.

(** An opening fence that is never closed. *)
Definition unclosed_editor : Editor jsstring :=
  mkEditor [ str "intro"; str "```chess"; str "8/8"; str "more" ]
    (mkPos 0 0) (0, 4) markdown_zkn [] 0.

(** A constructor that refuses a text the way JavaScript code does, by
    throwing an [Error] object: such a value has a [message], and no
    property [str]. *)
Definition throwing_Chessboard (elem : Element jsstring) (props : ChessProps)
    : Element jsstring * Completion unit :=
  if existsb (N.eqb 47) (position props)
  then (mkElement (tagName elem) (classList elem)
          (BoardContent (position props)) (onclick elem), Normal tt)
  else (elem, Throw (mkError None)).

(** Two blocks whose texts are not positions, and not the same text. *)
Definition two_invalid_editor : Editor jsstring :=
  mkEditor
    [ str "intro"; str "```chess"; str "nonsense"; str "```";
      str "```chess"; str "k7 8 8"; str "```" ]
    (mkPos 0 0) (0, 7) markdown_zkn [] 0.

(** The error element for a thrown value without [str], on the block from
    line [s] to line [e]. *)
Definition undefined_widget (id s e : nat) : TextMarker jsstring :=
  mkMarker id (mkPos s 0) (mkPos e 3) true
    (mkElement "div" ["chessboard"; "error"]%string
       (InnerText jsstring
          (str "Could not render Chessboard" ++ newline ++ str "undefined"))
       (Some (ClearMarker id)))
    true.

End RenderChess.

(** * Properties *)

(** ** The matcher: termination and soundness *)

Module RegExpFacts.
Import RegExp.

(** Input still to be read in a direction, and the whole input. *)
Definition remaining (d : direction) (x : MState) : nat :=
  match d with
  | Forward => length (after x)
  | Backward => length (before x)
  end.

Definition total (x : MState) : nat := length (before x) + length (after x).

(** [y] is a state the matcher can reach from [x] going in direction [d]. *)
Definition follows (d : direction) (x y : MState) : Prop :=
  total y = total x /\ remaining d y <= remaining d x.

Lemma follows_refl d x : follows d x x.
Proof. split; auto. Qed.

Lemma follows_trans d x y z : follows d x y -> follows d y z -> follows d x z.
Proof. unfold follows; intros [? ?] [? ?]; split; lia. Qed.

Lemma follows_read d x ch y : read d x = Some (ch, y) -> follows d x y.
Proof.
  unfold read, follows, total, remaining.
  destruct d, x as [b a cs]; simpl.
  - destruct a; intros H; inversion H; subst; simpl; lia.
  - destruct b; intros H; inversion H; subst; simpl; lia.
Qed.

Lemma follows_caps d x y cs :
  follows d x y -> follows d x (mkState (before y) (after y) cs).
Proof. unfold follows, total, remaining; destruct d; simpl; auto. Qed.

Lemma follows_caps_l d x y cs :
  follows d (mkState (before x) (after x) cs) y -> follows d x y.
Proof. unfold follows, total, remaining; destruct d; simpl; auto. Qed.

Lemma follows_moved d x y :
  follows d x y -> endIndex y <> endIndex x -> remaining d y < remaining d x.
Proof.
  unfold follows, total, remaining, endIndex; destruct d; intros [? ?] ?; lia.
Qed.

Section Fuel.

Variable d : direction.
Variable m : MState -> Cont -> MResult.
Hypothesis m_fuel : forall x c,
  (forall y, follows d x y -> c y <> OutOfFuel) -> m x c <> OutOfFuel.

Lemma repeat_matcher_fuel gs greedy fuel :
  forall min max x c,
    remaining d x + min < fuel ->
    (forall y, follows d x y -> c y <> OutOfFuel) ->
    repeat_matcher m gs greedy fuel min max x c <> OutOfFuel.
Proof.
  induction fuel as [|fuel IH]; intros min max x c Hfuel Hc; [lia|].
  assert (Hd : forall y, follows d (clear_caps gs x) y ->
             (if (min =? 0) && (endIndex y =? endIndex x) then Failure
              else repeat_matcher m gs greedy fuel (pred min)
                     (option_map pred max) y c) <> OutOfFuel).
  { intros y Hy. apply follows_caps_l in Hy.
    destruct ((min =? 0) && (endIndex y =? endIndex x)) eqn:E; [discriminate|].
    apply IH.
    - apply andb_false_iff in E as [E|E].
      + apply Nat.eqb_neq in E. destruct Hy; lia.
      + apply Nat.eqb_neq in E. pose proof (follows_moved Hy E). lia.
    - intros z Hz. apply Hc. eapply follows_trans; eauto. }
  assert (Hx : c x <> OutOfFuel) by (apply Hc, follows_refl).
  pose proof (@m_fuel (clear_caps gs x) _ Hd) as Hm.
  simpl.
  destruct max as [[|k]|]; auto;
    (destruct (negb (min =? 0)); [exact Hm|];
     destruct (negb greedy);
     [ destruct (c x); [exact Hm | discriminate | congruence]
     | destruct (m (clear_caps gs x) _); [exact Hx | discriminate | congruence] ]).
Qed.

End Fuel.

Lemma single_fuel d x c p :
  (forall y, follows d x y -> c y <> OutOfFuel) -> single d x c p <> OutOfFuel.
Proof.
  intros Hc. unfold single. destruct (read d x) as [[ch y]|] eqn:E; [|discriminate].
  destruct (p ch); [|discriminate]. eapply Hc, follows_read; eauto.
Qed.

(** The fuel of a quantifier never runs out, whatever the expression. *)
Lemma rmatch_fuel r : forall d x c,
  (forall y, follows d x y -> c y <> OutOfFuel) -> rmatch r d x c <> OutOfFuel.
Proof.
  induction r as [|ch| |inv atoms|r1 IH1 r2 IH2|r1 IH1 r2 IH2
                 |r0 IH min max greedy|n r0 IH|r0 IH| |];
    intros d x c Hc; cbn [rmatch].
  - apply Hc, follows_refl.
  - now apply single_fuel.
  - now apply single_fuel.
  - now apply single_fuel.
  - destruct d.
    + apply IH1. intros y Hy. apply IH2. intros z Hz.
      apply Hc. eapply follows_trans; eauto.
    + apply IH2. intros y Hy. apply IH1. intros z Hz.
      apply Hc. eapply follows_trans; eauto.
  - specialize (IH1 d x c Hc). specialize (IH2 d x c Hc).
    destruct (rmatch r1 d x c); auto.
  - apply repeat_matcher_fuel with (d := d); auto.
    unfold remaining; destruct d; lia.
  - apply IH. intros y Hy. apply Hc. now apply follows_caps.
  - assert (H : rmatch r0 Backward x Success <> OutOfFuel)
      by (apply IH; discriminate).
    destruct (rmatch r0 Backward x Success); auto; try discriminate.
    apply Hc. apply follows_caps, follows_refl.
  - destruct (before x); [apply Hc, follows_refl|discriminate].
  - destruct (after x); [apply Hc, follows_refl|discriminate].
Qed.

Section Sound.

Variable m : MState -> Cont -> MResult.
Variable R : MState -> MState -> Prop.
Hypothesis m_sound : forall x c res,
  m x c = Success res -> exists y, R x y /\ c y = Success res.

Lemma repeat_matcher_sound gs greedy fuel :
  forall min max x c res,
    within min max ->
    repeat_matcher m gs greedy fuel min max x c = Success res ->
    exists n y, min <= n /\ within n max /\
      iter n (fun a b => R (clear_caps gs a) b) x y /\ c y = Success res.
Proof.
  induction fuel as [|fuel IH]; intros min max x c res Hwf H; [discriminate|].
  cbn [repeat_matcher] in H.
  remember (fun y : MState =>
              if (min =? 0) && (endIndex y =? endIndex x) then Failure
              else repeat_matcher m gs greedy fuel (pred min)
                     (option_map pred max) y c) as dk eqn:Edk.
  assert (Hzero : c x = Success res -> min = 0 ->
            exists n y, min <= n /\ within n max /\
              iter n (fun a b => R (clear_caps gs a) b) x y /\ c y = Success res).
  { intros Hc Hmin. exists 0, x. repeat split; auto; try lia.
    destruct max; simpl; lia. }
  assert (Hstep : max <> Some 0 ->
            m (clear_caps gs x) dk = Success res ->
            exists n y, min <= n /\ within n max /\
              iter n (fun a b => R (clear_caps gs a) b) x y /\ c y = Success res).
  { intros Hmax Hm. apply m_sound in Hm as (y & HR & Hy). subst dk.
    cbv beta in Hy.
    destruct ((min =? 0) && (endIndex y =? endIndex x)); [discriminate|].
    apply IH in Hy as (n & y' & Hn & Hb & Hit & Hc).
    - exists (S n), y'. repeat split; auto; try lia.
      + destruct max as [[|k]|]; simpl in *; try lia; congruence.
      + simpl. exists y. auto.
    - destruct max as [[|k]|]; simpl in *; try lia. }
  clear Edk.
  destruct max as [[|k]|]; [apply Hzero; auto; simpl in Hwf; lia| |];
    (destruct (min =? 0) eqn:Emin; cbn [negb] in H;
     [ apply Nat.eqb_eq in Emin; destruct greedy; cbn [negb] in H;
       [ destruct (m (clear_caps gs x) dk) eqn:Em; try discriminate;
         [ now apply Hzero | apply Hstep; [discriminate | congruence] ]
       | destruct (c x) eqn:Ec; try discriminate;
         [ apply Hstep; [discriminate | exact H] | now apply Hzero ] ]
     | apply Hstep; [discriminate | exact H] ]).
Qed.

End Sound.

Lemma single_sound d x c p res :
  single d x c p = Success res -> exists y, reads d p x y /\ c y = Success res.
Proof.
  unfold single, reads. destruct (read d x) as [[ch y]|]; [|discriminate].
  destruct (p ch) eqn:E; [|discriminate]. intros H. exists y. eauto.
Qed.

(** Every success of the matcher is a match in the declarative sense,
    handed on to the continuation. *)
Lemma rmatch_sound r : forall d x c res,
  well_formed r ->
  rmatch r d x c = Success res ->
  exists y, Denote r d x y /\ c y = Success res.
Proof.
  induction r as [|ch| |inv atoms|r1 IH1 r2 IH2|r1 IH1 r2 IH2
                 |r0 IH min max greedy|n r0 IH|r0 IH| |];
    intros d x c res Hwf H; cbn [rmatch] in H; cbn [Denote]; cbn [well_formed] in Hwf.
  - exists x; auto.
  - now apply single_sound.
  - now apply single_sound.
  - now apply single_sound.
  - destruct Hwf as [W1 W2]. destruct d.
    + apply IH1 in H as (z & D1 & H); auto. apply IH2 in H as (y & D2 & H); auto.
      exists y; split; auto. exists z; auto.
    + apply IH2 in H as (z & D1 & H); auto. apply IH1 in H as (y & D2 & H); auto.
      exists y; split; auto. exists z; auto.
  - destruct Hwf as [W1 W2].
    destruct (rmatch r1 d x c) as [|y1|] eqn:E1.
    + apply IH2 in H as (y & D & H); auto. exists y; auto.
    + inversion H; subst y1. apply IH1 in E1 as (y & D & E1); auto. exists y; auto.
    + discriminate.
  - destruct Hwf as [W1 W2].
    pose proof (@repeat_matcher_sound _ _
                  (fun x0 c0 res0 => IH d x0 c0 res0 W2)
                  _ _ _ _ _ _ _ _ W1 H) as (n & y & Hn & Hb & Hit & Hc).
    exists y; split; auto. exists n; auto.
  - apply IH in H as (z & D & H); auto. eexists; split; [|exact H].
    exists z; auto.
  - destruct (rmatch r0 Backward x Success) as [|y1|] eqn:E; try discriminate.
    apply IH in E as (z & D & E); auto. inversion E; subst z.
    eexists; split; [|exact H]. exists y1; auto.
  - destruct (before x) eqn:E; [|discriminate]. exists x; auto.
  - destruct (after x) eqn:E; [|discriminate]. exists x; auto.
Qed.

(** *** The input is never changed, only the place in it *)

Definition input (x : MState) : list N := rev (before x) ++ after x.

Lemma read_input d x ch y : read d x = Some (ch, y) -> input y = input x.
Proof.
  unfold read, input. destruct d, x as [b a cs]; simpl.
  - destruct a; intros H; inversion H; subst; simpl. now rewrite <- app_assoc.
  - destruct b; intros H; inversion H; subst; simpl. now rewrite <- app_assoc.
Qed.

Lemma iter_invariant (P : MState -> MState -> Prop) (R : MState -> MState -> Prop) :
  (forall x, P x x) ->
  (forall x y z, P x y -> P y z -> P x z) ->
  (forall x y, R x y -> P x y) ->
  forall n x y, iter n R x y -> P x y.
Proof.
  intros Hrefl Htrans HR. induction n as [|n IH]; simpl; intros x y H.
  - subst; auto.
  - destruct H as (z & Hz & H). eauto.
Qed.

Lemma Denote_input r : forall d x y, Denote r d x y -> input y = input x.
Proof.
  induction r as [|ch| |inv atoms|r1 IH1 r2 IH2|r1 IH1 r2 IH2
                 |r0 IH min max greedy|n r0 IH|r0 IH| |];
    intros d x y H; cbn [Denote] in H.
  - now subst.
  - destruct H as (c & H & _). eapply read_input; eauto.
  - destruct H as (c & H & _). eapply read_input; eauto.
  - destruct H as (c & H & _). eapply read_input; eauto.
  - destruct d; destruct H as (z & H1 & H2).
    + rewrite (IH2 _ _ _ H2). eauto.
    + rewrite (IH1 _ _ _ H2). eauto.
  - destruct H; eauto.
  - destruct H as (k & _ & _ & H).
    revert H. apply iter_invariant with (P := fun a b => input b = input a); auto.
    + intros; congruence.
    + intros a b Hab. now apply IH in Hab.
  - destruct H as (z & H & ->). apply IH in H. exact H.
  - destruct H as (z & _ & ->). reflexivity.
  - destruct H; now subst.
  - destruct H; now subst.
Qed.

(** *** exec: where a match starts and that it is a match *)

Lemma scan_spec r : forall aft bef x z,
  scan r bef aft = Some (x, z) ->
  input x = rev bef ++ aft /\ caps x = [] /\
  length (after x) <= length aft /\
  exists y, z = Success y /\ rmatch r Forward x Success = Success y.
Proof.
  induction aft as [|ch rest IH]; intros bef x z H; simpl in H.
  - destruct (rmatch r Forward (mkState bef [] []) Success) as [|y|] eqn:E;
      try discriminate; inversion H; subst; clear H.
    + repeat split; auto. eauto.
    + exfalso. revert E. apply rmatch_fuel. discriminate.
  - destruct (rmatch r Forward (mkState bef (ch :: rest) []) Success) as [|y|] eqn:E.
    + apply IH in H as (Hin & Hc & Hl & Hy). repeat split; auto.
      * rewrite Hin. simpl. now rewrite <- app_assoc.
      * simpl. lia.
    + inversion H; subst; clear H. repeat split; auto. eauto.
    + exfalso. revert E. apply rmatch_fuel. discriminate.
Qed.

(** *** Reading characters *)

(** Going from [x] to [y] the matcher has read the characters [w]. *)
Definition spans (x y : MState) (w : list N) : Prop :=
  after x = w ++ after y /\ before y = rev w ++ before x.

Lemma spans_nil x : spans x x [].
Proof. split; reflexivity. Qed.

Lemma spans_app x y z w1 w2 : spans x y w1 -> spans y z w2 -> spans x z (w1 ++ w2).
Proof.
  unfold spans. intros [A1 B1] [A2 B2]. split.
  - rewrite A1, A2. now rewrite app_assoc.
  - rewrite B2, B1, rev_app_distr. now rewrite app_assoc.
Qed.

Lemma spans_caps x y w cs :
  spans x y w -> spans x (mkState (before y) (after y) cs) w.
Proof. unfold spans; simpl; auto. Qed.

Lemma reads_forward p x y :
  reads Forward p x y ->
  exists ch, p ch = true /\ spans x y [ch] /\ caps y = caps x.
Proof.
  unfold reads, read, spans. intros (ch & H & Hp). exists ch.
  destruct (after x) as [|c rest] eqn:E; [discriminate|].
  inversion H; subst. simpl. auto.
Qed.

Lemma reads_backward p x y :
  reads Backward p x y ->
  exists ch rest, p ch = true /\ before x = ch :: rest /\ caps y = caps x.
Proof.
  unfold reads, read. intros (ch & H & Hp).
  destruct (before x) as [|c rest] eqn:E; [discriminate|].
  inversion H; subst. simpl. eauto.
Qed.

Lemma cap_clear_nil cs : cap_clear [] cs = cs.
Proof.
  unfold cap_clear. induction cs as [|kv cs IH]; simpl; [reflexivity|].
  f_equal. apply IH.
Qed.

Lemma clear_caps_nil x : clear_caps [] x = x.
Proof. destruct x; unfold clear_caps; simpl. now rewrite cap_clear_nil. Qed.

(** Iterating a one-character term reads a word of that many characters. *)
Lemma iter_reads p n : forall x y,
  iter n (fun a b => reads Forward p (clear_caps [] a) b) x y ->
  exists w, length w = n /\ Forall (fun ch => p ch = true) w /\
    spans x y w /\ caps y = caps x.
Proof.
  induction n as [|n IH]; simpl; intros x y H.
  - subst. exists []. repeat split; auto.
  - destruct H as (z & Hz & H). rewrite clear_caps_nil in Hz.
    apply reads_forward in Hz as (ch & Hp & Hs & Hc).
    apply IH in H as (w & Hl & Hall & Hs' & Hc').
    exists (ch :: w). repeat split.
    + simpl; lia.
    + constructor; auto.
    + apply (spans_app Hs Hs').
    + apply (spans_app Hs Hs').
    + congruence.
Qed.

Lemma char_shape c x y :
  Denote (R_char c) Forward x y -> spans x y [c] /\ caps y = caps x.
Proof.
  cbn [Denote]. intros H. apply reads_forward in H as (ch & Hp & Hs & Hc).
  apply N.eqb_eq in Hp. subst. auto.
Qed.

Lemma literal_shape c x y :
  reads Forward (N.eqb c) x y -> spans x y [c] /\ caps y = caps x.
Proof. apply (@char_shape c x y). Qed.

Lemma same_state x y :
  before y = before x -> after y = after x -> caps y = caps x -> y = x.
Proof. destruct x, y; simpl; intros; subst; reflexivity. Qed.

Lemma spans_progress x y w :
  spans x y w -> w <> [] -> length (after y) < length (after x).
Proof.
  intros [Ha _] Hw. rewrite Ha, length_app.
  destruct w; [congruence|simpl; lia].
Qed.

Section Exec.

Variable r : regex.
Hypothesis r_wf : well_formed r.

(** Every element the loop collects is a match of the expression
    somewhere in the input. *)
Lemma exec_loop_sound fuel : forall bef aft ms m,
  exec_loop fuel r bef aft = Some ms -> In m ms ->
  exists x y, input x = rev bef ++ aft /\ caps x = [] /\
    Denote r Forward x y /\ m = match_of x y.
Proof.
  induction fuel as [|fuel IH]; intros bef aft ms m H Hin; [discriminate|].
  simpl in H.
  destruct (scan r bef aft) as [[x z]|] eqn:E.
  - apply scan_spec in E as (Hx & Hc & _ & y & -> & Hm).
    apply rmatch_sound in Hm as (y' & HD & Hy); auto. inversion Hy; subst y'.
    destruct (exec_loop fuel r (before y) (after y)) as [ms'|] eqn:E'; [|discriminate].
    inversion H; subst ms. destruct Hin as [<-|Hin].
    + exists x, y. auto.
    + destruct (IH _ _ _ _ E' Hin) as (x' & y' & Hx' & Hr).
      exists x', y'. split; auto.
      rewrite Hx'. fold (input y). rewrite (Denote_input _ _ _ _ HD). exact Hx.
  - inversion H; subst. destruct Hin.
Qed.

(** When no match is empty the loop ends. *)
Hypothesis r_progress : forall x y,
  Denote r Forward x y -> length (after y) < length (after x).

Lemma exec_loop_total fuel : forall bef aft,
  length aft < fuel -> exists ms, exec_loop fuel r bef aft = Some ms.
Proof.
  induction fuel as [|fuel IH]; intros bef aft Hf; [lia|].
  simpl. destruct (scan r bef aft) as [[x z]|] eqn:E; [|eauto].
  apply scan_spec in E as (Hx & Hc & Hl & y & -> & Hm).
  apply rmatch_sound in Hm as (y' & HD & Hy); auto. inversion Hy; subst y'.
  apply r_progress in HD.
  destruct (IH (before y) (after y)) as [ms Hms]; [lia|].
  rewrite Hms. eauto.
Qed.

End Exec.

End RegExpFacts.

(** ** The CodeMirror 6 host: lines and tree iteration *)

Module CM6Facts.
Import CM6.

(** Induction over a tree with the hypothesis for all children. *)
Lemma SyntaxNode_induction (P : SyntaxNode -> Prop) :
  (forall name from to children,
     Forall P children -> P (Node name from to children)) ->
  forall n, P n.
Proof.
  intros step. fix IH 1. intros [name from to children].
  apply step. induction children as [|k ks IHks]; constructor.
  - apply IH.
  - apply IHks.
Qed.

Lemma nodes_unfold name from to children :
  nodes (Node name from to children)
  = Node name from to children :: flat_map nodes children.
Proof.
  reflexivity.
Qed.

Lemma lineAt_from_some doc : forall start number pos,
  doc <> [] -> pos <= doc_length_from start doc ->
  exists l, lineAt_from start number doc pos = Some l /\
    number <= l_number l < number + length doc /\
    line_from start number doc (l_number l) = Some l.
Proof.
  induction doc as [|l rest IH]; intros start number pos Hne Hpos; [congruence|].
  cbn [lineAt_from line_from].
  destruct (pos <=? start + length l) eqn:E.
  - eexists; split; [reflexivity|]. cbn [l_number]. rewrite Nat.eqb_refl.
    split; [simpl; lia|reflexivity].
  - apply Nat.leb_gt in E. destruct rest as [|l2 rest].
    + simpl in Hpos. lia.
    + destruct (IH (start + length l + 1) (S number) pos) as (l' & H1 & H2 & H3);
        [discriminate|exact Hpos|].
      exists l'. split; [exact H1|]. split; [simpl in *; lia|].
      destruct (number =? l_number l') eqn:E'; [|exact H3].
      apply Nat.eqb_eq in E'. lia.
Qed.

Lemma line_from_some doc : forall start number k,
  number <= k < number + length doc ->
  exists l, line_from start number doc k = Some l /\ l_number l = k.
Proof.
  induction doc as [|l rest IH]; intros start number k Hk; [simpl in Hk; lia|].
  cbn [line_from]. destruct (number =? k) eqn:E.
  - apply Nat.eqb_eq in E. eexists; split; [reflexivity|]. exact E.
  - apply Nat.eqb_neq in E. apply IH. simpl in Hk. lia.
Qed.

(** A position inside a document is on one of its lines, and that line is
    the one [line] gives for its number. *)
Lemma lineAt_some doc pos :
  doc <> [] -> pos <= doc_length doc ->
  exists l, lineAt doc pos = Some l /\
    1 <= l_number l <= length doc /\ line doc (l_number l) = Some l.
Proof.
  intros Hne Hpos.
  destruct (@lineAt_from_some doc 0 1 pos Hne Hpos) as (l & H1 & H2 & H3).
  exists l. repeat split; auto; lia.
Qed.

Lemma line_some doc k :
  1 <= k <= length doc -> exists l, line doc k = Some l /\ l_number l = k.
Proof. intros Hk. apply line_from_some. lia. Qed.

Lemma line_number doc : forall start number k l,
  line_from start number doc k = Some l ->
  l_number l = k /\ number <= k < number + length doc.
Proof.
  induction doc as [|l0 rest IH]; intros start number k l H; [discriminate|].
  cbn [line_from] in H. destruct (number =? k) eqn:E.
  - apply Nat.eqb_eq in E. inversion H; subst. simpl. lia.
  - apply Nat.eqb_neq in E. apply IH in H. simpl. lia.
Qed.

(** Sorting keeps the ranges. *)
Lemma insert_range_In r x rs : In x (insert_range r rs) <-> x = r \/ In x rs.
Proof.
  induction rs as [|r' rs IH]; simpl.
  - intuition.
  - destruct (r_from r' <? r_from r); simpl; rewrite ?IH; intuition.
Qed.

Lemma sort_ranges_In x rs : In x (sort_ranges rs) <-> In x rs.
Proof.
  induction rs as [|r rs IH]; simpl; [tauto|].
  rewrite insert_range_In, IH. intuition.
Qed.

Section Collect.

(** An [enter] callback that, on the nodes of interest, never throws, never
    prunes and appends the ranges [Q] describes. *)
Variable from to : nat.
Variable enter : Enter (list Range).
Variable good : SyntaxNode -> Prop.
Variable Q : SyntaxNode -> Range -> Prop.

Hypothesis good_visited : forall n,
  good n -> node_from n <= to /\ from <= node_to n.
Hypothesis enter_good : forall n acc,
  good n ->
  exists out, enter n acc = Some (acc ++ out, true) /\
    forall r, In r out <-> Q n r.

Lemma iterate_collect : forall tree acc,
  Forall good (nodes tree) ->
  exists outs, iterate from to enter tree acc = Some (acc ++ outs) /\
    forall r, In r outs <-> exists n, In n (nodes tree) /\ Q n r.
Proof.
  induction tree as [name nfrom nto children IH] using SyntaxNode_induction.
  intros acc Hgood. rewrite nodes_unfold in Hgood.
  inversion Hgood as [|? ? Hn Hkids]; subst.
  destruct (good_visited Hn) as [V1 V2]. simpl in V1, V2.
  cbn [iterate].
  apply Nat.leb_le in V1, V2. rewrite V1, V2. cbn [andb].
  destruct (enter_good acc Hn) as (out & -> & Hout).
  assert (Hsib : forall acc',
    exists outs,
      (fix siblings (ns : list SyntaxNode) (a : list Range) : option (list Range) :=
         match ns with
         | [] => Some a
         | k :: ns' =>
             match iterate from to enter k a with
             | None => None
             | Some a' => siblings ns' a'
             end
         end) children acc' = Some (acc' ++ outs) /\
      forall r, In r outs <-> exists n, In n (flat_map nodes children) /\ Q n r).
  { clear Hgood Hn Hout V1 V2.
    induction children as [|k ks IHks]; intros acc'.
    - exists []. split; [now rewrite app_nil_r|].
      intros r; split; [intros []|intros (n & [] & _)].
    - inversion IH as [|? ? IHk IHks']; subst.
      simpl in Hkids. apply Forall_app in Hkids as [Hk Hks].
      destruct (IHk acc' Hk) as (o1 & -> & Ho1).
      destruct (IHks IHks' Hks (acc' ++ o1)) as (o2 & -> & Ho2).
      exists (o1 ++ o2). split; [now rewrite app_assoc|].
      intros r. rewrite in_app_iff, Ho1, Ho2. simpl.
      split.
      + intros [(n & Hin & Hq)|(n & Hin & Hq)]; exists n;
          rewrite in_app_iff; auto.
      + intros (n & Hin & Hq). rewrite in_app_iff in Hin.
        destruct Hin; [left|right]; eauto. }
  destruct (Hsib (acc ++ out)) as (outs & -> & Houts).
  exists (out ++ outs). split; [now rewrite app_assoc|].
  intros r. rewrite in_app_iff, Hout, Houts, nodes_unfold. simpl. split.
  - intros [Hq|(n & Hin & Hq)]; eauto.
  - intros (n & [<-|Hin] & Hq); eauto.
Qed.

End Collect.

End CM6Facts.

(** ** The inline decorator: what its matches look like *)

Module InlineDecoratorFacts.
Import RegExp RegExpFacts InlineDecorator.

Lemma lazy_any_shape x y :
  Denote lazy_any Forward x y ->
  exists w, w <> [] /\ Forall (fun ch => is_line_terminator ch = false) w /\
    spans x y w /\ caps y = caps x.
Proof.
  unfold lazy_any. cbn [Denote groups]. intros (n & Hn & _ & H).
  apply iter_reads in H as (w & Hl & Hall & Hs & Hc).
  exists w. repeat split; try apply Hs; auto.
  - destruct w; simpl in *; [lia|discriminate].
  - eapply Forall_impl; [|exact Hall]. simpl. intros a Ha.
    now apply negb_true_iff in Ha.
Qed.

Lemma opt_hash_shape x y :
  Denote opt_hash Forward x y ->
  exists w, (w = [] \/ w = [chr "#"]) /\ spans x y w /\ caps y = caps x.
Proof.
  unfold opt_hash. cbn [Denote groups]. intros (n & _ & Hn & H). simpl in Hn.
  apply iter_reads in H as (w & Hl & Hall & Hs & Hc).
  exists w. repeat split; try apply Hs; auto.
  destruct w as [|a [|b w]]; [auto| |simpl in Hl; lia].
  right. inversion Hall as [|? ? Ha ?]; subst. apply N.eqb_eq in Ha. now subst.
Qed.

Lemma tag_chars_shape x y :
  Denote tag_chars Forward x y ->
  exists w, w <> [] /\ Forall (fun ch => class_mem tag_excluded ch = false) w /\
    spans x y w /\ caps y = caps x.
Proof.
  unfold tag_chars. cbn [Denote groups]. intros (n & Hn & _ & H).
  apply iter_reads in H as (w & Hl & Hall & Hs & Hc).
  exists w. repeat split; try apply Hs; auto.
  - destruct w; simpl in Hl; [lia|discriminate].
  - eapply Forall_impl; [|exact Hall]. cbv beta. intros a Ha.
    now apply negb_true_iff in Ha.
Qed.

Lemma boundary_shape x y :
  Denote tag_boundary Forward x y -> y = x /\ boundary (before x).
Proof.
  unfold tag_boundary. cbn [Denote]. intros (z & H & ->).
  destruct H as [[-> Hb]|[H|H]].
  - split; [now destruct x|now left].
  - apply reads_backward in H as (ch & rest & Hp & Hb & Hc). split.
    + apply same_state; auto.
    + right. exists ch, rest. split; auto. left.
      cbn in Hp. now rewrite orb_false_r in Hp.
  - apply reads_backward in H as (ch & rest & Hp & Hb & Hc). split.
    + apply same_state; auto.
    + right. exists ch, rest. split; auto. right.
      cbn [xorb class_mem existsb atom_mem] in Hp.
      rewrite orb_false_r in Hp.
      apply orb_true_iff in Hp as [Hp|Hp]; [|apply orb_true_iff in Hp as [Hp|Hp]];
        apply N.eqb_eq in Hp; auto.
Qed.

(** A match of the highlight alternative: a delimited text, and the first
    group has taken part. *)
Lemma highlight_shape x y :
  Denote highlightRe Forward x y ->
  exists w, (delimited (chr ":") w \/ delimited (chr "=") w) /\
    spans x y w /\ cap_get 1 (caps y) <> None.
Proof.
  unfold highlightRe. cbn [Denote].
  intros (z & [H|H] & ->);
    destruct H as (z1 & H1 & z2 & H2 & z3 & H3 & z4 & H4 & H5);
    apply literal_shape in H1 as [S1 _], H2 as [S2 _], H4 as [S4 _], H5 as [S5 _];
    apply lazy_any_shape in H3 as (body & Hne & Hall & S3 & _);
    pose proof (spans_app S1 (spans_app S2 (spans_app S3 (spans_app S4 S5)))) as Hs;
    (eexists; split; [|split; [apply spans_caps; exact Hs|simpl; discriminate]]).
  - left. exists body. auto.
  - right. exists body. auto.
Qed.

(** A match of the tag alternative: a tag behind a boundary; started
    without captures, the first group has not taken part. *)
Lemma tag_shape x y :
  Denote tagRe Forward x y ->
  exists w, tag_word w /\ spans x y w /\ boundary (before x) /\
    (caps x = [] -> cap_get 1 (caps y) = None).
Proof.
  unfold tagRe. cbn [Denote].
  intros (z0 & H0 & z1 & H1 & z2 & (z3 & H3 & z4 & H4 & H5) & ->).
  apply boundary_shape in H0 as [-> Hb].
  apply literal_shape in H1 as [S1 C1].
  apply opt_hash_shape in H3 as (h1 & Hh1 & S3 & C3).
  apply tag_chars_shape in H4 as (body & Hne & Hall & S4 & C4).
  apply opt_hash_shape in H5 as (h2 & Hh2 & S5 & C5).
  pose proof (spans_app S1 (spans_app S3 (spans_app S4 S5))) as Hs.
  exists ([chr "#"] ++ h1 ++ body ++ h2). repeat split.
  - exists h1, body, h2. auto.
  - apply Hs.
  - apply Hs.
  - exact Hb.
  - intros Hcx. simpl. rewrite C5, C4, C3, C1, Hcx. reflexivity.
Qed.

Lemma regexp_well_formed : well_formed (pattern regexp).
Proof. simpl. repeat split; auto. Qed.

Lemma delimited_nonempty dl w : delimited dl w -> w <> [].
Proof. intros (body & _ & _ & ->). discriminate. Qed.

Lemma tag_word_nonempty w : tag_word w -> w <> [].
Proof. intros (h1 & body & h2 & _ & _ & _ & _ & ->). discriminate. Qed.

(** The two kinds of match of the combined expression. *)
Lemma regexp_shape x y :
  Denote (pattern regexp) Forward x y ->
  exists w, spans x y w /\
    (((delimited (chr ":") w \/ delimited (chr "=") w) /\
        cap_get 1 (caps y) <> None)
     \/ (tag_word w /\ boundary (before x) /\
         (caps x = [] -> cap_get 1 (caps y) = None))).
Proof.
  cbn [pattern regexp Denote]. intros [H|H].
  - apply highlight_shape in H as (w & Hd & Hs & Hc). exists w. auto.
  - apply tag_shape in H as (w & Ht & Hs & Hb & Hc). exists w. auto.
Qed.

Lemma regexp_progress x y :
  Denote (pattern regexp) Forward x y -> length (after y) < length (after x).
Proof.
  intros H. apply regexp_shape in H as (w & Hs & [[[Hd|Hd] _]|[Ht _]]);
    apply (spans_progress Hs);
    eauto using delimited_nonempty, tag_word_nonempty.
Qed.

Lemma utf16_length_app a b : utf16_length (a ++ b) = utf16_length a + utf16_length b.
Proof. induction a as [|c a IH]; simpl; [reflexivity|]. rewrite IH. lia. Qed.

Lemma utf16_length_rev a : utf16_length (rev a) = utf16_length a.
Proof.
  induction a as [|c a IH]; simpl; [reflexivity|].
  rewrite utf16_length_app, IH. simpl. lia.
Qed.

(** The expression never matches the empty string, so the decorator's loop
    over a line ends. *)
Lemma decorate_line_total pos line : exists rs, decorate_line pos line = Some rs.
Proof.
  unfold decorate_line, exec_all.
  destruct (@exec_loop_total (pattern regexp) regexp_well_formed regexp_progress
              (S (length (input_of regexp line))) [] (input_of regexp line))
    as [ms Hms]; [lia|].
  rewrite Hms. simpl. eauto.
Qed.

(** Every range the decorator puts on a line covers a match: characters
    [w] of the line, with [pre] in front of them; a highlight range covers a
    delimited text, a tag range a tag behind a boundary. *)
Lemma decorate_line_sound pos line rs r :
  decorate_line pos line = Some rs -> In r rs ->
  exists pre w post,
    StringToCodePoints line = pre ++ w ++ post /\
    r_from r = pos + utf16_length pre /\
    r_to r = r_from r + utf16_length w /\
    ((r_value r = highlightDeco /\
        (delimited (chr ":") w \/ delimited (chr "=") w))
     \/ (r_value r = tagDeco /\ tag_word w /\ boundary (rev pre))).
Proof.
  unfold decorate_line, exec_all. intros H Hin.
  destruct (exec_loop _ _ _ _) as [ms|] eqn:E; [|discriminate].
  simpl in H. inversion H; subst rs; clear H.
  apply in_map_iff in Hin as (m & <- & Hin).
  destruct (@exec_loop_sound _ regexp_well_formed _ _ _ _ _ E Hin)
    as (x & y & Hx & Hc & HD & ->).
  apply regexp_shape in HD as (w & [Ha Hb] & Hk).
  exists (rev (before x)), w, (after y).
  assert (Hlen : utf16_length (before y) - utf16_length (before x) = utf16_length w).
  { rewrite Hb, utf16_length_app, utf16_length_rev. lia. }
  repeat split.
  - unfold input in Hx. simpl in Hx. cbn [input_of regexp flag_u] in Hx.
    rewrite <- Hx, Ha. reflexivity.
  - simpl. now rewrite utf16_length_rev.
  - simpl. rewrite Hlen. reflexivity.
  - rewrite rev_involutive. unfold addMatch, decoration, match_of; simpl.
    destruct Hk as [[Hd Hcap]|(Ht & Hbd & Hcap)].
    + left. split; auto. destruct (cap_get 1 (caps y)); congruence.
    + right. rewrite (Hcap Hc). auto.
Qed.

End InlineDecoratorFacts.

(** ** The inline decorator: tags and highlights *)

Module InlineDecoratorClaims.
Import RegExp RegExpFacts InlineDecorator InlineDecoratorFacts.

(** The tag shape as the specification has it: every tag range covers a [#]
    behind a boundary, then one or more characters outside the excluded
    class, then possibly a closing [#]. *)
Definition tags_are_plain : Prop :=
  forall pos line rs r,
    decorate_line pos line = Some rs -> In r rs -> r_value r = tagDeco ->
    exists pre w post,
      StringToCodePoints line = pre ++ w ++ post /\
      r_from r = pos + utf16_length pre /\
      r_to r = r_from r + utf16_length w /\
      plain_tag_word w /\ boundary (rev pre).

Lemma utf16_length_zero cs : utf16_length cs = 0 -> cs = [].
Proof.
  destruct cs as [|c cs]; [reflexivity|]. simpl. unfold width.
  destruct (65536 <=? c)%N; lia.
Qed.

Lemma double_hash_not_plain pre w post :
  pre ++ w ++ post = str "##foo" -> utf16_length pre = 0 -> ~ plain_tag_word w.
Proof.
  intros E Hpre (body & h2 & _ & Hne & Hall & ->).
  apply utf16_length_zero in Hpre. subst pre. simpl in E.
  destruct body as [|b body]; [congruence|].
  inversion E; subst. inversion Hall as [|? ? Hb ?]; subst.
  vm_compute in Hb. discriminate.
Qed.

(** C3, as stated, fails: at the start of a line the decorator marks the
    whole of [##foo] as one tag, and its [#] is followed by a second [#],
    not by a character outside the excluded class. *)
Lemma tag_shape_counterexample :
  decorate_line 0 (str "##foo") = Some [mkRange 0 5 tagDeco] /\
  ~ tags_are_plain.
Proof.
  split; [vm_compute; reflexivity|].
  intros H.
  destruct (H 0 (str "##foo") [mkRange 0 5 tagDeco] (mkRange 0 5 tagDeco))
    as (pre & w & post & E & Hf & _ & Hp & _);
    [vm_compute; reflexivity | left; reflexivity | reflexivity |].
  simpl in Hf. vm_compute in E.
  apply (@double_hash_not_plain pre w post); auto.
Qed.

(** C3 (amended): on every line the decorator's loop ends, and every range
    with the tag style covers a tag: a [#] that stands at the start of the
    text or behind white space or one of [(], [{], [[], then possibly a
    second [#], then one or more characters outside the excluded class, then
    possibly a closing [#].  The four texts of the specification give
    the matches it lists. *)
Theorem tag_ranges_cover_tags :
  (forall pos line,
     exists rs, decorate_line pos line = Some rs /\
       forall r, In r rs -> r_value r = tagDeco ->
         exists pre w post,
           StringToCodePoints line = pre ++ w ++ post /\
           r_from r = pos + utf16_length pre /\
           r_to r = r_from r + utf16_length w /\
           tag_word w /\ boundary (rev pre))
  /\ createDeco [str "see #project-a and #sub#"]
       = Some [mkRange 4 14 tagDeco; mkRange 19 24 tagDeco]
  /\ substring (str "see #project-a and #sub#") 4 14 = str "#project-a"
  /\ substring (str "see #project-a and #sub#") 19 24 = str "#sub#"
  /\ createDeco [str "price is 5#3"] = Some []
  /\ createDeco [str "x#tag"] = Some []
  /\ createDeco [str "(#tag)"] = Some [mkRange 1 5 tagDeco]
  /\ substring (str "(#tag)") 1 5 = str "#tag".
Proof.
  split; [|repeat split; vm_compute; reflexivity].
  intros pos line. destruct (decorate_line_total pos line) as [rs Hrs].
  exists rs. split; [exact Hrs|]. intros r Hin Hv.
  destruct (@decorate_line_sound _ _ _ _ Hrs Hin)
    as (pre & w & post & E & Hf & Ht & [[Hh _]|(_ & Hw & Hb)]).
  - rewrite Hv in Hh. discriminate.
  - exists pre, w, post. auto.
Qed.


End InlineDecoratorClaims.

(** ** The code block line highlighter *)

Module CodeBlockClaims.
Import CM6 CM6Facts CodeBlockLineHighlighter.

Lemma push_code_lines_spec doc count : forall lineNo widgets,
  1 <= lineNo -> lineNo + count <= S (length doc) ->
  exists out, push_code_lines doc lineNo count widgets = Some (widgets ++ out) /\
    forall r, In r out <->
      exists k lk, lineNo <= k < lineNo + count /\ line doc k = Some lk /\
        r = range_at codeLineDecorator (l_from lk).
Proof.
  induction count as [|count IH]; intros lineNo widgets H1 H2; cbn [push_code_lines].
  - exists []. split; [now rewrite app_nil_r|].
    intros r; split; [intros []|intros (k & lk & Hk & _); lia].
  - destruct (@line_some doc lineNo) as (l & Hl & Hn); [lia|]. rewrite Hl.
    destruct (IH (S lineNo) (widgets ++ [range_at codeLineDecorator (l_from l)]))
      as (out & -> & Hout); [lia|lia|].
    exists (range_at codeLineDecorator (l_from l) :: out).
    split; [now rewrite <- app_assoc|].
    intros r. simpl. rewrite Hout. split.
    + intros [<-|(k & lk & Hk & Hlk & ->)].
      * exists lineNo, l. repeat split; auto; lia.
      * exists k, lk. repeat split; auto; lia.
    + intros (k & lk & Hk & Hlk & ->).
      destruct (Nat.eq_dec k lineNo) as [->|Hne].
      * left. congruence.
      * right. exists k, lk. repeat split; auto; lia.
Qed.

Lemma enter_spec doc n acc :
  doc <> [] -> fits doc n ->
  exists out, enter doc n acc = Some (acc ++ out, true) /\
    forall r, In r out <-> block_range doc n r.
Proof.
  intros Hne [Hf Ht]. unfold enter, block_range.
  destruct (String.eqb (node_name n) "CodeText") eqn:E; cbn [negb].
  - apply String.eqb_eq in E.
    destruct (lineAt_some Hne Hf) as (ls & -> & Hns & Hls).
    destruct (lineAt_some Hne Ht) as (le & -> & Hne' & Hle).
    rewrite Hls.
    destruct (@push_code_lines_spec doc (S (l_number le) - l_number ls)
                (l_number ls) (acc ++ [range_at codeBlockStart (l_from ls)]))
      as (out & -> & Hout); [lia|lia|].
    rewrite Hle.
    exists (range_at codeBlockStart (l_from ls) :: out
              ++ [range_at codeBlockEnd (l_from le)]).
    split; [now rewrite <- !app_assoc|].
    intros r. cbn [In]. rewrite in_app_iff, Hout. cbn [In]. split.
    + intros H. split; [exact E|]. exists ls, le. repeat split; auto.
      destruct H as [<-|[(k & lk & Hk & Hlk & ->)|[<-|[]]]]; auto.
      right; right. exists k, lk. repeat split; auto; lia.
    + intros (_ & ls' & le' & Hs' & He' & H).
      inversion Hs'; inversion He'; subst ls' le'.
      destruct H as [->|[->|(k & lk & Hk & Hlk & ->)]]; auto.
      right; left. exists k, lk. repeat split; auto; lia.
  - exists []. split; [now rewrite app_nil_r|].
    intros r; split; [intros []|]. intros [Hn _].
    apply String.eqb_neq in E. contradiction.
Qed.

(** The set [render] builds holds exactly the ranges the CodeText nodes of
    the tree account for. *)
Lemma render_spec doc tree :
  doc <> [] -> Forall (fits doc) (nodes tree) ->
  exists set, render doc tree = Some set /\
    forall r, In r set <-> exists n, In n (nodes tree) /\ block_range doc n r.
Proof.
  intros Hne Hfit. unfold render.
  destruct (@iterate_collect 0 (doc_length doc) (enter doc) (fits doc)
              (block_range doc)) with (tree := tree) (acc := @nil Range)
    as (outs & -> & Houts); auto.
  - intros n [Hf Ht]. split; [exact Hf|lia].
  - intros n acc Hn. now apply enter_spec.
  - simpl. eexists; split; [reflexivity|].
    intros r. now rewrite sort_ranges_In.
Qed.

(** C1: for a document and a tree whose nodes lie within it, [render]
    returns a set in which, for every CodeText node, the line of the node's
    start carries the first-line decoration, the line of its end the
    last-line decoration, and every line from the one to the other the
    code-line decoration; the set holds nothing else.  With the code text on
    lines 3 to 5, line 3 has first-line and code-line, line 4 code-line,
    line 5 code-line and last-line, and lines 1, 2, 6, 7, 8 have nothing;
    with the code text on line 5 alone, that line has all three. *)
Theorem code_block_lines_tagged :
  (forall doc tree,
     doc <> [] -> Forall (fits doc) (nodes tree) ->
     exists set, render doc tree = Some set /\
       (forall n, In n (nodes tree) -> node_name n = "CodeText"%string ->
          exists ls le,
            lineAt doc (node_from n) = Some ls /\
            lineAt doc (node_to n) = Some le /\
            In (range_at codeBlockStart (l_from ls)) set /\
            In (range_at codeBlockEnd (l_from le)) set /\
            forall k, l_number ls <= k <= l_number le ->
              exists lk, line doc k = Some lk /\
                In (range_at codeLineDecorator (l_from lk)) set) /\
       (forall r, In r set -> exists n, In n (nodes tree) /\ block_range doc n r))
  /\ (exists set, render example_doc example_tree = Some set /\
        map (line_decorations example_doc set) (seq 1 8)
        = [ []; []; [codeBlockStart; codeLineDecorator]; [codeLineDecorator];
            [codeLineDecorator; codeBlockEnd]; []; []; [] ])
  /\ (exists set, render single_line_doc single_line_tree = Some set /\
        map (line_decorations single_line_doc set) (seq 1 6)
        = [ []; []; []; []; [codeBlockStart; codeLineDecorator; codeBlockEnd]; [] ]).
Proof.
  split; [|split; eexists; split; vm_compute; reflexivity].
  intros doc tree Hne Hfit.
  destruct (@render_spec _ _ Hne Hfit) as (set & Hset & Hin).
  exists set. split; [exact Hset|]. split.
  - intros n Hn Hname.
    assert (Hf : fits doc n) by (rewrite Forall_forall in Hfit; auto).
    destruct Hf as [Hf Ht].
    destruct (lineAt_some Hne Hf) as (ls & Hls & Hns & _).
    destruct (lineAt_some Hne Ht) as (le & Hle & Hne' & _).
    exists ls, le. repeat split; auto.
    + apply Hin. exists n. split; auto. split; auto. exists ls, le. auto.
    + apply Hin. exists n. split; auto. split; auto. exists ls, le. auto.
    + intros k Hk. destruct (@line_some doc k) as (lk & Hlk & _); [lia|].
      exists lk. split; auto. apply Hin. exists n. split; auto. split; auto.
      exists ls, le. repeat split; auto. right; right. exists k, lk. auto.
  - intros r Hr. now apply Hin.
Qed.

(** The general part of [code_block_lines_tagged] at the example document. *)
Lemma code_block_lines_tagged_example :
  exists set, render example_doc example_tree = Some set /\
    (forall n, In n (nodes example_tree) -> node_name n = "CodeText"%string ->
       exists ls le,
         lineAt example_doc (node_from n) = Some ls /\
         lineAt example_doc (node_to n) = Some le /\
         In (range_at codeBlockStart (l_from ls)) set /\
         In (range_at codeBlockEnd (l_from le)) set /\
         forall k, l_number ls <= k <= l_number le ->
           exists lk, line example_doc k = Some lk /\
             In (range_at codeLineDecorator (l_from lk)) set) /\
    (forall r, In r set ->
       exists n, In n (nodes example_tree) /\ block_range example_doc n r).
Proof.
  apply (proj1 code_block_lines_tagged).
  - discriminate.
  - unfold fits. repeat constructor; vm_compute; lia.
Defined.

End CodeBlockClaims.

(** ** The heading line highlighter *)

Module HeadingFacts.
Import CM6 CM6Facts HeadingLineHighlighter.

(** One list is the other with elements left out. *)
Inductive subseq (A : Type) : list A -> list A -> Prop :=
| subseq_nil : subseq [] []
| subseq_skip a l1 l2 : subseq l1 l2 -> subseq l1 (a :: l2)
| subseq_keep a l1 l2 : subseq l1 l2 -> subseq (a :: l1) (a :: l2).

Lemma subseq_refl (A : Type) (l : list A) : subseq l l.
Proof. induction l; [apply subseq_nil|now apply subseq_keep]. Qed.

Lemma subseq_nil_l (A : Type) (l : list A) : subseq [] l.
Proof. induction l; [apply subseq_nil|now apply subseq_skip]. Qed.

Lemma subseq_app (A : Type) (a1 a2 b1 b2 : list A) :
  subseq a1 b1 -> subseq a2 b2 -> subseq (a1 ++ a2) (b1 ++ b2).
Proof.
  induction 1; simpl; intros; auto.
  - apply subseq_skip; auto.
  - apply subseq_keep; auto.
Qed.

Lemma subseq_In (A : Type) (l1 l2 : list A) x : subseq l1 l2 -> In x l1 -> In x l2.
Proof. induction 1; simpl; intuition. Qed.

Lemma subseq_sorted l1 l2 :
  subseq l1 l2 -> StronglySorted le l2 -> StronglySorted le l1.
Proof.
  induction 1; intros Hs; auto.
  - inversion Hs; auto.
  - inversion Hs as [|? ? Hs' Hall]; subst. constructor; auto.
    rewrite Forall_forall in *. intros x Hx. apply Hall.
    eapply subseq_In; eauto.
Qed.

Lemma nondecreasing_sorted l : nondecreasing l = true -> StronglySorted le l.
Proof.
  intros H. apply Sorted_StronglySorted; [intros a b c; lia|].
  induction l as [|a l IH]; [constructor|].
  destruct l as [|b l]; [repeat constructor|].
  simpl in H. apply andb_true_iff in H as [H1 H2].
  constructor; [apply IH; exact H2|].
  constructor. now apply Nat.leb_le.
Qed.

Lemma sorted_nondecreasing l : StronglySorted le l -> nondecreasing l = true.
Proof.
  induction l as [|a [|b l] IH]; intros H; auto.
  inversion H as [|? ? Hs Hall]; subst. simpl.
  apply andb_true_iff. split.
  - apply Nat.leb_le. inversion Hall; auto.
  - now apply IH.
Qed.

(** The nodes the iteration enters: a node, and what is entered below it
    when the callback lets the iteration descend. *)
Fixpoint entered (n : SyntaxNode) : list SyntaxNode :=
  match n with
  | Node _ _ _ children =>
      n :: (if descends n
            then (fix below (ns : list SyntaxNode) : list SyntaxNode :=
                    match ns with
                    | [] => []
                    | k :: ns' => entered k ++ below ns'
                    end) children
            else [])
  end.

Lemma entered_unfold n :
  entered n = n :: (if descends n then flat_map entered (node_children n) else []).
Proof. destruct n. reflexivity. Qed.

Lemma entered_subseq : forall n, subseq (entered n) (nodes n).
Proof.
  induction n as [name from to children IH] using SyntaxNode_induction.
  rewrite entered_unfold, nodes_unfold. apply subseq_keep. cbn [node_children].
  destruct (descends _); [|apply subseq_nil_l].
  induction IH as [|k ks Hk _ IHks]; simpl; [apply subseq_nil|].
  now apply subseq_app.
Qed.

Lemma entered_reached root : forall n, In n (entered root) <-> reached root n.
Proof.
  intros n. split.
  - revert n.
    induction root as [name from to children IH] using SyntaxNode_induction.
    intros n. rewrite entered_unfold. cbn [node_children].
    intros [<-|Hin]; [constructor|].
    destruct (descends _) eqn:Hd; [|destruct Hin].
    apply in_flat_map in Hin as (k & Hk & Hin).
    rewrite Forall_forall in IH. specialize (IH k Hk n Hin).
    clear Hin. induction IH as [|p c Hp IHp Hdp Hc].
    + eapply reached_child; [constructor|exact Hd|exact Hk].
    + eapply reached_child; eauto.
  - induction 1 as [|p c Hp IHp Hd Hc].
    + rewrite entered_unfold. now left.
    + clear Hp. revert IHp.
      induction root as [name from to children IH] using SyntaxNode_induction.
      rewrite !entered_unfold. cbn [node_children].
      intros [<-|Hin].
      * right. cbn [node_children] in Hc. rewrite Hd.
        apply in_flat_map. exists c. split; auto.
        rewrite entered_unfold. now left.
      * right. destruct (descends (Node name from to children)); [|destruct Hin].
        apply in_flat_map in Hin as (k & Hk & Hin).
        apply in_flat_map. exists k. split; auto.
        rewrite Forall_forall in IH. apply IH; auto.
Qed.

(** What the callback appends for a node. *)
Definition emit (n : SyntaxNode) : list Range :=
  match heading_deco n with
  | Some h => [range_at h (node_from n)]
  | None => []
  end.

Lemma name_is_eq n s : name_is n s = true -> node_name n = s.
Proof. apply String.eqb_eq. Qed.

(** The [switch] has a case for exactly the heading nodes, and gives the
    size class of the level. *)
Lemma heading_deco_level n :
  heading_deco n = option_map size_header (heading_level n).
Proof.
  unfold heading_deco, heading_level, name_is. cbn [heading_names lookup_name].
  rewrite !(String.eqb_sym _ (node_name n)).
  repeat match goal with
         | |- context [String.eqb (node_name n) ?s] =>
             destruct (String.eqb (node_name n) s) eqn:E;
             [ apply String.eqb_eq in E; try rewrite E; reflexivity | clear E ]
         end.
  reflexivity.
Qed.

Lemma enter_emit n acc : enter n acc = Some (acc ++ emit n, descends n).
Proof.
  unfold enter, emit, descends.
  destruct (name_is n "Document") eqn:Edoc.
  - apply name_is_eq in Edoc. unfold heading_deco, name_is. rewrite Edoc.
    cbn. now rewrite app_nil_r.
  - cbn [orb].
    destruct (startsWith (node_name n) "ATX") eqn:Eatx;
      destruct (startsWith (node_name n) "Setext") eqn:Eset; cbn [negb andb orb];
      try (destruct (heading_deco n); [reflexivity|now rewrite app_nil_r]).
    assert (H : heading_deco n = None).
    { unfold heading_deco.
      repeat match goal with
             | |- context [name_is n ?s] =>
                 destruct (name_is n s) eqn:E;
                 [ apply name_is_eq in E; rewrite E in Eatx, Eset;
                   cbv in Eatx, Eset; discriminate | clear E ]
             end.
      reflexivity. }
    rewrite H. now rewrite app_nil_r.
Qed.

Lemma iterate_entered to : forall tree acc,
  Forall (fun n => node_from n <= to) (nodes tree) ->
  iterate 0 to enter tree acc = Some (acc ++ flat_map emit (entered tree)).
Proof.
  induction tree as [name from nto children IH] using SyntaxNode_induction.
  intros acc Hfit. rewrite nodes_unfold in Hfit.
  inversion Hfit as [|? ? Hn Hkids]; subst. cbn [node_from] in Hn.
  cbn [iterate]. apply Nat.leb_le in Hn. rewrite Hn. cbn [andb Nat.leb].
  rewrite enter_emit, entered_unfold. cbn [node_children flat_map].
  destruct (descends _).
  - assert (Hsib : forall acc',
      (fix siblings (ns : list SyntaxNode) (a : list Range) : option (list Range) :=
         match ns with
         | [] => Some a
         | k :: ns' =>
             match iterate 0 to enter k a with
             | None => None
             | Some a' => siblings ns' a'
             end
         end) children acc'
      = Some (acc' ++ flat_map emit (flat_map entered children))).
    { clear Hfit Hn. induction children as [|k ks IHks]; intros acc'.
      - simpl. now rewrite app_nil_r.
      - inversion IH as [|? ? IHk IHks']; subst.
        simpl in Hkids. apply Forall_app in Hkids as [Hk Hks].
        rewrite (IHk acc' Hk), (IHks IHks' Hks).
        simpl. now rewrite flat_map_app, app_assoc. }
    rewrite Hsib. now rewrite <- app_assoc.
  - simpl. now rewrite app_nil_r.
Qed.

Lemma emit_subseq l :
  subseq (map r_from (flat_map emit l)) (map node_from l).
Proof.
  induction l as [|n l IH]; simpl; [apply subseq_nil|].
  unfold emit at 1. destruct (heading_deco n); simpl;
    [now apply subseq_keep|now apply subseq_skip].
Qed.

Lemma subseq_map (A B : Type) (f : A -> B) l1 l2 :
  subseq l1 l2 -> subseq (map f l1) (map f l2).
Proof.
  induction 1; simpl;
    [apply subseq_nil|now apply subseq_skip|now apply subseq_keep].
Qed.

Lemma subseq_trans (A : Type) (l1 l2 l3 : list A) :
  subseq l1 l2 -> subseq l2 l3 -> subseq l1 l3.
Proof.
  intros H12 H23. revert l1 H12.
  induction H23; intros l0 H12; auto.
  - apply subseq_skip; auto.
  - inversion H12; subst; [apply subseq_skip|apply subseq_keep]; auto.
Qed.

Lemma sorted_ranges_from rs :
  nondecreasing (map r_from rs) = true -> sorted_ranges rs = true.
Proof.
  induction rs as [|a [|b rs] IH]; auto.
  simpl. intros H. apply andb_true_iff in H as [H1 H2].
  rewrite H1. simpl. now apply IH.
Qed.

(** [render] on a tree in document order: the set is what the entered
    nodes emit, in their order. *)
Lemma render_entered doc tree :
  Forall (fits doc) (nodes tree) -> in_document_order tree = true ->
  render doc tree = Some (flat_map emit (entered tree)).
Proof.
  intros Hfit Hord. unfold render.
  rewrite iterate_entered.
  - cbn [app]. unfold Decoration_set.
    rewrite sorted_ranges_from; [reflexivity|].
    apply sorted_nondecreasing.
    apply subseq_sorted with (l2 := map node_from (nodes tree)).
    + eapply subseq_trans; [apply emit_subseq|].
      apply subseq_map, entered_subseq.
    + now apply nondecreasing_sorted.
  - eapply Forall_impl; [|exact Hfit]. intros n [H _]. exact H.
Qed.

End HeadingFacts.

Module HeadingClaims.
Import CM6 CM6Facts HeadingLineHighlighter HeadingFacts.

(** The line of every heading node of [tree] has the size class of the
    node's level among its decorations. *)
Definition heading_lines_tagged (doc : Text) (tree : SyntaxNode) : Prop :=
  exists set, render doc tree = Some set /\
    forall n level l,
      In n (nodes tree) -> heading_level n = Some level ->
      lineAt doc (node_from n) = Some l ->
      In (size_header level) (line_decorations doc set (l_number l)).

(** The claim as the specification states it, and as the comment above the
    function has it ("all heading lines"). *)
Definition every_heading_line_tagged : Prop :=
  forall doc tree,
    Forall (fits doc) (nodes tree) -> in_document_order tree = true ->
    heading_lines_tagged doc tree.

Lemma emit_In n r :
  In r (emit n) <->
  exists level, heading_level n = Some level /\
    r = range_at (size_header level) (node_from n).
Proof.
  unfold emit. rewrite heading_deco_level.
  destruct (heading_level n) as [level|]; simpl; split.
  - intros [<-|[]]. eauto.
  - intros (l & E & ->). inversion E; auto.
  - intros [].
  - intros (l & E & _). discriminate.
Qed.

(** The set [render] returns: the ranges the reached heading nodes
    account for. *)
Lemma render_reached doc tree :
  Forall (fits doc) (nodes tree) -> in_document_order tree = true ->
  exists set, render doc tree = Some set /\
    forall r, In r set <->
      exists n level, reached tree n /\ heading_level n = Some level /\
        r = range_at (size_header level) (node_from n).
Proof.
  intros Hfit Hord. rewrite (@render_entered _ _ Hfit Hord).
  eexists; split; [reflexivity|]. intros r. split.
  - intros Hr. apply in_flat_map in Hr as (n & Hn & Hr).
    apply emit_In in Hr as (level & Hl & ->).
    exists n, level. split; [now apply entered_reached|auto].
  - intros (n & level & Hr & Hl & ->). apply in_flat_map. exists n. split.
    + now apply entered_reached.
    + apply emit_In. eauto.
Qed.

(** C9 fails on the code in two ways.  The level-1 heading of [> # Title]
    lies inside a block quote: the callback returns [false] at the block
    quote, the heading is never entered and the set stays empty.  The
    level-2 heading of [  ## T] is entered, but its range is put where the
    node starts, behind the two blanks, and a line decoration that is not at
    the start of its line decorates nothing. *)
Lemma untagged_heading_lines_counterexample :
  render quoted_doc quoted_tree = Some []
  /\ ~ heading_lines_tagged quoted_doc quoted_tree
  /\ render indented_doc indented_tree = Some [range_at h2 2]
  /\ ~ heading_lines_tagged indented_doc indented_tree
  /\ ~ every_heading_line_tagged.
Proof.
  assert (Hq : ~ heading_lines_tagged quoted_doc quoted_tree).
  { intros (set & Hset & Hin).
    assert (E : set = []) by (vm_compute in Hset; congruence). subst set.
    apply (Hin (Node "ATXHeading1" 2 9 [Node "HeaderMark" 2 3 []]) 1 (mkLine 0 9 1)).
    - vm_compute. auto 10.
    - reflexivity.
    - reflexivity. }
  assert (Hi : ~ heading_lines_tagged indented_doc indented_tree).
  { intros (set & Hset & Hin).
    assert (E : set = [range_at h2 2])
      by (vm_compute in Hset; injection Hset as <-; reflexivity).
    subst set.
    apply (Hin (Node "ATXHeading2" 2 6 [Node "HeaderMark" 2 4 []]) 2 (mkLine 0 6 1)).
    - vm_compute. auto 10.
    - reflexivity.
    - reflexivity. }
  split; [vm_compute; reflexivity|]. split; [exact Hq|].
  split; [vm_compute; reflexivity|]. split; [exact Hi|].
  intros H. apply Hq, H.
  - unfold fits. repeat constructor; vm_compute; lia.
  - vm_compute; reflexivity.
Qed.

(** C9, what the code does: for a tree in document order whose nodes lie
    within the document, [render] returns a set that holds, for every
    heading node (ATXHeading1-6, SetextHeading1-2) the iteration reaches -
    the nodes above it are the Document node or ATX.../Setext... nodes -
    the size class of its level at the position where the node starts, and
    nothing else; so a line has the size classes of the reached heading
    nodes that start where the line starts, and no other decoration.  A
    heading below a block quote is not reached, and a heading behind blanks
    does not start where its line starts: in both documents line 1 has no
    decoration.  With a level-2 heading on line 1, in either notation, and a
    level-4 heading on line 10, neither indented, the set has exactly two
    ranges: size 2 on line 1 and size 4 on line 10. *)
Theorem headings_tagged_where_nodes_start :
  (forall doc tree,
     Forall (fits doc) (nodes tree) -> in_document_order tree = true ->
     exists set, render doc tree = Some set /\
       (forall r, In r set <->
          exists n level, reached tree n /\ heading_level n = Some level /\
            r = range_at (size_header level) (node_from n)) /\
       (forall k l c, line doc k = Some l ->
          (In c (line_decorations doc set k) <->
           exists n level, reached tree n /\ heading_level n = Some level /\
             node_from n = l_from l /\ c = size_header level)))
  /\ render quoted_doc quoted_tree = Some []
  /\ line_decorations quoted_doc [] 1 = []
  /\ render indented_doc indented_tree = Some [range_at h2 2]
  /\ line_decorations indented_doc [range_at h2 2] 1 = []
  /\ render atx_doc atx_tree = Some [range_at h2 0; range_at h4 21]
  /\ map (line_decorations atx_doc [range_at h2 0; range_at h4 21]) (seq 1 10)
     = [ [h2]; []; []; []; []; []; []; []; []; [h4] ]
  /\ render setext_doc setext_tree = Some [range_at h2 0; range_at h4 21]
  /\ map (line_decorations setext_doc [range_at h2 0; range_at h4 21]) (seq 1 10)
     = [ [h2]; []; []; []; []; []; []; []; []; [h4] ].
Proof.
  split; [|repeat split; vm_compute; reflexivity].
  intros doc tree Hfit Hord.
  destruct (@render_reached _ _ Hfit Hord) as (set & Hset & Hin).
  exists set. split; [exact Hset|]. split; [exact Hin|].
  intros k l c Hline. unfold line_decorations. rewrite Hline, in_map_iff. split.
  - intros (r & Hc & Hr). apply filter_In in Hr as [Hr Hfrom].
    apply Nat.eqb_eq in Hfrom. apply Hin in Hr as (n & level & Hn & Hl & ->).
    exists n, level. cbn in Hc, Hfrom. auto.
  - intros (n & level & Hn & Hl & Hfrom & ->).
    exists (range_at (size_header level) (node_from n)). split; [reflexivity|].
    apply filter_In. split; [apply Hin; eauto|].
    apply Nat.eqb_eq. exact Hfrom.
Qed.

(** The general part of [headings_tagged_where_nodes_start] at the document
    with the two ATX headings. *)
Lemma headings_tagged_where_nodes_start_example :
  exists set, render atx_doc atx_tree = Some set /\
    (forall r, In r set <->
       exists n level, reached atx_tree n /\ heading_level n = Some level /\
         r = range_at (size_header level) (node_from n)) /\
    (forall k l c, line atx_doc k = Some l ->
       (In c (line_decorations atx_doc set k) <->
        exists n level, reached atx_tree n /\ heading_level n = Some level /\
          node_from n = l_from l /\ c = size_header level)).
Proof.
  apply (proj1 headings_tagged_where_nodes_start).
  - unfold fits. repeat constructor; vm_compute; lia.
  - vm_compute; reflexivity.
Defined.

End HeadingClaims.

(** ** The chess renderer: the inner loop, one round, the whole pass *)

Module RenderChessFacts.
Import RegExp RegExpFacts CM5 RenderChess.

Lemma test_open_undefined : test_line fence_open None = false.
Proof. vm_compute. reflexivity. Qed.

(** [test] answers [true] exactly when exec finds a match; the fuel of the
    matcher plays no part. *)
Lemma test_true re s :
  test re s = true ->
  well_formed (pattern re) ->
  exists x y, input x = input_of re s /\ Denote (pattern re) Forward x y.
Proof.
  unfold test. intros H Hwf.
  destruct (scan (pattern re) [] (input_of re s)) as [[x z]|] eqn:E; [|discriminate].
  apply scan_spec in E as (Hin & _ & _ & y & -> & Hm).
  apply rmatch_sound in Hm as (y' & HD & _); auto.
  exists x, y'. auto.
Qed.

(** A line that passes for a closing fence begins with three backquotes. *)
Lemma close_fence_length l :
  test_line fence_close (Some l) = true -> 3 <= length l.
Proof.
  intros H. apply test_true in H as (x & y & Hin & HD).
  - cbn [pattern fence_close input_of flag_u] in *.
    change (lit (str "```"))
      with (R_seq (R_char 96) (R_seq (R_char 96) (R_seq (R_char 96) R_empty))) in HD.
    cbn [Denote] in HD.
    destruct HD as (z0 & [-> Hbol] & z1 & (a1 & H1 & a2 & H2 & a3 & H3 & ->) & _).
    apply reads_forward in H1 as (c1 & _ & [S1 _] & _).
    apply reads_forward in H2 as (c2 & _ & [S2 _] & _).
    apply reads_forward in H3 as (c3 & _ & [S3 _] & _).
    unfold input in Hin. rewrite Hbol in Hin. cbn [rev app] in Hin.
    rewrite <- Hin, S1, S2, S3. cbn. lia.
  - cbn. repeat split; auto.
Qed.

(** What the inner loop has done when it stops at [rr_j]: it has passed
    only lines that are neither the caret's nor a closing fence, has
    collected them, and stands on the caret's line (flag set), on a closing
    fence (end line set) or behind the last line. *)
Lemma read_block_spec cur : forall rest j e0 cb,
  let rr := read_block cur rest j e0 cb in
  j <= rr_j rr <= j + length rest /\
  (forall k, j <= k < rr_j rr -> k <> cur) /\
  (forall k l, j <= k < rr_j rr -> nth_error rest (k - j) = Some l ->
     test_line fence_close (Some l) = false) /\
  rr_codeblock rr = cb ++ firstn (rr_j rr - j) rest /\
  match rr_cursorInBlock rr with
  | true => rr_j rr = cur /\ rr_endLine rr = e0
  | false =>
      (rr_endLine rr = e0 /\ rr_j rr = j + length rest)
      \/ (rr_endLine rr = rr_j rr /\ rr_j rr <> cur /\
          exists l, nth_error rest (rr_j rr - j) = Some l /\
            test_line fence_close (Some l) = true)
  end.
Proof.
  induction rest as [|l rest IH]; intros j e0 cb; cbn [read_block].
  - cbn. rewrite Nat.sub_diag, app_nil_r. repeat split; lia.
  - destruct (cur =? j) eqn:Ecur.
    + apply Nat.eqb_eq in Ecur. cbn.
      rewrite Nat.sub_diag, app_nil_r. repeat split; try lia.
    + apply Nat.eqb_neq in Ecur.
      destruct (test_line fence_close (Some l)) eqn:Eclose.
      * cbn [rr_j rr_cursorInBlock rr_endLine rr_codeblock length].
        rewrite Nat.sub_diag, app_nil_r. repeat split; try lia.
        right. repeat split; auto. exists l. auto.
      * specialize (IH (S j) e0 (cb ++ [l])). cbv zeta in IH.
        destruct IH as (H1 & H2 & H3 & H4 & H5).
        set (rr := read_block cur rest (S j) e0 (cb ++ [l])) in *.
        cbn [length]. repeat split; try lia.
        -- intros k Hk. destruct (Nat.eq_dec k j) as [->|Hne]; auto.
           apply H2. lia.
        -- intros k l' Hk Hn. destruct (Nat.eq_dec k j) as [->|Hne].
           ++ rewrite Nat.sub_diag in Hn. cbn in Hn. congruence.
           ++ apply (H3 k l'); [lia|].
              replace (k - j) with (S (k - S j)) in Hn by lia. exact Hn.
        -- rewrite H4, <- app_assoc. cbn [app]. f_equal.
           replace (rr_j rr - j) with (S (rr_j rr - S j)) by lia. reflexivity.
        -- destruct (rr_cursorInBlock rr); [exact H5|].
           destruct H5 as [[Ha Hb]|(Ha & Hb & l' & Hl & Ht)].
           ++ left. split; auto. lia.
           ++ right. repeat split; auto. exists l'. split; auto.
              replace (rr_j rr - j) with (S (rr_j rr - S j)) by lia. exact Hl.
Qed.

Section Facts.

Variable Board : Type.
Variable new_Chessboard :
  Element Board -> ChessProps -> Element Board * Completion unit.

Local Abbreviation build_element := (build_element new_Chessboard).
Local Abbreviation render_block := (render_block new_Chessboard).
Local Abbreviation loop_body := (loop_body new_Chessboard).
Local Abbreviation scan_from := (scan_from new_Chessboard).
Local Abbreviation markdownRenderChess := (markdownRenderChess new_Chessboard).
Local Abbreviation widget := (widget new_Chessboard).
Local Abbreviation add_widget := (add_widget new_Chessboard).
Local Abbreviation widget_element := (widget_element new_Chessboard).
Local Abbreviation widget_of := (widget_of new_Chessboard).
Local Abbreviation created := (created new_Chessboard).

(** The [catch] clause leaves nothing thrown. *)
Lemma build_element_normal cb : snd (build_element cb) = Normal tt.
Proof.
  unfold RenderChess.build_element.
  destruct (new_Chessboard _ _) as [e [[]|err]]; reflexivity.
Qed.

Lemma clipPos_line (cm : Editor Board) l c :
  l < lineCount cm -> line (clipPos cm (mkPos l c)) = l.
Proof.
  intros H. unfold clipPos. cbn [line ch].
  destruct (lineCount cm <=? l) eqn:E; [apply Nat.leb_le in E; lia|reflexivity].
Qed.

Lemma clipPos_same_lines (cm cm' : Editor Board) p :
  lines cm' = lines cm -> clipPos cm' p = clipPos cm p.
Proof. intros H. unfold clipPos, lineCount. now rewrite H. Qed.

(** With fresh identities, a round that creates a widget adds exactly that
    marker, behind the markers there are. *)
Lemma render_block_spec (cm : Editor Board) s e cb :
  fresh_ids cm -> s < e -> e < lineCount cm ->
  render_block cm s e cb = Normal (add_widget cm s e cb).
Proof.
  intros Hfresh Hse He. unfold RenderChess.render_block.
  pose proof (build_element_normal cb) as Hb.
  unfold RenderChess.add_widget, RenderChess.widget, widget_element.
  destruct (build_element cb) as [elem r]. cbn [fst snd] in *. subst r.
  unfold markText.
  assert (Hlt : pos_lt (clipPos cm (mkPos s 0)) (clipPos cm (mkPos e 3)) = true).
  { unfold pos_lt. rewrite !clipPos_line by lia.
    apply orb_true_iff. left. apply Nat.ltb_lt. lia. }
  rewrite Hlt. unfold set_onclick, with_marks. cbn [marks next_id m_id lines cursor
    viewport modeName].
  f_equal. f_equal. rewrite map_app. cbn [map m_id]. rewrite Nat.eqb_refl.
  cbn [replacedWith m_from m_to clearOnEnter handleMouseEvents].
  f_equal. rewrite <- (map_id (marks cm)) at 2. apply map_ext_in.
  intros m Hm. unfold fresh_ids in Hfresh. rewrite Forall_forall in Hfresh.
  specialize (Hfresh m Hm).
  destruct (m_id m =? next_id cm) eqn:E; [apply Nat.eqb_eq in E; lia|reflexivity].
Qed.

Lemma with_marks_same (cm : Editor Board) :
  with_marks cm (marks cm) (next_id cm) = cm.
Proof. destruct cm; reflexivity. Qed.

Lemma getLine_skipn (cm : Editor Board) i k :
  S i <= k -> nth_error (skipn (S i) (lines cm)) (k - S i) = getLine cm k.
Proof.
  intros H. rewrite nth_error_skipn. unfold getLine. f_equal. lia.
Qed.

Lemma opens_block_line (cm : Editor Board) cur i :
  opens_block cm cur i -> i < lineCount cm.
Proof.
  intros (_ & _ & H). apply nth_error_Some. fold (getLine cm i).
  destruct (getLine cm i); [discriminate|].
  rewrite test_open_undefined in H. discriminate.
Qed.

(** What the inner loop does behind an opening fence on line [i]: it
    passes lines that are neither the caret's nor a closing fence, collects
    them, and stops on the caret's line, behind the last line, or on a
    closing fence. *)
Lemma read_from_spec (cm : Editor Board) cur i :
  opens_block cm cur i ->
  let rr := read_from cm cur i in
  i < rr_j rr <= lineCount cm /\
  (forall k, i < k < rr_j rr -> k <> cur /\ closes cm k = false) /\
  rr_codeblock rr = lines_between cm i (rr_j rr) /\
  ((rr_cursorInBlock rr = true /\ rr_j rr = cur /\ rr_endLine rr = i)
   \/ (rr_cursorInBlock rr = false /\ rr_endLine rr = i /\
       rr_j rr = lineCount cm)
   \/ (rr_cursorInBlock rr = false /\ rr_endLine rr = rr_j rr /\
       rr_j rr <> cur /\ rr_j rr < lineCount cm /\
       closes cm (rr_j rr) = true)).
Proof.
  intros Hopen. unfold read_from.
  pose proof (opens_block_line Hopen) as Hi.
  destruct (@read_block_spec cur (skipn (S i) (lines cm)) (S i) i [])
    as (H1 & H2 & H3 & H4 & H5).
  set (rr := read_block cur (skipn (S i) (lines cm)) (S i) i []) in *.
  assert (Hlen : S i + length (skipn (S i) (lines cm)) = lineCount cm).
  { rewrite length_skipn. unfold lineCount in *. lia. }
  cbv zeta. split; [lia|]. split; [|split; [exact H4|]].
  - intros k Hk. split; [apply H2; lia|]. unfold closes.
    destruct (getLine cm k) as [l'|] eqn:El.
    + apply (H3 k l'); [lia|]. rewrite getLine_skipn by lia. exact El.
    + vm_compute. reflexivity.
  - destruct (rr_cursorInBlock rr).
    + left. split; [reflexivity|apply H5].
    + right. destruct H5 as [[Ha Hb]|(Ha & Hb & l & Hl & Ht)].
      * left. split; [reflexivity|]. split; [exact Ha|lia].
      * right. rewrite getLine_skipn in Hl by lia.
        split; [reflexivity|]. split; [exact Ha|]. split; [exact Hb|]. split.
        -- apply nth_error_Some. unfold getLine in Hl. congruence.
        -- unfold closes. now rewrite Hl.
Qed.

(** The inner loop stops at the first line behind the fence that is the
    caret's or a closing fence. *)
Lemma read_from_first_stop (cm : Editor Board) cur i e :
  opens_block cm cur i -> i < e < lineCount cm ->
  (forall k, i < k < e -> k <> cur /\ closes cm k = false) ->
  e = cur \/ closes cm e = true ->
  rr_j (read_from cm cur i) = e.
Proof.
  intros Hopen He Hbefore Hstop.
  destruct (read_from_spec Hopen) as (Hj & Hpassed & _ & Hcases).
  set (rr := read_from cm cur i) in *.
  destruct (Nat.lt_trichotomy (rr_j rr) e) as [Hlt|[Heq|Hgt]]; [|exact Heq|].
  - exfalso. destruct (Hbefore (rr_j rr)) as [Hc Hcl]; [lia|].
    destruct Hcases as [(_ & Hcur & _)|[(_ & _ & Hend)|(_ & _ & _ & _ & Hclose)]];
      [congruence|lia|congruence].
  - exfalso. destruct (Hpassed e) as [Hc Hcl]; [lia|].
    destruct Hstop; congruence.
Qed.

Lemma block_read (cm : Editor Board) cur s e :
  block cm cur s e ->
  let rr := read_from cm cur s in
  rr_j rr = e /\ rr_cursorInBlock rr = false /\ rr_endLine rr = e /\
  rr_codeblock rr = lines_between cm s e.
Proof.
  intros (Hopen & Hse & Hcur & Hnoclose & Hclose).
  assert (Hj : rr_j (read_from cm cur s) = e).
  { apply read_from_first_stop; auto.
    intros k Hk. split; [apply Hcur; lia|apply Hnoclose; lia]. }
  destruct (read_from_spec Hopen) as (_ & _ & Hcb & Hcases).
  cbv zeta. rewrite Hj in *. split; [reflexivity|].
  assert (Hne : e <> cur) by (apply Hcur; lia).
  destruct Hcases as [(_ & Hc & _)|[(_ & _ & Hend)|(Hf & Hend & _)]];
    [congruence|lia|auto].
Qed.

(** One round: it never throws, moves the counter forward, and either
    leaves the editor as it is or adds the marker of the block that starts
    on its line. *)
Lemma loop_body_spec (cm : Editor Board) cur i :
  fresh_ids cm ->
  exists i', i <= i' /\
    (loop_body cm cur i = (Normal cm, i')
     \/ (block cm cur i i' /\
         findMarks cm (mkPos i 0) (mkPos i' 3) = [] /\
         loop_body cm cur i
         = (Normal (add_widget cm i i' (lines_between cm i i')), i'))).
Proof.
  intros Hfresh. unfold RenderChess.loop_body.
  destruct (String.eqb (modeName cm i) "markdown-zkn") eqn:Emode; cbn [negb];
    [|exists i; auto].
  destruct (cur =? i) eqn:Ecur; [exists i; auto|].
  destruct (test_line fence_open (getLine cm i)) eqn:Eopen; [|exists i; auto].
  assert (Hopen : opens_block cm cur i).
  { split; [now apply String.eqb_eq|]. split; [|exact Eopen].
    apply Nat.eqb_neq in Ecur. exact Ecur. }
  destruct (read_from_spec Hopen) as (Hj & Hpassed & Hcb & Hrr).
  set (rr := read_from cm cur i) in *. cbv zeta.
  exists (rr_j rr). split; [lia|].
  destruct Hrr as [(Hc & _)|[(Hc & He & _)|(Hc & He & Hne & Hlt & Hcl)]]; rewrite Hc.
  - auto.
  - rewrite He, Nat.leb_refl. auto.
  - rewrite He. destruct (rr_j rr <=? i) eqn:Ele; [apply Nat.leb_le in Ele; lia|].
    destruct (findMarks cm (mkPos i 0) (mkPos (rr_j rr) 3)) as [|m ms] eqn:Ef;
      cbn [length Nat.ltb Nat.leb]; [|auto].
    right. split; [|split; [reflexivity|]].
    + split; [exact Hopen|]. split; [lia|]. split; [|split; [|exact Hcl]].
      * intros k Hk. destruct (Nat.eq_dec k (rr_j rr)) as [->|Hk']; auto.
        apply Hpassed. lia.
      * intros k Hk. now apply Hpassed.
    + rewrite Hcb. rewrite render_block_spec; auto; lia.
Qed.

Lemma add_widget_fresh (cm : Editor Board) s e cb :
  fresh_ids cm -> fresh_ids (add_widget cm s e cb).
Proof.
  unfold fresh_ids, RenderChess.add_widget. cbn. intros H.
  apply Forall_app. split.
  - eapply Forall_impl; [|exact H]. cbv beta. intros; lia.
  - repeat constructor.
Qed.

Lemma created_later (cm : Editor Board) cur i j ms n m :
  i <= j ->
  (forall a b, findMarks (with_marks cm ms n) a b = [] -> findMarks cm a b = []) ->
  next_id cm <= n ->
  created (with_marks cm ms n) cur j m -> created cm cur i m.
Proof.
  intros Hij Hfind Hn (s & e & id & Hb & Hs & Hf & Hid & ->).
  exists s, e, id. repeat split; try apply Hb; try apply Hs.
  - cbn in Hs. lia.
  - apply Hfind. exact Hf.
  - cbn in Hid. lia.
Qed.

Lemma findMarks_app_nil (cm : Editor Board) new n a b :
  findMarks (with_marks cm (marks cm ++ new) n) a b = [] -> findMarks cm a b = [].
Proof.
  unfold findMarks. cbn [marks with_marks].
  change (clipPos (with_marks cm (marks cm ++ new) n)) with (clipPos cm).
  rewrite filter_app. intros H. apply app_eq_nil in H. apply H.
Qed.

(** The pass from line [i] on: it ends, nothing is thrown, the document is
    left alone, and the markers it adds, behind those there are, are the
    markers of blocks. *)
Lemma scan_from_spec cur fuel : forall i (cm : Editor Board),
  fresh_ids cm -> snd (viewport cm) - i < fuel ->
  exists new,
    scan_from fuel cm cur i
    = Some (Normal (with_marks cm (marks cm ++ new) (next_id cm + length new))) /\
    Forall (created cm cur i) new.
Proof.
  induction fuel as [|fuel IH]; intros i cm Hfresh Hfuel; [lia|].
  cbn [RenderChess.scan_from].
  destruct (i <? snd (viewport cm)) eqn:Ei; cbn [negb].
  - apply Nat.ltb_lt in Ei.
    destruct (loop_body_spec cur i Hfresh) as (i' & Hi' & [Hb|(Hblock & Hfind & Hb)]);
      rewrite Hb.
    + destruct (IH (S i') cm Hfresh) as (new & Hscan & Hnew); [lia|].
      exists new. split; [exact Hscan|].
      eapply Forall_impl; [|exact Hnew]. intros m (s & e & id & H1 & H2 & H3).
      exists s, e, id. split; [exact H1|]. split; [lia|exact H3].
    + destruct (IH (S i') (add_widget cm i i' (lines_between cm i i')))
        as (new & Hscan & Hnew); [now apply add_widget_fresh|cbn; lia|].
      exists (widget cm i i' (lines_between cm i i') :: new).
      split.
      * rewrite Hscan. unfold RenderChess.add_widget, with_marks.
        cbn [lines cursor viewport modeName marks next_id length].
        rewrite <- app_assoc. cbn [app]. do 3 f_equal. lia.
      * constructor.
        -- exists i, i', (next_id cm). repeat split; auto; try apply Hblock; lia.
        -- eapply Forall_impl; [|exact Hnew]. intros m Hm.
           unfold RenderChess.add_widget in Hm.
           eapply created_later; cycle 3;
             [ exact Hm | lia | intros a b; apply findMarks_app_nil | cbn; lia ].
  - exists []. rewrite app_nil_r, Nat.add_0_r, with_marks_same. auto.
Qed.

(** *** A second pass *)

(** What a round does apart from looking at the markers: the line of the
    closing fence if the round has read a block to its end, and the counter
    when the round ends. *)
Definition plan (cm : Editor Board) (cur i : nat) : option nat * nat :=
  if negb (String.eqb (modeName cm i) "markdown-zkn") then (None, i)
  else if cur =? i then (None, i)
  else if test_line fence_open (getLine cm i) then
    let rr := read_from cm cur i in
    if rr_cursorInBlock rr then (None, rr_j rr)
    else if rr_endLine rr <=? i then (None, rr_j rr)
    else (Some (rr_endLine rr), rr_j rr)
  else (None, i).

Lemma loop_body_plan (cm : Editor Board) cur i :
  loop_body cm cur i =
  match plan cm cur i with
  | (None, i') => (Normal cm, i')
  | (Some e, i') =>
      if 0 <? length (findMarks cm (mkPos i 0) (mkPos e 3)) then (Normal cm, i')
      else (render_block cm i e (rr_codeblock (read_from cm cur i)), i')
  end.
Proof.
  unfold RenderChess.loop_body, plan.
  destruct (negb _); [reflexivity|].
  destruct (cur =? i); [reflexivity|].
  destruct (test_line _ _); [|reflexivity]. cbv zeta.
  destruct (rr_cursorInBlock _); [reflexivity|].
  destruct (_ <=? i); reflexivity.
Qed.

Lemma plan_same_doc (cm cm2 : Editor Board) cur i :
  same_doc cm cm2 -> plan cm2 cur i = plan cm cur i.
Proof.
  intros (Hl & _ & _ & Hm). unfold plan, read_from, getLine. now rewrite Hl, Hm.
Qed.

Lemma plan_block (cm : Editor Board) cur i e i' :
  plan cm cur i = (Some e, i') ->
  block cm cur i e /\ i' = e /\
  rr_codeblock (read_from cm cur i) = lines_between cm i e.
Proof.
  unfold plan.
  destruct (String.eqb (modeName cm i) "markdown-zkn") eqn:Emode; cbn [negb];
    [|discriminate].
  destruct (cur =? i) eqn:Ecur; [discriminate|].
  destruct (test_line fence_open (getLine cm i)) eqn:Eopen; [|discriminate].
  assert (Hopen : opens_block cm cur i).
  { split; [now apply String.eqb_eq|]. split; [|exact Eopen].
    apply Nat.eqb_neq in Ecur. exact Ecur. }
  destruct (read_from_spec Hopen) as (Hj & Hpassed & Hcb & Hrr).
  set (rr := read_from cm cur i) in *. cbv zeta.
  destruct Hrr as [(Hc & _)|[(Hc & He & _)|(Hc & He & Hne & Hlt & Hcl)]]; rewrite Hc;
    [discriminate| |].
  - rewrite He, Nat.leb_refl. discriminate.
  - rewrite He. destruct (rr_j rr <=? i) eqn:Ele; [discriminate|].
    intros H; inversion H; subst. split; [|split; [reflexivity|exact Hcb]].
    split; [exact Hopen|]. split; [lia|]. split; [|split; [|exact Hcl]].
    + intros k Hk. destruct (Nat.eq_dec k (rr_j rr)) as [->|Hk']; auto.
      apply Hpassed. lia.
    + intros k Hk. now apply Hpassed.
Qed.

(** A marker on a range of more than one line is found when [findMarks] is
    asked for exactly that range. *)
Lemma marker_found_self (m : TextMarker Board) :
  line (m_from m) < line (m_to m) -> marker_found (m_from m) (m_to m) m = true.
Proof.
  intros H. unfold marker_found.
  replace (S (line (m_to m)) - line (m_from m))
    with (S (line (m_to m) - line (m_from m))) by lia.
  cbn [seq existsb]. apply orb_true_iff. left.
  unfold span_on. rewrite Nat.leb_refl.
  replace (line (m_from m) <=? line (m_to m)) with true
    by (symmetry; apply Nat.leb_le; lia).
  cbn [andb]. rewrite Nat.eqb_refl.
  replace (line (m_to m) =? line (m_from m)) with false
    by (symmetry; apply Nat.eqb_neq; lia).
  unfold span_found. cbn [fst snd].
  replace (line (m_from m) =? line (m_to m)) with false
    by (symmetry; apply Nat.eqb_neq; lia).
  reflexivity.
Qed.

Lemma findMarks_In (cm : Editor Board) a b m :
  In m (marks cm) -> marker_found (clipPos cm a) (clipPos cm b) m = true ->
  (0 <? length (findMarks cm a b)) = true.
Proof.
  intros Hin Hfound. unfold findMarks.
  assert (H : In m (filter (marker_found (clipPos cm a) (clipPos cm b)) (marks cm)))
    by (apply filter_In; auto).
  destruct (filter _ _); [destruct H|reflexivity].
Qed.

Lemma findMarks_more (cm cm2 : Editor Board) a b :
  lines cm2 = lines cm ->
  (forall m, In m (marks cm) -> In m (marks cm2)) ->
  (0 <? length (findMarks cm a b)) = true ->
  (0 <? length (findMarks cm2 a b)) = true.
Proof.
  intros Hl Hincl H. unfold findMarks in H.
  destruct (filter _ (marks cm)) as [|m ms] eqn:E; [discriminate|].
  assert (Hm : In m (filter (marker_found (clipPos cm a) (clipPos cm b)) (marks cm)))
    by (rewrite E; now left).
  apply filter_In in Hm as [Hin Hfound].
  apply findMarks_In with (m := m); auto.
  now rewrite !(@clipPos_same_lines cm cm2 _ Hl).
Qed.

Lemma widget_found (cm cm2 : Editor Board) s e cb :
  lines cm2 = lines cm -> s < e < lineCount cm ->
  In (widget cm s e cb) (marks cm2) ->
  (0 <? length (findMarks cm2 (mkPos s 0) (mkPos e 3))) = true.
Proof.
  intros Hl Hse Hin. apply findMarks_In with (m := widget cm s e cb); auto.
  rewrite !(@clipPos_same_lines cm cm2 _ Hl).
  apply (marker_found_self (widget cm s e cb)).
  cbn [RenderChess.widget m_from m_to]. rewrite !clipPos_line; lia.
Qed.

(** Run on an editor that shows the same document and has at least the
    markers a first pass left, the pass changes nothing. *)
Lemma scan_from_again cur fuel : forall i (cm cm' cm2 : Editor Board),
  fresh_ids cm -> snd (viewport cm) - i < fuel ->
  scan_from fuel cm cur i = Some (Normal cm') ->
  same_doc cm cm2 ->
  (forall m, In m (marks cm') -> In m (marks cm2)) ->
  scan_from fuel cm2 cur i = Some (Normal cm2).
Proof.
  induction fuel as [|fuel IH]; intros i cm cm' cm2 Hfresh Hfuel Hscan Hdoc Hincl;
    [lia|].
  pose proof Hdoc as (Hl & _ & Hv & _).
  cbn [RenderChess.scan_from] in *. rewrite Hv.
  destruct (i <? snd (viewport cm)) eqn:Ei; cbn [negb] in *; [|reflexivity].
  apply Nat.ltb_lt in Ei.
  rewrite loop_body_plan in *. rewrite (plan_same_doc _ _ Hdoc).
  destruct (plan cm cur i) as [[e|] i'] eqn:Eplan.
  - apply plan_block in Eplan as (Hblock & -> & Hcb).
    pose proof Hblock as (_ & Hse & _).
    assert (Hcont : forall cm1,
              fresh_ids cm1 -> same_doc cm1 cm2 -> viewport cm1 = viewport cm ->
              scan_from fuel cm1 cur (S e) = Some (Normal cm') ->
              scan_from fuel cm2 cur (S e) = Some (Normal cm2)).
    { intros cm1 F1 D1 V1 S1. apply (IH (S e) cm1 cm' cm2); auto.
      rewrite V1. lia. }
    destruct (0 <? length (findMarks cm (mkPos i 0) (mkPos e 3))) eqn:Ef.
    + assert (Hsub : forall m, In m (marks cm) -> In m (marks cm2)).
      { intros m Hm. apply Hincl.
        destruct (@scan_from_spec cur fuel (S e) cm Hfresh) as (new & Hs & _); [lia|].
        rewrite Hs in Hscan. inversion Hscan; subst cm'. cbn. apply in_or_app. auto. }
      rewrite (@findMarks_more cm cm2 _ _ Hl Hsub Ef).
      apply (Hcont cm); auto.
    + rewrite Hcb, render_block_spec in Hscan by (auto; lia).
      destruct (@scan_from_spec cur fuel (S e) (add_widget cm i e (lines_between cm i e)))
        as (new & Hs & _); [now apply add_widget_fresh|cbn; lia|].
      assert (Hin : In (widget cm i e (lines_between cm i e)) (marks cm2)).
      { apply Hincl. rewrite Hs in Hscan. inversion Hscan; subst cm'.
        cbn. apply in_or_app. left. apply in_or_app. right. now left. }
      rewrite (@widget_found cm cm2 i e (lines_between cm i e) Hl Hse Hin).
      apply (Hcont (add_widget cm i e (lines_between cm i e))); auto.
      now apply add_widget_fresh.
  - apply (IH (S i') cm cm' cm2); auto.
    destruct (loop_body_spec cur i Hfresh) as (i'' & Hi'' & Hb).
    rewrite loop_body_plan, Eplan in Hb.
    assert (i' = i'') by (destruct Hb as [Hb|(_ & _ & Hb)]; congruence).
    lia.
Qed.

(** *** What the markers of a pass look like *)

Lemma clipPos_start (cm : Editor Board) l :
  l < lineCount cm -> clipPos cm (mkPos l 0) = mkPos l 0.
Proof.
  intros H. unfold clipPos. cbn [line ch].
  destruct (lineCount cm <=? l) eqn:E; [apply Nat.leb_le in E; lia|reflexivity].
Qed.

(** The end of a block, three characters into the closing fence, is a
    position of the document. *)
Lemma clipPos_end (cm : Editor Board) cur s e :
  block cm cur s e -> clipPos cm (mkPos e 3) = mkPos e 3.
Proof.
  intros (_ & Hse & _ & _ & Hclose). unfold clipPos. cbn [line ch].
  destruct (lineCount cm <=? e) eqn:E; [apply Nat.leb_le in E; lia|].
  f_equal. apply Nat.min_l. unfold closes, getLine in Hclose.
  destruct (nth_error (lines cm) e) as [l|] eqn:El.
  - rewrite (nth_error_nth _ _ _ El). now apply close_fence_length.
  - apply nth_error_None in El. unfold lineCount in Hse. lia.
Qed.

Lemma created_shape (cm : Editor Board) cur i m :
  created cm cur i m ->
  exists s e,
    block cm cur s e /\ i <= s < snd (viewport cm) /\
    m_from m = mkPos s 0 /\ m_to m = mkPos e 3 /\
    findMarks cm (mkPos s 0) (mkPos e 3) = [] /\
    next_id cm <= m_id m /\
    clearOnEnter m = true /\ handleMouseEvents m = true /\
    replacedWith m = widget_element (lines_between cm s e) (m_id m).
Proof.
  intros (s & e & id & Hb & Hs & Hf & Hid & ->).
  pose proof Hb as (_ & Hse & _).
  exists s, e. cbn [RenderChess.widget_of m_from m_to m_id clearOnEnter
    handleMouseEvents replacedWith].
  rewrite clipPos_start by lia. rewrite (clipPos_end Hb).
  split; [exact Hb|]. split; [exact Hs|]. repeat split; auto.
Qed.

(** The whole command: it ends, throws nothing, leaves the document alone
    and adds, behind the markers there are, markers of blocks. *)
Lemma markdownRenderChess_spec (cm : Editor Board) :
  fresh_ids cm ->
  exists new,
    markdownRenderChess cm
    = Some (Normal (with_marks cm (marks cm ++ new) (next_id cm + length new))) /\
    Forall (created cm (line (cursor cm)) (fst (viewport cm))) new.
Proof.
  intros Hfresh. unfold RenderChess.markdownRenderChess.
  apply scan_from_spec; [exact Hfresh|lia].
Qed.

End Facts.

End RenderChessFacts.

(** ** The chess renderer *)

Module RenderChessClaims.
Import RegExp CM5 RenderChess RenderChessFacts.

Section Claims.

Variable Board : Type.
Variable new_Chessboard :
  Element Board -> ChessProps -> Element Board * Completion unit.

Local Abbreviation loop_body := (loop_body new_Chessboard).
Local Abbreviation markdownRenderChess := (markdownRenderChess new_Chessboard).
Local Abbreviation add_widget := (add_widget new_Chessboard).
Local Abbreviation widget := (widget new_Chessboard).
Local Abbreviation created := (created new_Chessboard).

(** A round on a line in another mode does nothing and leaves the counter
    where it is. *)
Lemma other_mode_round (cm : Editor Board) cur i :
  modeName cm i <> "markdown-zkn"%string -> loop_body cm cur i = (Normal cm, i).
Proof.
  intros H. unfold RenderChess.loop_body.
  apply String.eqb_neq in H. now rewrite H.
Qed.

Lemma other_mode_scan cur fuel : forall i (cm : Editor Board),
  (forall k, modeName cm k <> "markdown-zkn"%string) ->
  snd (viewport cm) - i < fuel ->
  scan_from new_Chessboard fuel cm cur i = Some (Normal cm).
Proof.
  induction fuel as [|fuel IH]; intros i cm Hmode Hfuel; [lia|].
  cbn [scan_from]. destruct (i <? snd (viewport cm)) eqn:Ei; cbn [negb]; [|reflexivity].
  apply Nat.ltb_lt in Ei. rewrite other_mode_round by auto.
  apply IH; auto. lia.
Qed.

(** A round with the caret on its line does nothing. *)
Lemma caret_line_round (cm : Editor Board) i : loop_body cm i i = (Normal cm, i).
Proof.
  unfold RenderChess.loop_body. destruct (negb _); [reflexivity|].
  now rewrite Nat.eqb_refl.
Qed.

Lemma opens_block_round (cm : Editor Board) cur i :
  opens_block cm cur i ->
  loop_body cm cur i =
  let rr := read_from cm cur i in
  if rr_cursorInBlock rr then (Normal cm, rr_j rr)
  else if rr_endLine rr <=? i then (Normal cm, rr_j rr)
  else if 0 <? length (findMarks cm (mkPos i 0) (mkPos (rr_endLine rr) 3))
  then (Normal cm, rr_j rr)
  else (render_block new_Chessboard cm i (rr_endLine rr) (rr_codeblock rr), rr_j rr).
Proof.
  intros (Hmode & Hcur & Hopen). unfold RenderChess.loop_body.
  apply String.eqb_eq in Hmode. rewrite Hmode. cbn [negb].
  apply Nat.eqb_neq in Hcur. rewrite Hcur, Hopen. reflexivity.
Qed.

(** A round that meets the caret before a closing fence drops the block
    and leaves the counter on the caret's line. *)
Lemma caret_inside_round (cm : Editor Board) cur i :
  opens_block cm cur i -> i < cur < lineCount cm ->
  (forall k, i < k < cur -> closes cm k = false) ->
  loop_body cm cur i = (Normal cm, cur).
Proof.
  intros Hopen Hcur Hnoclose.
  assert (Hj : rr_j (read_from cm cur i) = cur).
  { apply read_from_first_stop; auto.
    intros k Hk. split; [lia|apply Hnoclose; lia]. }
  rewrite opens_block_round by exact Hopen. cbv zeta.
  destruct (read_from_spec Hopen) as (_ & _ & _ & Hcases).
  rewrite Hj in *.
  destruct Hcases as [(Hc & _)|[(_ & _ & Hend)|(_ & _ & Hne & _)]];
    [now rewrite Hc|lia|congruence].
Qed.

(** A round on a block creates its widget if no marker is found in its
    range, and nothing if one is. *)
Lemma block_round (cm : Editor Board) cur i e :
  fresh_ids cm -> block cm cur i e ->
  loop_body cm cur i =
  if 0 <? length (findMarks cm (mkPos i 0) (mkPos e 3)) then (Normal cm, e)
  else (Normal (add_widget cm i e (lines_between cm i e)), e).
Proof.
  intros Hfresh Hblock. pose proof Hblock as (Hopen & Hse & _).
  destruct (block_read Hblock) as (Hj & Hc & He & Hcb).
  rewrite opens_block_round by exact Hopen. cbv zeta.
  rewrite Hj, Hc, He, Hcb.
  replace (e <=? i) with false by (symmetry; apply Nat.leb_gt; lia).
  destruct (0 <? _); [reflexivity|].
  rewrite render_block_spec; auto; lia.
Qed.

(** A round that finds the end line not behind the start line, or a marker
    in the range, does nothing. *)
Lemma failed_check_round (cm : Editor Board) cur i :
  opens_block cm cur i ->
  rr_cursorInBlock (read_from cm cur i) = false ->
  rr_endLine (read_from cm cur i) <= i
  \/ findMarks cm (mkPos i 0) (mkPos (rr_endLine (read_from cm cur i)) 3) <> [] ->
  loop_body cm cur i = (Normal cm, rr_j (read_from cm cur i)).
Proof.
  intros Hopen Hc Hfail. rewrite opens_block_round by exact Hopen. cbv zeta.
  rewrite Hc. destruct (rr_endLine _ <=? i) eqn:Ele; [reflexivity|].
  apply Nat.leb_gt in Ele. destruct Hfail as [Hle|Hmarks]; [lia|].
  destruct (findMarks cm _ _); [congruence|reflexivity].
Qed.

(** A fence that is never closed gives no widget. *)
Lemma unclosed_round (cm : Editor Board) cur i :
  opens_block cm cur i -> (forall k, i < k -> closes cm k = false) ->
  fst (loop_body cm cur i) = Normal cm.
Proof.
  intros Hopen Hnoclose. rewrite opens_block_round by exact Hopen. cbv zeta.
  destruct (read_from_spec Hopen) as (Hj & _ & _ & Hcases).
  destruct Hcases as [(Hc & _)|[(Hc & He & _)|(_ & _ & _ & _ & Hcl)]].
  - now rewrite Hc.
  - rewrite Hc, He, Nat.leb_refl. reflexivity.
  - rewrite Hnoclose in Hcl by lia. discriminate.
Qed.

(** The element when the constructor throws: the error class is added
    and the message replaces the content. *)
Lemma build_element_throw cb e' err :
  new_Chessboard (classList_add (createElement Board "div") "chessboard")
    (mkProps (join newline cb) sprite) = (e', Throw err) ->
  build_element new_Chessboard cb
  = (set_innerText (classList_add e' "error") (error_text err), Normal tt).
Proof. intros H. unfold build_element. now rewrite H. Qed.

(** The element when the constructor returns. *)
Lemma build_element_return cb e' :
  new_Chessboard (classList_add (createElement Board "div") "chessboard")
    (mkProps (join newline cb) sprite) = (e', Normal tt) ->
  build_element new_Chessboard cb = (e', Normal tt).
Proof. intros H. unfold build_element. now rewrite H. Qed.

(** A second run of the command changes nothing. *)
Lemma second_pass (cm cm' : Editor Board) :
  fresh_ids cm ->
  markdownRenderChess cm = Some (Normal cm') ->
  markdownRenderChess cm' = Some (Normal cm').
Proof.
  intros Hfresh Hrun.
  destruct (markdownRenderChess_spec new_Chessboard Hfresh) as (new & Hspec & _).
  assert (E : cm' = with_marks cm (marks cm ++ new) (next_id cm + length new))
    by congruence.
  unfold RenderChess.markdownRenderChess in *.
  replace (line (cursor cm')) with (line (cursor cm)) by (rewrite E; reflexivity).
  replace (viewport cm') with (viewport cm) by (rewrite E; reflexivity).
  apply (@scan_from_again Board new_Chessboard _ _ _ cm cm' cm');
    [exact Hfresh | lia | exact Hrun | rewrite E; repeat split | auto].
Qed.

(** The loop after a round that ended normally: it goes on behind the
    counter the round left. *)
Lemma scan_round (cm cm' : Editor Board) cur i i' fuel :
  i < snd (viewport cm) ->
  loop_body cm cur i = (Normal cm', i') ->
  scan_from new_Chessboard (S fuel) cm cur i
  = scan_from new_Chessboard fuel cm' cur (S i').
Proof.
  intros Hi Hround. cbn [scan_from].
  apply Nat.ltb_lt in Hi. rewrite Hi, Hround. reflexivity.
Qed.

End Claims.

(** C10: on a visible line whose mode is not markdown-zkn the loop does
    nothing and goes on with the next line; in a document with no line in
    that mode the command leaves the editor as it is; and every marker the
    command adds starts on a line in that mode.  The example document in
    the mode gfm gets no widget. *)
Theorem other_modes_are_skipped :
  (forall Board ctor (cm : Editor Board) cur i fuel,
     i < snd (viewport cm) ->
     modeName cm i <> "markdown-zkn"%string ->
     scan_from ctor (S fuel) cm cur i = scan_from ctor fuel cm cur (S i))
  /\ (forall Board ctor (cm : Editor Board),
        (forall k, modeName cm k <> "markdown-zkn"%string) ->
        markdownRenderChess ctor cm = Some (Normal cm))
  /\ (forall Board ctor (cm : Editor Board),
        fresh_ids cm ->
        exists new,
          markdownRenderChess ctor cm
          = Some (Normal (with_marks cm (marks cm ++ new) (next_id cm + length new))) /\
          forall m, In m new ->
            modeName cm (line (m_from m)) = "markdown-zkn"%string)
  /\ markdownRenderChess example_Chessboard other_mode_editor
     = Some (Normal other_mode_editor).
Proof.
  split; [|split; [|split]].
  - intros Board ctor cm cur i fuel Hi Hmode.
    apply scan_round; auto. now apply other_mode_round.
  - intros Board ctor cm Hmode. unfold markdownRenderChess.
    apply other_mode_scan; auto.
  - intros Board ctor cm Hfresh.
    destruct (markdownRenderChess_spec ctor Hfresh) as (new & Hrun & Hnew).
    exists new. split; [exact Hrun|]. intros m Hm.
    rewrite Forall_forall in Hnew.
    destruct (created_shape (Hnew m Hm)) as (s & e & Hb & _ & Hfrom & _).
    rewrite Hfrom. cbn [line]. apply Hb.
  - vm_compute. reflexivity.
Qed.

(** C6: on the caret's own line (an opening fence included) the loop does
    nothing and goes on with the next line; when a round starts on an
    opening fence and the caret's line comes before any closing fence, the
    loop creates nothing, drops what it has read and goes on with the line
    behind the caret's; and no marker the command adds has the caret's line
    in its range.  With the block on lines 2 to 6 and the caret on line 4
    the command adds no widget. *)
Theorem caret_in_block_discards :
  (forall Board ctor (cm : Editor Board) i fuel,
     i < snd (viewport cm) ->
     scan_from ctor (S fuel) cm i i = scan_from ctor fuel cm i (S i))
  /\ (forall Board ctor (cm : Editor Board) cur i fuel,
        i < snd (viewport cm) ->
        opens_block cm cur i -> i < cur < lineCount cm ->
        (forall k, i < k < cur -> closes cm k = false) ->
        scan_from ctor (S fuel) cm cur i = scan_from ctor fuel cm cur (S cur))
  /\ (forall Board ctor (cm : Editor Board),
        fresh_ids cm ->
        exists new,
          markdownRenderChess ctor cm
          = Some (Normal (with_marks cm (marks cm ++ new) (next_id cm + length new))) /\
          forall m, In m new ->
            ~ (line (m_from m) <= line (cursor cm) <= line (m_to m)))
  /\ markdownRenderChess example_Chessboard caret_inside_editor
     = Some (Normal caret_inside_editor).
Proof.
  split; [|split; [|split]].
  - intros. apply scan_round; auto. apply caret_line_round.
  - intros. apply scan_round; auto. now apply caret_inside_round.
  - intros Board ctor cm Hfresh.
    destruct (markdownRenderChess_spec ctor Hfresh) as (new & Hrun & Hnew).
    exists new. split; [exact Hrun|]. intros m Hm.
    rewrite Forall_forall in Hnew.
    destruct (created_shape (Hnew m Hm)) as (s & e & Hb & _ & Hfrom & Hto & _).
    rewrite Hfrom, Hto. cbn [line].
    destruct Hb as ((_ & Hcur & _) & _ & Hin & _). intros [H1 H2].
    destruct (Nat.eq_dec (line (cursor cm)) s) as [E|E]; [contradiction|].
    apply (Hin (line (cursor cm))); [lia|reflexivity].
  - vm_compute. reflexivity.
Qed.

(** C8: behind an opening fence, when the caret was not met, a round whose
    end line is not after its start line, or that finds a marker in the
    range, creates nothing and reports nothing, and the loop goes on behind
    the line where the inner loop stopped; so a fence that is never closed
    gives no widget; and every marker the command adds ends on a later line
    than it starts and lies where the editor had no marker.  The example
    with the unclosed fence, and the example whose block already has its
    widget, get nothing. *)
Theorem emit_needs_both_checks :
  (forall Board ctor (cm : Editor Board) cur i fuel,
     i < snd (viewport cm) ->
     opens_block cm cur i ->
     rr_cursorInBlock (read_from cm cur i) = false ->
     rr_endLine (read_from cm cur i) <= i
     \/ findMarks cm (mkPos i 0) (mkPos (rr_endLine (read_from cm cur i)) 3) <> [] ->
     scan_from ctor (S fuel) cm cur i
     = scan_from ctor fuel cm cur (S (rr_j (read_from cm cur i))))
  /\ (forall Board ctor (cm : Editor Board) cur i fuel,
        i < snd (viewport cm) ->
        opens_block cm cur i -> (forall k, i < k -> closes cm k = false) ->
        exists i',
          scan_from ctor (S fuel) cm cur i = scan_from ctor fuel cm cur (S i'))
  /\ (forall Board ctor (cm : Editor Board),
        fresh_ids cm ->
        exists new,
          markdownRenderChess ctor cm
          = Some (Normal (with_marks cm (marks cm ++ new) (next_id cm + length new))) /\
          forall m, In m new ->
            line (m_from m) < line (m_to m) /\
            findMarks cm (m_from m) (m_to m) = [])
  /\ markdownRenderChess example_Chessboard unclosed_editor
     = Some (Normal unclosed_editor)
  /\ markdownRenderChess example_Chessboard block_rendered
     = Some (Normal block_rendered).
Proof.
  split; [|split; [|split; [|split]]].
  - intros. apply scan_round; auto. now apply failed_check_round.
  - intros Board ctor cm cur i fuel Hi Hopen Hnoclose.
    pose proof (unclosed_round ctor Hopen Hnoclose) as Hround.
    destruct (loop_body ctor cm cur i) as [r i'] eqn:E. cbn [fst] in Hround.
    subst r. exists i'. now apply scan_round.
  - intros Board ctor cm Hfresh.
    destruct (markdownRenderChess_spec ctor Hfresh) as (new & Hrun & Hnew).
    exists new. split; [exact Hrun|]. intros m Hm.
    rewrite Forall_forall in Hnew.
    destruct (created_shape (Hnew m Hm)) as (s & e & Hb & _ & Hfrom & Hto & Hf & _).
    rewrite Hfrom, Hto. cbn [line]. split; [apply Hb|exact Hf].
  - vm_compute. reflexivity.
  - vm_compute. reflexivity.
Qed.

(** C7: when the constructor throws, the [catch] clause adds the error
    class to the element and replaces its content by a text: the words
    "Could not render Chessboard", a line feed and the property [str] of
    what was thrown - the word "undefined" when the value has no such
    property, as an [Error] object has none.  On such a block the loop still
    adds exactly one marker, from the start of the opening fence to the end
    of the closing fence, showing that element, and goes on behind the
    closing fence; the command as a whole always ends normally.  With a
    constructor that throws an [Error], two blocks with different bad texts
    get the same error element, which says nothing of either failure; with
    one that throws a value with a [str], the bad block shows that [str] and
    the block behind it its board. *)
Theorem failed_construction_shows_error :
  (forall Board ctor cb (e' : Element Board) err,
     ctor (classList_add (createElement Board "div") "chessboard")
       (mkProps (join newline cb) sprite) = (e', Throw err) ->
     build_element ctor cb
     = (mkElement (tagName e') (classList e' ++ ["error"%string])
          (InnerText Board (error_text err)) (onclick e'),
        Normal tt))
  /\ (forall s, error_text (mkError (Some s))
                = str "Could not render Chessboard" ++ newline ++ s)
  /\ error_text (mkError None)
     = str "Could not render Chessboard" ++ newline ++ str "undefined"
  /\ (forall Board ctor (cm : Editor Board) cur i e (e' : Element Board) err fuel,
        fresh_ids cm -> i < snd (viewport cm) -> block cm cur i e ->
        findMarks cm (mkPos i 0) (mkPos e 3) = [] ->
        ctor (classList_add (createElement Board "div") "chessboard")
          (mkProps (join newline (lines_between cm i e)) sprite) = (e', Throw err) ->
        exists w,
          scan_from ctor (S fuel) cm cur i
          = scan_from ctor fuel
              (with_marks cm (marks cm ++ [w]) (S (next_id cm))) cur (S e) /\
          m_from w = mkPos i 0 /\ m_to w = mkPos e 3 /\
          content (replacedWith w) = InnerText Board (error_text err) /\
          In "error"%string (classList (replacedWith w)))
  /\ (forall Board ctor (cm : Editor Board),
        fresh_ids cm ->
        exists cm', markdownRenderChess ctor cm = Some (Normal cm'))
  /\ markdownRenderChess throwing_Chessboard two_invalid_editor
     = Some (Normal (with_marks two_invalid_editor
                       [undefined_widget 0 1 3; undefined_widget 1 4 6] 2))
  /\ markdownRenderChess example_Chessboard invalid_editor
     = Some (Normal (with_marks invalid_editor [invalid_widget; valid_widget] 2)).
Proof.
  split; [|split; [|split; [|split; [|split; [|split]]]]].
  - intros. now apply build_element_throw.
  - reflexivity.
  - reflexivity.
  - intros Board ctor cm cur i e e' err fuel Hfresh Hi Hblock Hfind Hthrow.
    exists (widget ctor cm i e (lines_between cm i e)).
    pose proof Hblock as (_ & Hse & _).
    split.
    { apply scan_round; auto.
      rewrite (block_round ctor Hfresh Hblock), Hfind. reflexivity. }
    unfold widget, widget_element.
    rewrite (build_element_throw _ _ Hthrow).
    cbn [m_from m_to replacedWith content classList fst set_innerText classList_add].
    rewrite clipPos_start by lia. rewrite (clipPos_end Hblock).
    repeat split. apply in_or_app. right. now left.
  - intros Board ctor cm Hfresh.
    destruct (markdownRenderChess_spec ctor Hfresh) as (new & Hrun & _). eauto.
  - vm_compute. reflexivity.
  - vm_compute. reflexivity.
Qed.

(** C5: a second run of the command, on the editor the first run left, adds
    nothing; on a block in whose range a marker is found the loop creates
    nothing and goes on behind the block.  With the block on lines 2 to 6,
    valid text and the caret on line 0, the first run adds exactly one
    marker, from line 2 to line 6, and the second run none. *)
Theorem second_pass_adds_nothing :
  (forall Board ctor (cm cm' : Editor Board),
     fresh_ids cm ->
     markdownRenderChess ctor cm = Some (Normal cm') ->
     markdownRenderChess ctor cm' = Some (Normal cm'))
  /\ (forall Board ctor (cm : Editor Board) cur i e fuel,
        fresh_ids cm -> i < snd (viewport cm) -> block cm cur i e ->
        findMarks cm (mkPos i 0) (mkPos e 3) <> [] ->
        scan_from ctor (S fuel) cm cur i = scan_from ctor fuel cm cur (S e))
  /\ markdownRenderChess example_Chessboard block_editor = Some (Normal block_rendered)
  /\ marks block_rendered = [block_widget]
  /\ (m_from block_widget, m_to block_widget) = (mkPos 2 0, mkPos 6 3)
  /\ markdownRenderChess example_Chessboard block_rendered
     = Some (Normal block_rendered).
Proof.
  split; [|split; [|repeat split; vm_compute; reflexivity]].
  - intros. now apply second_pass with (cm := cm).
  - intros Board ctor cm cur i e fuel Hfresh Hi Hblock Hfind.
    apply scan_round; auto.
    rewrite (block_round ctor Hfresh Hblock).
    destruct (findMarks cm _ _); [congruence|reflexivity].
Qed.

(** The claim C2 as the specification states it: a widget the command has
    created stays when the caret is moved into its block. *)
Definition caret_never_clears : Prop :=
  forall Board ctor (cm cm' : Editor Board) m p,
    fresh_ids cm ->
    markdownRenderChess ctor cm = Some (Normal cm') ->
    In m (marks cm') -> ~ In m (marks cm) ->
    caret_inside (clipPos cm' p) m = true ->
    In m (marks (setCursor cm' p)).

(** C2, as stated, fails: the command gives [markText] the option
    [clearOnEnter: true], so the widget on lines 2 to 6 is gone once the
    caret is placed on line 4. *)
Lemma caret_clears_widget_counterexample :
  markdownRenderChess example_Chessboard block_editor = Some (Normal block_rendered)
  /\ marks (setCursor block_rendered (mkPos 4 0)) = []
  /\ ~ caret_never_clears.
Proof.
  split; [vm_compute; reflexivity|]. split; [vm_compute; reflexivity|].
  intros H.
  specialize (H jsstring example_Chessboard block_editor block_rendered
                block_widget (mkPos 4 0)).
  assert (Hin : In block_widget (marks (setCursor block_rendered (mkPos 4 0)))).
  { apply H.
    - constructor.
    - vm_compute. reflexivity.
    - now left.
    - intros [].
    - vm_compute. reflexivity. }
  vm_compute in Hin. exact Hin.
Qed.

(** C2 (amended): the command removes no marker; every marker it adds has
    [clearOnEnter] set and shows an element whose click handler clears the
    marker; so such a widget is gone when the caret is placed inside its
    range and when its element is clicked, and stays when the caret is
    placed elsewhere.  In the example the widget on lines 2 to 6 is gone
    with the caret on line 4 or after a click, and stays with the caret on
    line 7. *)
Theorem widgets_clear_on_enter_or_click :
  (forall Board ctor (cm : Editor Board),
     fresh_ids cm ->
     exists new cm',
       markdownRenderChess ctor cm = Some (Normal cm') /\
       marks cm' = marks cm ++ new /\
       forall m, In m new ->
         clearOnEnter m = true /\
         onclick (replacedWith m) = Some (ClearMarker (m_id m)) /\
         (forall p, caret_inside (clipPos cm' p) m = true ->
            ~ In m (marks (setCursor cm' p))) /\
         (forall p, caret_inside (clipPos cm' p) m = false ->
            In m (marks (setCursor cm' p))) /\
         ~ In m (marks (click cm' m)))
  /\ marks (setCursor block_rendered (mkPos 4 0)) = []
  /\ marks (click block_rendered block_widget) = []
  /\ marks (setCursor block_rendered (mkPos 7 0)) = [block_widget].
Proof.
  split; [|repeat split; vm_compute; reflexivity].
  intros Board ctor cm Hfresh.
  destruct (markdownRenderChess_spec ctor Hfresh) as (new & Hrun & Hnew).
  exists new, (with_marks cm (marks cm ++ new) (next_id cm + length new)).
  split; [exact Hrun|]. split; [reflexivity|]. intros m Hm.
  rewrite Forall_forall in Hnew.
  destruct (created_shape (Hnew m Hm))
    as (s & e & _ & _ & _ & _ & _ & _ & Hclear & _ & Helem).
  assert (Hclick : onclick (replacedWith m) = Some (ClearMarker (m_id m)))
    by (rewrite Helem; reflexivity).
  split; [exact Hclear|]. split; [exact Hclick|]. split; [|split].
  - intros p Hp Hin. unfold setCursor in Hin. cbn [marks] in Hin.
    apply filter_In in Hin as [_ Hkeep]. rewrite Hclear, Hp in Hkeep. discriminate.
  - intros p Hp. unfold setCursor. cbn [marks]. apply filter_In. split.
    + cbn. apply in_or_app. now right.
    + rewrite Hp, andb_false_r. reflexivity.
  - unfold click. rewrite Hclick. unfold run_handler, clear_marker. cbn [marks].
    intros Hin. apply filter_In in Hin as [_ Hkeep].
    rewrite Nat.eqb_refl in Hkeep. discriminate.
Qed.

(** *** The statements above at the example editors *)

Lemma other_modes_are_skipped_example :
  markdownRenderChess example_Chessboard other_mode_editor
  = Some (Normal other_mode_editor).
Proof.
  apply (proj1 (proj2 other_modes_are_skipped)).
  intros k. discriminate.
Defined.

Lemma caret_in_block_discards_example :
  scan_from example_Chessboard 7 caret_inside_editor 4 2
  = scan_from example_Chessboard 6 caret_inside_editor 4 5.
Proof.
  apply (proj1 (proj2 caret_in_block_discards)).
  - vm_compute. lia.
  - split; [reflexivity|split; [discriminate|vm_compute; reflexivity]].
  - vm_compute. lia.
  - intros k Hk. assert (k = 3) as -> by lia. vm_compute. reflexivity.
Defined.

Lemma emit_needs_both_checks_example :
  scan_from example_Chessboard 4 unclosed_editor 0 1
  = scan_from example_Chessboard 3 unclosed_editor 0
      (S (rr_j (read_from unclosed_editor 0 1))).
Proof.
  apply (proj1 emit_needs_both_checks).
  - vm_compute. lia.
  - split; [reflexivity|split; [discriminate|vm_compute; reflexivity]].
  - vm_compute. reflexivity.
  - left. vm_compute. lia.
Defined.

Lemma failed_construction_shows_error_example :
  exists w,
    scan_from throwing_Chessboard 7 two_invalid_editor 0 1
    = scan_from throwing_Chessboard 6
        (with_marks two_invalid_editor (marks two_invalid_editor ++ [w])
           (S (next_id two_invalid_editor))) 0 4 /\
    m_from w = mkPos 1 0 /\ m_to w = mkPos 3 3 /\
    content (replacedWith w) = InnerText jsstring (error_text (mkError None)) /\
    In "error"%string (classList (replacedWith w)).
Proof.
  apply (proj1 (proj2 (proj2 (proj2 failed_construction_shows_error))))
    with (e' := classList_add (createElement jsstring "div") "chessboard").
  - constructor.
  - vm_compute. lia.
  - split; [split; [reflexivity|split; [discriminate|vm_compute; reflexivity]]|].
    split; [vm_compute; lia|]. split; [intros k Hk; lia|].
    split; [|vm_compute; reflexivity].
    intros k Hk. assert (k = 2) as -> by lia. vm_compute. reflexivity.
  - vm_compute. reflexivity.
  - vm_compute. reflexivity.
Defined.

Lemma second_pass_adds_nothing_example :
  markdownRenderChess example_Chessboard block_rendered
  = Some (Normal block_rendered).
Proof.
  apply (proj1 second_pass_adds_nothing) with (cm := block_editor).
  - constructor.
  - vm_compute. reflexivity.
Defined.

Lemma widgets_clear_on_enter_or_click_example :
  exists new cm',
    markdownRenderChess example_Chessboard block_editor = Some (Normal cm') /\
    marks cm' = marks block_editor ++ new /\
    forall m, In m new ->
      clearOnEnter m = true /\
      onclick (replacedWith m) = Some (ClearMarker (m_id m)) /\
      (forall p, caret_inside (clipPos cm' p) m = true ->
         ~ In m (marks (setCursor cm' p))) /\
      (forall p, caret_inside (clipPos cm' p) m = false ->
         In m (marks (setCursor cm' p))) /\
      ~ In m (marks (click cm' m)).
Proof.
  apply (proj1 widgets_clear_on_enter_or_click).
  constructor.
Defined.

End RenderChessClaims.

(** * Further properties *)

(** ** The two fence tests of the chess renderer *)

Module FenceFacts.
Import RegExp RegExpFacts CM5 RenderChess RenderChessFacts.

Lemma lit_shape s : forall x y,
  Denote (lit s) Forward x y -> spans x y s /\ caps y = caps x.
Proof.
  induction s as [|c s IH]; intros x y H.
  - cbn in H. subst. split; [apply spans_nil|reflexivity].
  - unfold lit in H. cbn [fold_right] in H. fold (lit s) in H. cbn [Denote] in H.
    destruct H as (z & H1 & H2). apply literal_shape in H1 as [S1 C1].
    apply IH in H2 as [S2 C2]. split; [apply (spans_app S1 S2)|congruence].
Qed.

Lemma lit_well_formed s : well_formed (lit s).
Proof. induction s; cbn; auto. Qed.

(** The greedy [\s*] in front of [$] reads white space to the end of the
    line. *)
Lemma star_space_eol ws : forall b cs fuel,
  Forall (fun c => is_whitespace c = true) ws -> length ws < fuel ->
  repeat_matcher (rmatch (R_class false [CA_space]) Forward) [] true fuel 0 None
    (mkState b ws cs) (fun y => rmatch R_eol Forward y Success)
  = Success (mkState (rev ws ++ b) [] cs).
Proof.
  induction ws as [|w ws IH]; intros b cs fuel Hws Hfuel;
    (destruct fuel as [|fuel]; [simpl in Hfuel; lia|]); cbn [repeat_matcher].
  - reflexivity.
  - inversion Hws as [|? ? Hw Hws']; subst.
    cbn [Nat.eqb negb rmatch single read clear_caps after before caps].
    cbn [xorb class_mem existsb atom_mem]. rewrite Hw. cbn [orb].
    cbn [endIndex before andb length].
    replace (S (length b) =? length b) with false
      by (symmetry; apply Nat.eqb_neq; lia).
    cbn [pred option_map]. rewrite cap_clear_nil, IH; auto.
    + cbn [rev]. now rewrite <- app_assoc.
    + simpl in Hfuel. lia.
Qed.

End FenceFacts.

Module FenceProperties.
Import RegExp RegExpFacts CM5 RenderChess RenderChessFacts FenceFacts.

(** X1: a line opens a chess block exactly when it begins with the eight
    characters of the opening fence; what follows on the line plays no
    part, and a line that does not exist opens nothing. *)
Theorem opening_fence_is_a_prefix (l : option jsstring) :
  test_line fence_open l = true <->
  exists rest, l = Some (str "```chess" ++ rest).
Proof.
  split.
  - destruct l as [l|]; [|rewrite test_open_undefined; discriminate].
    intros H. apply test_true in H as (x & y & Hin & HD).
    + cbn [pattern fence_open input_of flag_u] in *. cbn [Denote] in HD.
      destruct HD as (z & [-> Hbol] & HD).
      apply lit_shape in HD as [[Ha _] _].
      unfold input in Hin. rewrite Hbol, Ha in Hin. cbn [rev app] in Hin.
      exists (after y). now rewrite <- Hin.
    + cbn. repeat split; auto.
  - intros (rest & ->). vm_compute. reflexivity.
Qed.

(** X2: a line closes a block exactly when it consists of three backquotes
    followed by nothing but white space. *)
Theorem closing_fence_is_backquotes_and_space (l : option jsstring) :
  test_line fence_close l = true <->
  exists ws, l = Some (str "```" ++ ws) /\
    Forall (fun c => is_whitespace c = true) ws.
Proof.
  split.
  - destruct l as [l|]; [|vm_compute; discriminate].
    intros H. apply test_true in H as (x & y & Hin & HD).
    + cbn [pattern fence_close input_of flag_u] in *. cbn [Denote] in HD.
      destruct HD as (z0 & [-> Hbol] & z1 & H1 & z2 & H2 & -> & Heol).
      apply lit_shape in H1 as [[Ha _] _].
      destruct H2 as (n & _ & _ & H2). cbn [groups] in H2.
      apply iter_reads in H2 as (ws & _ & Hws & [Hb _] & _).
      unfold input in Hin. rewrite Hbol, Ha, Hb, Heol in Hin. cbn [rev] in Hin.
      exists ws. split.
      * rewrite <- Hin. cbn [app]. now rewrite app_nil_r.
      * eapply Forall_impl; [|exact Hws]. cbv beta. intros c Hc.
        cbn in Hc. now rewrite orb_false_r in Hc.
    + cbn. repeat split; auto.
  - intros (ws & -> & Hws). unfold test_line, test.
    cbn [pattern fence_close input_of flag_u].
    assert (E : scan (R_seq R_bol
                  (R_seq (lit (str "```"))
                     (R_seq (R_quant (R_class false [CA_space]) 0 None true) R_eol)))
                  [] (str "```" ++ ws)
                = Some (mkState [] (str "```" ++ ws) [],
                        Success (mkState (rev ws ++ [96; 96; 96]%N) [] []))).
    { cbn -[repeat_matcher rmatch]. cbn [rmatch lit str fold_right map
        String.list_ascii_of_string Ascii.N_of_ascii before].
      cbn [single read after before caps]. rewrite !N.eqb_refl.
      cbn [length Nat.add groups]. rewrite star_space_eol; auto. }
    now rewrite E.
Qed.

End FenceProperties.

(** ** The chess renderer: where the loop lands, and the order of the widgets *)

Module RenderChessOrder.
Import RegExp RegExpFacts CM5 RenderChess RenderChessFacts.

Section Order.

Variable Board : Type.
Variable new_Chessboard :
  Element Board -> ChessProps -> Element Board * Completion unit.

Local Abbreviation loop_body := (loop_body new_Chessboard).
Local Abbreviation scan_from := (scan_from new_Chessboard).
Local Abbreviation markdownRenderChess := (markdownRenderChess new_Chessboard).
Local Abbreviation widget := (widget new_Chessboard).
Local Abbreviation add_widget := (add_widget new_Chessboard).
Local Abbreviation widget_element := (widget_element new_Chessboard).
Local Abbreviation widget_of := (widget_of new_Chessboard).

(** One marker ends on an earlier line than the other starts. *)
Definition above (m1 m2 : TextMarker Board) : Prop :=
  line (m_to m1) < line (m_from m2).

(** With the counter of the outer loop at [i] when a round starts, a round
    of the loop (this one or a later one) starts with the counter at [s]. *)
Inductive lands_from (cm : Editor Board) (cur : nat) : nat -> nat -> Prop :=
| lands_here i : lands_from cm cur i i
| lands_step i s :
    i < snd (viewport cm) ->
    lands_from cm cur (S (snd (loop_body cm cur i))) s ->
    lands_from cm cur i s.

(** [m] is the marker of a block a pass over [cm] from line [i] on lands
    on, in whose range [cm] has no marker. *)
Definition made (cm : Editor Board) (cur i : nat) (m : TextMarker Board) : Prop :=
  exists s e id,
    lands_from cm cur i s /\ s < snd (viewport cm) /\ block cm cur s e /\
    findMarks cm (mkPos s 0) (mkPos e 3) = [] /\
    m = widget_of cm s e id.

Lemma loop_body_counter (cm : Editor Board) cur i :
  snd (loop_body cm cur i) = snd (plan cm cur i).
Proof.
  rewrite loop_body_plan. destruct (plan cm cur i) as [[e|] i']; [|reflexivity].
  destruct (0 <? _); reflexivity.
Qed.

Lemma plan_counter_le (cm : Editor Board) cur i : i <= snd (plan cm cur i).
Proof.
  unfold plan.
  destruct (String.eqb (modeName cm i) "markdown-zkn") eqn:Emode; cbn [negb];
    [|cbn; lia].
  destruct (cur =? i) eqn:Ecur; [cbn; lia|].
  destruct (test_line fence_open (getLine cm i)) eqn:Eopen; [|cbn; lia].
  assert (Hopen : opens_block cm cur i).
  { split; [now apply String.eqb_eq|]. split; [|exact Eopen].
    apply Nat.eqb_neq in Ecur. exact Ecur. }
  destruct (read_from_spec Hopen) as (Hj & _). cbv zeta in *.
  destruct (rr_cursorInBlock _); [cbn [snd]; lia|].
  destruct (_ <=? i); cbn [snd]; lia.
Qed.

Lemma lands_same_doc (cm cm2 : Editor Board) cur i s :
  same_doc cm cm2 -> lands_from cm cur i s -> lands_from cm2 cur i s.
Proof.
  intros Hdoc H. induction H as [i|i s Hi H IH]; [apply lands_here|].
  pose proof Hdoc as (_ & _ & Hv & _).
  apply lands_step; [now rewrite Hv|].
  rewrite loop_body_counter, (plan_same_doc _ _ Hdoc), <- loop_body_counter.
  exact IH.
Qed.

Lemma lands_le (cm : Editor Board) cur i s : lands_from cm cur i s -> i <= s.
Proof.
  induction 1 as [i|i s Hi H IH]; [lia|].
  rewrite loop_body_counter in IH. pose proof (plan_counter_le cm cur i). lia.
Qed.

(** The loop passes over lines that are no opening fence one by one. *)
Lemma lands_quiet (cm : Editor Board) cur s : forall n i,
  s = i + n -> s <= snd (viewport cm) ->
  (forall k, i <= k < s -> test_line fence_open (getLine cm k) = false) ->
  lands_from cm cur i s.
Proof.
  induction n as [|n IH]; intros i Hs Hvp Hquiet.
  - replace s with i by lia. apply lands_here.
  - apply lands_step; [lia|].
    assert (E : loop_body cm cur i = (Normal cm, i)).
    { unfold RenderChess.loop_body. destruct (negb _); [reflexivity|].
      destruct (cur =? i); [reflexivity|]. rewrite Hquiet by lia. reflexivity. }
    rewrite E. cbn [snd]. apply IH; [lia|exact Hvp|].
    intros k Hk. apply Hquiet. lia.
Qed.

(** *** Markers that lie before or behind a range are not found in it *)

Lemma marker_found_before (from to : Pos) (m : TextMarker Board) :
  line (m_to m) < line from -> marker_found from to m = false.
Proof.
  intros H. unfold marker_found.
  destruct (existsb _ _) eqn:E; [|reflexivity].
  apply existsb_exists in E as (l & Hl & Hsp). apply in_seq in Hl.
  unfold span_on in Hsp.
  replace (l <=? line (m_to m)) with false in Hsp
    by (symmetry; apply Nat.leb_gt; lia).
  rewrite andb_false_r in Hsp. discriminate.
Qed.

Lemma marker_found_after (from to : Pos) (m : TextMarker Board) :
  line to < line (m_from m) -> marker_found from to m = false.
Proof.
  intros H. unfold marker_found.
  destruct (existsb _ _) eqn:E; [|reflexivity].
  apply existsb_exists in E as (l & Hl & Hsp). apply in_seq in Hl.
  unfold span_on in Hsp.
  replace (line (m_from m) <=? l) with false in Hsp
    by (symmetry; apply Nat.leb_gt; lia).
  cbn [andb] in Hsp. discriminate.
Qed.

Lemma findMarks_none (cm : Editor Board) a b :
  (forall m, In m (marks cm) ->
     marker_found (clipPos cm a) (clipPos cm b) m = false) <->
  findMarks cm a b = [].
Proof.
  unfold findMarks. split.
  - intros H. induction (marks cm) as [|m ms IH]; [reflexivity|].
    cbn [filter]. rewrite H by now left. apply IH. intros m' Hm'. apply H. now right.
  - intros H m Hm.
    destruct (marker_found (clipPos cm a) (clipPos cm b) m) eqn:E; [|reflexivity].
    assert (Hin : In m (filter (marker_found (clipPos cm a) (clipPos cm b)) (marks cm)))
      by (apply filter_In; auto).
    rewrite H in Hin. destruct Hin.
Qed.

Lemma scan_step (cm cm' : Editor Board) cur i i' fuel :
  i < snd (viewport cm) ->
  loop_body cm cur i = (Normal cm', i') ->
  scan_from (S fuel) cm cur i = scan_from fuel cm' cur (S i').
Proof.
  intros Hi Hround. cbn [RenderChess.scan_from].
  apply Nat.ltb_lt in Hi. rewrite Hi, Hround. reflexivity.
Qed.

(** *** The pass, once more: which blocks, which identities, which order *)

Lemma scan_from_made cur fuel : forall i (cm : Editor Board),
  fresh_ids cm -> snd (viewport cm) - i < fuel ->
  exists new,
    scan_from fuel cm cur i
    = Some (Normal (with_marks cm (marks cm ++ new) (next_id cm + length new))) /\
    Forall (made cm cur i) new /\
    map (@m_id Board) new = seq (next_id cm) (length new) /\
    StronglySorted above new.
Proof.
  induction fuel as [|fuel IH]; intros i cm Hfresh Hfuel; [lia|].
  destruct (Nat.ltb_spec i (snd (viewport cm))) as [Ei|Ei].
  - destruct (loop_body_spec new_Chessboard cur i Hfresh)
      as (i' & Hi' & [Hb|(Hblock & Hfind & Hb)]);
      rewrite (@scan_step _ _ _ _ _ fuel Ei Hb).
    + destruct (IH (S i') cm Hfresh) as (new & Hscan & Hnew & Hids & Hord); [lia|].
      exists new. split; [exact Hscan|]. split; [|auto].
      eapply Forall_impl; [|exact Hnew]. intros m (s & e & id & Hl & H).
      exists s, e, id. split; [|exact H].
      apply lands_step; [exact Ei|]. rewrite Hb. exact Hl.
    + pose proof Hblock as (_ & Hse & _).
      destruct (IH (S i') (add_widget cm i i' (lines_between cm i i')))
        as (new & Hscan & Hnew & Hids & Hord);
        [now apply add_widget_fresh|cbn; lia|].
      assert (Hdoc : same_doc (add_widget cm i i' (lines_between cm i i')) cm)
        by (repeat split).
      assert (Hnew' : Forall (made cm cur (S i')) new).
      { eapply Forall_impl; [|exact Hnew].
        intros m (s & e & id & Hl & Hs & Hbl & Hf & Hm).
        exists s, e, id. split; [exact (lands_same_doc Hdoc Hl)|].
        split; [exact Hs|]. split; [exact Hbl|]. split; [|exact Hm].
        unfold RenderChess.add_widget in Hf. now apply findMarks_app_nil in Hf. }
      exists (widget cm i i' (lines_between cm i i') :: new).
      split; [|split; [|split]].
      * rewrite Hscan. unfold RenderChess.add_widget, with_marks.
        cbn [lines cursor viewport modeName marks next_id length].
        rewrite <- app_assoc. cbn [app]. do 3 f_equal. lia.
      * constructor.
        -- exists i, i', (next_id cm). split; [apply lands_here|]. auto.
        -- eapply Forall_impl; [|exact Hnew']. intros m (s & e & id & Hl & H).
           exists s, e, id. split; [|exact H].
           apply lands_step; [exact Ei|]. rewrite Hb. exact Hl.
      * cbn [map length seq RenderChess.widget m_id]. f_equal. exact Hids.
      * constructor; [exact Hord|].
        eapply Forall_impl; [|exact Hnew'].
        intros m (s & e & id & Hl & _ & Hbl & _ & Hm).
        apply lands_le in Hl. destruct Hbl as (_ & Hs & _).
        unfold above. rewrite Hm.
        cbn [RenderChess.widget RenderChess.widget_of m_from m_to].
        rewrite !clipPos_line by lia. lia.
  - exists []. cbn [RenderChess.scan_from].
    apply Nat.ltb_ge in Ei. rewrite Ei. cbn [negb].
    rewrite app_nil_r, Nat.add_0_r, with_marks_same.
    split; [reflexivity|]. split; [constructor|]. split; [reflexivity|constructor].
Qed.

Lemma markdownRenderChess_made (cm : Editor Board) :
  fresh_ids cm ->
  exists new,
    markdownRenderChess cm
    = Some (Normal (with_marks cm (marks cm ++ new) (next_id cm + length new))) /\
    Forall (made cm (line (cursor cm)) (fst (viewport cm))) new /\
    map (@m_id Board) new = seq (next_id cm) (length new) /\
    StronglySorted above new.
Proof.
  intros Hfresh. unfold RenderChess.markdownRenderChess.
  apply scan_from_made; [exact Hfresh|lia].
Qed.

(** A block the loop lands on, with no marker in its range, gets its
    widget. *)
Lemma scan_lands_block cur fuel : forall i (cm : Editor Board) s e,
  fresh_ids cm -> snd (viewport cm) - i < fuel ->
  lands_from cm cur i s -> s < snd (viewport cm) -> block cm cur s e ->
  findMarks cm (mkPos s 0) (mkPos e 3) = [] ->
  exists new1 new2 id n,
    scan_from fuel cm cur i
    = Some (Normal (with_marks cm
                      (marks cm ++ new1 ++ widget_of cm s e id :: new2) n)).
Proof.
  induction fuel as [|fuel IH]; intros i cm s e Hfresh Hfuel Hl Hs Hblock Hfind;
    [lia|].
  inversion Hl as [i0|i0 s0 Hi Hl']; subst.
  - pose proof (RenderChessClaims.block_round new_Chessboard Hfresh Hblock) as Hb.
    rewrite Hfind in Hb. cbn [length Nat.ltb Nat.leb] in Hb.
    rewrite (@scan_step _ _ _ _ _ fuel Hs Hb).
    pose proof Hblock as (_ & Hse & _).
    destruct (@scan_from_spec Board new_Chessboard cur fuel (S e)
                (add_widget cm s e (lines_between cm s e)))
      as (new & Hscan & _); [now apply add_widget_fresh|cbn; lia|].
    exists [], new, (next_id cm). eexists. rewrite Hscan.
    unfold RenderChess.add_widget, with_marks.
    cbn [lines cursor viewport modeName marks next_id app].
    rewrite <- app_assoc. reflexivity.
  - destruct (loop_body_spec new_Chessboard cur i Hfresh)
      as (i' & Hi' & [Hb|(Hblock' & Hfind' & Hb)]);
      rewrite Hb in Hl'; cbn [snd] in Hl'; rewrite (@scan_step _ _ _ _ _ fuel Hi Hb).
    + apply IH; auto. lia.
    + pose proof Hblock' as (_ & Hse' & _). pose proof Hblock as (_ & Hse & _).
      pose proof (lands_le Hl') as Hle.
      set (cm1 := add_widget cm i i' (lines_between cm i i')) in *.
      assert (Hdoc : same_doc cm cm1) by (repeat split).
      destruct (IH (S i') cm1 s e) as (new1 & new2 & id & n & Hscan).
      * now apply add_widget_fresh.
      * cbn. lia.
      * exact (lands_same_doc Hdoc Hl').
      * exact Hs.
      * exact Hblock.
      * apply findMarks_none. intros m Hm. unfold cm1, RenderChess.add_widget in Hm.
        cbn [marks with_marks] in Hm. apply in_app_or in Hm as [Hm|[<-|[]]].
        -- apply (proj2 (findMarks_none cm _ _) Hfind m Hm).
        -- apply marker_found_before.
           cbn [RenderChess.widget m_to]. unfold cm1.
           rewrite (@clipPos_same_lines _ cm (add_widget cm i i' _) (mkPos s 0))
             by reflexivity.
           rewrite !clipPos_line by lia. lia.
      * exists (widget cm i i' (lines_between cm i i') :: new1), new2, id, n.
        rewrite Hscan. unfold cm1, RenderChess.add_widget, with_marks.
        cbn [lines cursor viewport modeName marks next_id app].
        rewrite <- app_assoc. reflexivity.
Qed.

(** *** What a marker of a pass looks like *)

Lemma made_shape (cm : Editor Board) cur i m :
  made cm cur i m ->
  exists s e,
    lands_from cm cur i s /\ s < snd (viewport cm) /\ block cm cur s e /\
    findMarks cm (mkPos s 0) (mkPos e 3) = [] /\
    m_from m = mkPos s 0 /\ m_to m = mkPos e 3 /\
    clearOnEnter m = true /\
    replacedWith m = widget_element (lines_between cm s e) (m_id m).
Proof.
  intros (s & e & id & Hl & Hs & Hb & Hf & ->).
  pose proof Hb as (_ & Hse & _).
  exists s, e. cbn [RenderChess.widget_of m_from m_to m_id clearOnEnter replacedWith].
  rewrite clipPos_start by lia. rewrite (clipPos_end Hb).
  repeat split; auto; apply Hb.
Qed.

Lemma sorted_cases (A : Type) (R : A -> A -> Prop) l a b :
  StronglySorted R l -> In a l -> In b l -> a = b \/ R a b \/ R b a.
Proof.
  induction 1 as [|x l Hs IH Hall]; intros Ha Hb; [destruct Ha|].
  rewrite Forall_forall in Hall.
  destruct Ha as [<-|Ha], Hb as [<-|Hb]; auto.
Qed.

Lemma same_id_same_marker (new : list (TextMarker Board)) first m1 m2 :
  map (@m_id Board) new = seq first (length new) ->
  In m1 new -> In m2 new -> m_id m1 = m_id m2 -> m1 = m2.
Proof.
  intros Hids. assert (Hnd : NoDup (map (@m_id Board) new))
    by (rewrite Hids; apply seq_NoDup).
  clear Hids. induction new as [|m new IH]; intros H1 H2 E; [destruct H1|].
  cbn [map] in Hnd. inversion Hnd as [|? ? Hnot Hnd']; subst.
  destruct H1 as [<-|H1], H2 as [<-|H2]; auto.
  - exfalso. apply Hnot. rewrite E. now apply in_map.
  - exfalso. apply Hnot. rewrite <- E. now apply in_map.
Qed.

Lemma new_ids (new : list (TextMarker Board)) first m :
  map (@m_id Board) new = seq first (length new) ->
  In m new -> first <= m_id m < first + length new.
Proof.
  intros Hids Hm. apply (in_map (@m_id Board)) in Hm. rewrite Hids in Hm.
  apply in_seq in Hm. exact Hm.
Qed.


(** The whole command renders every block it lands on that has no marker
    in its range. *)
Lemma pass_renders (cm : Editor Board) s e :
  fresh_ids cm ->
  lands_from cm (line (cursor cm)) (fst (viewport cm)) s ->
  s < snd (viewport cm) ->
  block cm (line (cursor cm)) s e ->
  findMarks cm (mkPos s 0) (mkPos e 3) = [] ->
  exists new id,
    markdownRenderChess cm
    = Some (Normal (with_marks cm (marks cm ++ new) (next_id cm + length new))) /\
    In (widget_of cm s e id) new.
Proof.
  intros Hfresh Hl Hs Hb Hf.
  destruct (markdownRenderChess_spec new_Chessboard Hfresh) as (new & Hrun & _).
  destruct (@scan_lands_block (line (cursor cm))
              (S (snd (viewport cm) - fst (viewport cm)))
              (fst (viewport cm)) cm s e)
    as (new1 & new2 & id & n & Hscan); auto; try lia.
  exists new, id. split; [exact Hrun|].
  unfold RenderChess.markdownRenderChess in Hrun. rewrite Hscan in Hrun.
  unfold with_marks in Hrun. injection Hrun as Hmarks _.
  apply app_inv_head in Hmarks. rewrite <- Hmarks.
  apply in_or_app. right. now left.
Qed.


(** What makes lines [s] to [e] a block, spelled out. *)
Lemma block_intro (cm : Editor Board) cur s e :
  modeName cm s = "markdown-zkn"%string ->
  test_line fence_open (getLine cm s) = true ->
  s < e < lineCount cm ->
  test_line fence_close (getLine cm e) = true ->
  (forall k, s < k < e -> test_line fence_close (getLine cm k) = false) ->
  (forall k, s <= k <= e -> k <> cur) ->
  block cm cur s e.
Proof.
  intros Hmode Hopen Hse Hclose Hnoclose Hcur.
  split; [split; [exact Hmode|split; [|exact Hopen]]|].
  - intros E. apply (Hcur s); [lia|now symmetry].
  - split; [exact Hse|]. split; [intros k Hk; apply Hcur; lia|].
    split; [exact Hnoclose|exact Hclose].
Qed.

(** *** The caret at an end of a block *)

Ltac decide_tests :=
  repeat match goal with
         | |- context [?a <=? ?b] => destruct (Nat.leb_spec a b)
         | |- context [?a =? ?b] => destruct (Nat.eqb_spec a b)
         end;
  cbn [andb orb negb fst snd]; try reflexivity; try lia.

Lemma pos_lt_cases (a b : Pos) :
  pos_lt a b = true <-> line a < line b \/ (line a = line b /\ ch a < ch b).
Proof.
  unfold pos_lt. rewrite orb_true_iff, andb_true_iff, !Nat.ltb_lt, Nat.eqb_eq.
  reflexivity.
Qed.

(** A marker that has an end of the range from [(s, 0)] to [(e, 3)] strictly
    inside is found in that range. *)
Lemma caret_inside_found (m0 : TextMarker Board) s e p :
  s < e -> p = mkPos s 0 \/ p = mkPos e 3 ->
  caret_inside p m0 = true ->
  marker_found (mkPos s 0) (mkPos e 3) m0 = true.
Proof.
  intros Hse Hp H. unfold caret_inside in H.
  apply andb_true_iff in H as [H1 H2].
  apply pos_lt_cases in H1, H2.
  unfold marker_found. cbn [line]. apply existsb_exists.
  exists (Nat.max s (line (m_from m0))).
  destruct Hp as [-> | ->]; cbn [line ch] in H1, H2.
  - split; [apply in_seq; lia|].
    replace (Nat.max s (line (m_from m0))) with s by lia.
    unfold span_on, span_found. cbn [line ch].
    decide_tests;
      destruct (ch (m_to m0) <=? 0) eqn:E; try reflexivity;
      apply Nat.leb_le in E; lia.
  - split; [apply in_seq; lia|].
    unfold span_on, span_found. cbn [line ch].
    destruct (Nat.max_spec s (line (m_from m0))) as [[Hlt ->]|[Hle ->]].
    + decide_tests;
        destruct (3 <=? ch (m_from m0)) eqn:E; try reflexivity;
        apply Nat.leb_le in E; lia.
    + decide_tests.
Qed.

End Order.

End RenderChessOrder.

(** ** CodeMirror 5 host: the mouse on a widget *)

Module CM5Mouse.
Import CM5.

Section Mouse.

Variable Board : Type.

(** A click of the mouse on the element that replaces marker [m].  The
    command sets [handleMouseEvents], and the editor then handles the mouse
    on the widget as it does on text: the press of the button puts the caret
    at [p], the position the editor finds for the pointer - on a widget that
    replaces a range, one of the two ends of the range.  Without the option
    the editor leaves the event alone.  The click event comes next and runs
    the handler of the element. *)
Definition mouse_click (cm : Editor Board) (m : TextMarker Board) (p : Pos)
    : Editor Board :=
  click (if handleMouseEvents m then setCursor cm p else cm) m.

End Mouse.

End CM5Mouse.

(** ** The chess renderer: the widgets of a pass *)

Module RenderChessProperties.
Import RegExp CM5 CM5Mouse RenderChess RenderChessFacts RenderChessOrder.

Section Properties.

Variable Board : Type.
Variable new_Chessboard :
  Element Board -> ChessProps -> Element Board * Completion unit.

Local Abbreviation markdownRenderChess := (markdownRenderChess new_Chessboard).
Local Abbreviation widget_of := (widget_of new_Chessboard).
Local Abbreviation lands_from := (lands_from new_Chessboard).

(** X3: the markers one run adds come top to bottom and never overlap or
    nest: each covers at least two lines and ends on an earlier line than
    the next one starts. *)
Theorem widgets_do_not_overlap (cm : Editor Board) :
  fresh_ids cm ->
  exists new,
    markdownRenderChess cm
    = Some (Normal (with_marks cm (marks cm ++ new) (next_id cm + length new))) /\
    StronglySorted (fun m1 m2 => line (m_to m1) < line (m_from m2)) new /\
    Forall (fun m => line (m_from m) < line (m_to m)) new.
Proof.
  intros Hfresh.
  destruct (markdownRenderChess_made new_Chessboard Hfresh)
    as (new & Hrun & Hmade & _ & Hord).
  exists new. split; [exact Hrun|]. split; [exact Hord|].
  eapply Forall_impl; [|exact Hmade]. intros m Hm.
  destruct (made_shape Hm) as (s & e & _ & _ & Hb & _ & Hfrom & Hto & _).
  rewrite Hfrom, Hto. cbn [line]. apply Hb.
Qed.

(** X4: every marker a run adds covers exactly one fenced block: it starts
    at column 0 of a visible line that is an opening fence and ends at
    column 3 of the first closing fence behind that line, which may lie
    outside the viewport. *)
Theorem widgets_cover_blocks (cm : Editor Board) :
  fresh_ids cm ->
  exists new,
    markdownRenderChess cm
    = Some (Normal (with_marks cm (marks cm ++ new) (next_id cm + length new))) /\
    forall m, In m new ->
      exists s e,
        m_from m = mkPos s 0 /\ m_to m = mkPos e 3 /\
        fst (viewport cm) <= s < snd (viewport cm) /\ s < e < lineCount cm /\
        test_line fence_open (getLine cm s) = true /\
        test_line fence_close (getLine cm e) = true /\
        forall k, s < k < e -> test_line fence_close (getLine cm k) = false.
Proof.
  intros Hfresh.
  destruct (markdownRenderChess_made new_Chessboard Hfresh)
    as (new & Hrun & Hmade & _ & _).
  exists new. split; [exact Hrun|]. intros m Hm.
  rewrite Forall_forall in Hmade.
  destruct (made_shape (Hmade m Hm)) as (s & e & Hl & Hs & Hb & _ & Hfrom & Hto & _).
  exists s, e. apply lands_le in Hl.
  destruct Hb as ((_ & _ & Hopen) & Hse & _ & Hnoclose & Hclose).
  repeat split; auto; lia.
Qed.

(** X5: the text handed to the constructor is made of the lines strictly
    between the two fences, joined by line feeds; when the constructor
    returns, the marker shows the element as the constructor left it, with
    the click handler that clears this marker. *)
Theorem widget_shows_the_board (cm : Editor Board) :
  fresh_ids cm ->
  exists new,
    markdownRenderChess cm
    = Some (Normal (with_marks cm (marks cm ++ new) (next_id cm + length new))) /\
    forall m, In m new ->
      exists s e,
        m_from m = mkPos s 0 /\ m_to m = mkPos e 3 /\
        length (lines_between cm s e) = e - S s /\
        (forall k, k < e - S s ->
           nth_error (lines_between cm s e) k = getLine cm (S s + k)) /\
        forall el,
          new_Chessboard (classList_add (createElement Board "div") "chessboard")
            (mkProps (join newline (lines_between cm s e)) sprite)
          = (el, Normal tt) ->
          replacedWith m
          = mkElement (tagName el) (classList el) (content el)
              (Some (ClearMarker (m_id m))).
Proof.
  intros Hfresh.
  destruct (markdownRenderChess_made new_Chessboard Hfresh)
    as (new & Hrun & Hmade & _ & _).
  exists new. split; [exact Hrun|]. intros m Hm.
  rewrite Forall_forall in Hmade.
  destruct (made_shape (Hmade m Hm))
    as (s & e & _ & _ & Hb & _ & Hfrom & Hto & _ & Helem).
  exists s, e. destruct Hb as (_ & Hse & _). unfold lineCount in Hse.
  split; [exact Hfrom|]. split; [exact Hto|]. split; [|split].
  - unfold lines_between. rewrite length_firstn, length_skipn. lia.
  - intros k Hk. unfold lines_between, getLine.
    rewrite nth_error_firstn, nth_error_skipn.
    apply Nat.ltb_lt in Hk. now rewrite Hk.
  - intros el Hctor. rewrite Helem. unfold widget_element.
    rewrite (RenderChessClaims.build_element_return _ _ Hctor). reflexivity.
Qed.

(** X6: completeness of a run.  When a round of the outer loop starts on
    a line of the viewport that is in the mode markdown-zkn and is an
    opening fence, the first closing fence behind it is a line of the
    document, the caret is on none of the lines from the one fence to the
    other, and no marker is found in that range, then the run adds the
    widget of that block, from the start of the opening fence to the end of
    the closing fence. *)
Theorem landed_block_is_rendered (cm : Editor Board) s e :
  fresh_ids cm ->
  lands_from cm (line (cursor cm)) (fst (viewport cm)) s ->
  s < snd (viewport cm) ->
  modeName cm s = "markdown-zkn"%string ->
  test_line fence_open (getLine cm s) = true ->
  s < e < lineCount cm ->
  test_line fence_close (getLine cm e) = true ->
  (forall k, s < k < e -> test_line fence_close (getLine cm k) = false) ->
  (forall k, s <= k <= e -> k <> line (cursor cm)) ->
  findMarks cm (mkPos s 0) (mkPos e 3) = [] ->
  exists new id,
    markdownRenderChess cm
    = Some (Normal (with_marks cm (marks cm ++ new) (next_id cm + length new))) /\
    In (widget_of cm s e id) new /\
    m_from (widget_of cm s e id) = mkPos s 0 /\
    m_to (widget_of cm s e id) = mkPos e 3.
Proof.
  intros Hfresh Hl Hs Hmode Hopen Hse Hclose Hnoclose Hcur Hf.
  pose proof (@block_intro _ cm _ s e Hmode Hopen Hse Hclose Hnoclose Hcur) as Hb.
  destruct (@pass_renders Board new_Chessboard cm s e Hfresh Hl Hs Hb Hf)
    as (new & id & Hrun & Hin).
  exists new, id. split; [exact Hrun|]. split; [exact Hin|].
  cbn [RenderChess.widget_of m_from m_to].
  rewrite clipPos_start by lia. rewrite (clipPos_end Hb). auto.
Qed.

(** X7: the first line of the viewport that is an opening fence, when it
    is in the mode markdown-zkn, starts a block that the run renders
    whenever a closing fence follows in the document, the caret is on none
    of the lines from the one fence to the other, and no marker is found in
    that range. *)
Theorem first_block_is_rendered (cm : Editor Board) s e :
  fresh_ids cm ->
  fst (viewport cm) <= s < snd (viewport cm) ->
  (forall k, fst (viewport cm) <= k < s ->
     test_line fence_open (getLine cm k) = false) ->
  modeName cm s = "markdown-zkn"%string ->
  test_line fence_open (getLine cm s) = true ->
  s < e < lineCount cm ->
  test_line fence_close (getLine cm e) = true ->
  (forall k, s < k < e -> test_line fence_close (getLine cm k) = false) ->
  (forall k, s <= k <= e -> k <> line (cursor cm)) ->
  findMarks cm (mkPos s 0) (mkPos e 3) = [] ->
  exists new id,
    markdownRenderChess cm
    = Some (Normal (with_marks cm (marks cm ++ new) (next_id cm + length new))) /\
    In (widget_of cm s e id) new /\
    m_from (widget_of cm s e id) = mkPos s 0 /\
    m_to (widget_of cm s e id) = mkPos e 3.
Proof.
  intros Hfresh Hs Hquiet Hmode Hopen Hse Hclose Hnoclose Hcur Hf.
  pose proof (@block_intro _ cm _ s e Hmode Hopen Hse Hclose Hnoclose Hcur) as Hb.
  assert (Hl : lands_from cm (line (cursor cm)) (fst (viewport cm)) s)
    by (apply lands_quiet with (n := s - fst (viewport cm)); auto; lia).
  destruct (@pass_renders Board new_Chessboard cm s e Hfresh Hl (proj2 Hs) Hb Hf)
    as (new & id & Hrun & Hin).
  exists new, id. split; [exact Hrun|]. split; [exact Hin|].
  cbn [RenderChess.widget_of m_from m_to].
  rewrite clipPos_start by lia. rewrite (clipPos_end Hb). auto.
Qed.

(** With the caret at an end of the range of a marker of the run, the caret
    is inside no marker of the editor the run leaves. *)
Lemma caret_at_end_outside (cm : Editor Board) new m p m0 :
  Forall (made new_Chessboard cm (line (cursor cm)) (fst (viewport cm))) new ->
  StronglySorted (@above Board) new ->
  In m new -> p = m_from m \/ p = m_to m ->
  In m0 (marks cm ++ new) ->
  clipPos cm p = p /\ caret_inside p m0 = false.
Proof.
  intros Hmade Hord Hin Hp H0. rewrite Forall_forall in Hmade.
  destruct (made_shape (Hmade m Hin)) as (s & e & _ & _ & Hb & Hf & Hfrom & Hto & _).
  pose proof Hb as (_ & Hse & _).
  assert (Hclip : clipPos cm p = p).
  { destruct Hp as [-> | ->].
    - rewrite Hfrom. apply clipPos_start. lia.
    - rewrite Hto. exact (clipPos_end Hb). }
  split; [exact Hclip|].
  destruct (caret_inside p m0) eqn:E; [exfalso|reflexivity].
  apply in_app_or in H0 as [H0|H0].
  - pose proof (proj2 (findMarks_none cm _ _) Hf m0 H0) as Hnot.
    rewrite clipPos_start in Hnot by lia. rewrite (clipPos_end Hb) in Hnot.
    rewrite (@caret_inside_found _ m0 s e p) in Hnot; [discriminate|lia| |exact E].
    rewrite <- Hfrom, <- Hto. exact Hp.
  - unfold caret_inside in E. apply andb_true_iff in E as [E1 E2].
    apply pos_lt_cases in E1, E2.
    assert (Hline : line p = s \/ line p = e)
      by (destruct Hp as [-> | ->]; [rewrite Hfrom|rewrite Hto]; auto).
    destruct (sorted_cases m0 m Hord H0 Hin) as [->|[Ha|Ha]].
    + destruct Hp as [-> | ->]; lia.
    + unfold above in Ha. rewrite Hfrom in Ha. cbn [line] in Ha. lia.
    + unfold above in Ha. rewrite Hto in Ha. cbn [line] in Ha. lia.
Qed.

(** X8: a click on a widget the run has created clears that marker and no
    other: every other marker of the editor, old or new, stays.  That holds
    for the click handler alone, and for the whole click of the mouse, the
    caret being put at an end of the marker's range before the handler
    runs. *)
Theorem click_clears_one_widget (cm cm' : Editor Board) m :
  fresh_ids cm ->
  markdownRenderChess cm = Some (Normal cm') ->
  In m (marks cm') -> ~ In m (marks cm) ->
  (forall m0, In m0 (marks (click cm' m)) <-> In m0 (marks cm') /\ m0 <> m) /\
  (forall p m0, p = m_from m \/ p = m_to m ->
     (In m0 (marks (mouse_click cm' m p)) <-> In m0 (marks cm') /\ m0 <> m)).
Proof.
  intros Hfresh Hrun Hin Hold.
  destruct (markdownRenderChess_made new_Chessboard Hfresh)
    as (new & Hrun' & Hmade & Hids & Hord).
  rewrite Hrun in Hrun'. injection Hrun' as ->.
  cbn [marks with_marks] in Hin. apply in_app_or in Hin as [Hin|Hin]; [contradiction|].
  pose proof Hmade as Hmade'. rewrite Forall_forall in Hmade'.
  destruct (Hmade' m Hin) as (s & e & id & _ & _ & _ & _ & Hm).
  assert (Hid : m_id m = id) by (rewrite Hm; reflexivity).
  set (cm' := with_marks cm (marks cm ++ new) (next_id cm + length new)).
  assert (Hother : forall m0, In m0 (marks cm ++ new) ->
            (negb (m_id m0 =? id) = true <-> m0 <> m)).
  { intros m0 H0. rewrite negb_true_iff, Nat.eqb_neq. split.
    - intros Hne ->. contradiction.
    - intros Hne E. apply Hne. apply in_app_or in H0 as [H0|H0].
      + exfalso. unfold fresh_ids in Hfresh. rewrite Forall_forall in Hfresh.
        specialize (Hfresh m0 H0). pose proof (@new_ids _ _ _ _ Hids Hin). lia.
      + apply (@same_id_same_marker _ _ _ _ _ Hids H0 Hin). congruence. }
  split.
  - intros m0.
    assert (Hclick : click cm' m = clear_marker cm' id) by (rewrite Hm; reflexivity).
    rewrite Hclick. unfold clear_marker. cbn [marks with_marks cm'].
    rewrite filter_In. split; intros [H0 Hne]; split; auto; now apply (Hother m0 H0).
  - intros p m0 Hp.
    assert (Hclick : mouse_click cm' m p = clear_marker (setCursor cm' p) id)
      by (rewrite Hm; reflexivity).
    rewrite Hclick. unfold clear_marker, setCursor. cbn [marks with_marks cm'].
    rewrite !filter_In. change (clipPos cm' p) with (clipPos cm p).
    split.
    + intros [[H0 _] Hne]. split; [exact H0|now apply (Hother m0 H0)].
    + intros [H0 Hne]. split; [split; [exact H0|]|now apply (Hother m0 H0)].
      destruct (@caret_at_end_outside cm new m p m0 Hmade Hord Hin Hp H0) as [-> ->].
      now rewrite andb_false_r.
Qed.



End Properties.

(** *** The statements above at the example editors *)

Lemma widgets_do_not_overlap_example :
  exists new,
    markdownRenderChess example_Chessboard invalid_editor
    = Some (Normal (with_marks invalid_editor (marks invalid_editor ++ new)
                      (next_id invalid_editor + length new))) /\
    StronglySorted (fun m1 m2 => line (m_to m1) < line (m_from m2)) new /\
    Forall (fun m => line (m_from m) < line (m_to m)) new.
Proof.
  apply widgets_do_not_overlap. constructor.
Defined.

Lemma widgets_cover_blocks_example :
  exists new,
    markdownRenderChess example_Chessboard block_editor
    = Some (Normal (with_marks block_editor (marks block_editor ++ new)
                      (next_id block_editor + length new))) /\
    forall m, In m new ->
      exists s e,
        m_from m = mkPos s 0 /\ m_to m = mkPos e 3 /\
        fst (viewport block_editor) <= s < snd (viewport block_editor) /\
        s < e < lineCount block_editor /\
        test_line fence_open (getLine block_editor s) = true /\
        test_line fence_close (getLine block_editor e) = true /\
        forall k, s < k < e -> test_line fence_close (getLine block_editor k) = false.
Proof.
  apply widgets_cover_blocks. constructor.
Defined.

Lemma widget_shows_the_board_example :
  exists new,
    markdownRenderChess example_Chessboard block_editor
    = Some (Normal (with_marks block_editor (marks block_editor ++ new)
                      (next_id block_editor + length new))) /\
    forall m, In m new ->
      exists s e,
        m_from m = mkPos s 0 /\ m_to m = mkPos e 3 /\
        length (lines_between block_editor s e) = e - S s /\
        (forall k, k < e - S s ->
           nth_error (lines_between block_editor s e) k
           = getLine block_editor (S s + k)) /\
        forall el,
          example_Chessboard
            (classList_add (createElement jsstring "div") "chessboard")
            (mkProps (join newline (lines_between block_editor s e)) sprite)
          = (el, Normal tt) ->
          replacedWith m
          = mkElement (tagName el) (classList el) (content el)
              (Some (ClearMarker (m_id m))).
Proof.
  apply widget_shows_the_board. constructor.
Defined.

Lemma landed_block_is_rendered_example :
  exists new id,
    markdownRenderChess example_Chessboard invalid_editor
    = Some (Normal (with_marks invalid_editor (marks invalid_editor ++ new)
                      (next_id invalid_editor + length new))) /\
    In (widget_of example_Chessboard invalid_editor 4 6 id) new /\
    m_from (widget_of example_Chessboard invalid_editor 4 6 id) = mkPos 4 0 /\
    m_to (widget_of example_Chessboard invalid_editor 4 6 id) = mkPos 6 3.
Proof.
  apply landed_block_is_rendered.
  - constructor.
  - apply lands_step; [vm_compute; lia|].
    apply lands_step; [vm_compute; lia|].
    apply lands_here.
  - vm_compute. lia.
  - reflexivity.
  - vm_compute. reflexivity.
  - vm_compute. lia.
  - vm_compute. reflexivity.
  - intros k Hk. assert (k = 5) as -> by lia. vm_compute. reflexivity.
  - intros k Hk. vm_compute. lia.
  - vm_compute. reflexivity.
Defined.

Lemma first_block_is_rendered_example :
  exists new id,
    markdownRenderChess example_Chessboard block_editor
    = Some (Normal (with_marks block_editor (marks block_editor ++ new)
                      (next_id block_editor + length new))) /\
    In (widget_of example_Chessboard block_editor 2 6 id) new /\
    m_from (widget_of example_Chessboard block_editor 2 6 id) = mkPos 2 0 /\
    m_to (widget_of example_Chessboard block_editor 2 6 id) = mkPos 6 3.
Proof.
  apply first_block_is_rendered.
  - constructor.
  - vm_compute. lia.
  - intros k Hk. cbn [fst viewport block_editor] in Hk.
    assert (k = 0 \/ k = 1) as [->| ->] by lia; vm_compute; reflexivity.
  - reflexivity.
  - vm_compute. reflexivity.
  - vm_compute. lia.
  - vm_compute. reflexivity.
  - intros k Hk.
    assert (k = 3 \/ k = 4 \/ k = 5) as [->|[->| ->]] by lia; vm_compute; reflexivity.
  - intros k Hk. vm_compute. lia.
  - vm_compute. reflexivity.
Defined.

(** Two widgets, on lines 1 to 3 and on lines 4 to 6: a click on the first
    leaves the second, whether the handler alone runs or the mouse has put
    the caret at the start of the first. *)
Lemma click_clears_one_widget_example :
  (In valid_widget
      (marks (click (with_marks invalid_editor [invalid_widget; valid_widget] 2)
                invalid_widget)) <->
   In valid_widget (marks (with_marks invalid_editor [invalid_widget; valid_widget] 2))
   /\ valid_widget <> invalid_widget) /\
  (In valid_widget
      (marks (mouse_click (with_marks invalid_editor [invalid_widget; valid_widget] 2)
                invalid_widget (mkPos 1 0))) <->
   In valid_widget (marks (with_marks invalid_editor [invalid_widget; valid_widget] 2))
   /\ valid_widget <> invalid_widget).
Proof.
  destruct (@click_clears_one_widget jsstring example_Chessboard invalid_editor
              (with_marks invalid_editor [invalid_widget; valid_widget] 2)
              invalid_widget) as [H1 H2].
  - constructor.
  - vm_compute. reflexivity.
  - left. reflexivity.
  - intros [].
  - split; [apply H1|apply H2]. left. reflexivity.
Defined.



End RenderChessProperties.

(** ** The line highlighters: what the iteration can throw, and empty sets *)

Module LineHighlighterFacts.
Import CM6 CM6Facts.

Section Iterate.

Variable A : Type.
Variable from to : nat.
Variable enter : Enter A.

(** A callback that leaves the state alone on every node of the tree
    leaves it alone over the whole iteration. *)
Lemma iterate_unchanged : forall tree acc,
  (forall n acc', In n (nodes tree) -> exists b, enter n acc' = Some (acc', b)) ->
  iterate from to enter tree acc = Some acc.
Proof.
  induction tree as [name nfrom nto children IH] using SyntaxNode_induction.
  intros acc Henter. cbn [iterate].
  destruct ((nfrom <=? to) && (from <=? nto)); [|reflexivity].
  destruct (Henter (Node name nfrom nto children) acc) as (b & ->);
    [rewrite nodes_unfold; now left|].
  destruct b; [|reflexivity].
  assert (Hkids : forall n acc', In n (flat_map nodes children) ->
            exists b, enter n acc' = Some (acc', b)).
  { intros n acc' Hn. apply Henter. rewrite nodes_unfold. now right. }
  clear Henter. induction children as [|k ks IHks]; [reflexivity|].
  inversion IH as [|? ? IHk IHks']; subst.
  rewrite IHk.
  - apply IHks; auto. intros n acc' Hn. apply Hkids. simpl. apply in_or_app. auto.
  - intros n acc' Hn. apply Hkids. simpl. apply in_or_app. auto.
Qed.

(** A callback that never prunes and throws on the nodes [throws] picks:
    the iteration throws exactly when the tree has such a node. *)
Variable good : SyntaxNode -> Prop.
Variable throws : SyntaxNode -> bool.

Hypothesis good_visited : forall n,
  good n -> node_from n <= to /\ from <= node_to n.
Hypothesis enter_throws : forall n acc,
  throws n = true -> enter n acc = None.
Hypothesis enter_returns : forall n acc,
  good n -> throws n = false -> exists acc', enter n acc = Some (acc', true).

Lemma iterate_throws : forall tree acc,
  Forall good (nodes tree) ->
  (iterate from to enter tree acc = None <->
   exists n, In n (nodes tree) /\ throws n = true).
Proof.
  induction tree as [name nfrom nto children IH] using SyntaxNode_induction.
  intros acc Hgood. rewrite nodes_unfold in Hgood.
  inversion Hgood as [|? ? Hn Hkids]; subst.
  destruct (good_visited Hn) as [V1 V2]. simpl in V1, V2.
  cbn [iterate]. apply Nat.leb_le in V1, V2. rewrite V1, V2. cbn [andb].
  rewrite nodes_unfold.
  destruct (throws (Node name nfrom nto children)) eqn:Et.
  - rewrite (enter_throws _ Et). split; [|reflexivity].
    intros _. eexists. split; [now left|exact Et].
  - destruct (enter_returns acc Hn Et) as (acc' & ->).
    assert (Hsib : forall a,
      (fix siblings (ns : list SyntaxNode) (a : A) : option A :=
         match ns with
         | [] => Some a
         | k :: ns' =>
             match iterate from to enter k a with
             | None => None
             | Some a' => siblings ns' a'
             end
         end) children a = None <->
      exists n, In n (flat_map nodes children) /\ throws n = true).
    { clear Hgood Hn V1 V2 Et.
      induction children as [|k ks IHks]; intros a.
      - split; [discriminate|intros (n & [] & _)].
      - inversion IH as [|? ? IHk IHks']; subst.
        simpl in Hkids. apply Forall_app in Hkids as [Hk Hks].
        specialize (IHk a Hk). specialize (IHks IHks' Hks).
        cbn [flat_map].
        destruct (iterate from to enter k a) as [a'|].
        + rewrite IHks. split.
          * intros (n & Hin & Ht). exists n. split; [apply in_or_app; auto|exact Ht].
          * intros (n & Hin & Ht). apply in_app_or in Hin as [Hin|Hin].
            -- assert (H : @Some A a' = None) by (apply IHk; eauto). discriminate.
            -- eauto.
        + split; [|reflexivity]. intros _.
          destruct (proj1 IHk eq_refl) as (n & Hin & Ht).
          exists n. split; [apply in_or_app; auto|exact Ht]. }
    rewrite Hsib. split.
    + intros (n & Hin & Ht). exists n. split; [now right|exact Ht].
    + intros (n & [<-|Hin] & Ht); [congruence|eauto].
Qed.

End Iterate.

Lemma doc_length_from_le doc : forall start, start <= doc_length_from start doc.
Proof.
  induction doc as [|l rest IH]; intros start; [simpl; lia|].
  destruct rest as [|l2 rest]; [simpl; lia|].
  change (doc_length_from start (l :: l2 :: rest))
    with (doc_length_from (start + length l + 1) (l2 :: rest)).
  specialize (IH (start + length l + 1)). lia.
Qed.

(** A position behind the end of the document is on no line. *)
Lemma lineAt_from_none doc : forall start number pos,
  doc_length_from start doc < pos -> lineAt_from start number doc pos = None.
Proof.
  induction doc as [|l rest IH]; intros start number pos H; [reflexivity|].
  cbn [lineAt_from].
  destruct rest as [|l2 rest].
  - simpl in H. replace (pos <=? start + length l) with false
      by (symmetry; apply Nat.leb_gt; lia). reflexivity.
  - change (doc_length_from start (l :: l2 :: rest))
      with (doc_length_from (start + length l + 1) (l2 :: rest)) in H.
    pose proof (doc_length_from_le (l2 :: rest) (start + length l + 1)).
    replace (pos <=? start + length l) with false
      by (symmetry; apply Nat.leb_gt; lia).
    now apply IH.
Qed.

Lemma lineAt_none doc pos : doc_length doc < pos -> lineAt doc pos = None.
Proof. apply lineAt_from_none. Qed.

End LineHighlighterFacts.

Module LineHighlighterProperties.
Import CM6 CM6Facts LineHighlighterFacts.

(** The node is a CodeText node that ends behind the document. *)
Definition code_text_outside (doc : Text) (n : SyntaxNode) : bool :=
  String.eqb (node_name n) "CodeText" && (doc_length doc <? node_to n).

(** X11: the code block highlighter looks up lines for CodeText nodes only.
    On a tree whose nodes start inside the document, [render] throws
    exactly when some CodeText node ends behind the end of the document;
    where the other nodes end plays no part. *)
Theorem code_block_render_throws_outside_document doc tree :
  doc <> [] ->
  Forall (fun n => node_from n <= doc_length doc) (nodes tree) ->
  (CodeBlockLineHighlighter.render doc tree = None <->
   exists n, In n (nodes tree) /\ node_name n = "CodeText"%string /\
     doc_length doc < node_to n).
Proof.
  intros Hne Hfrom. unfold CodeBlockLineHighlighter.render.
  pose proof (@iterate_throws (list Range) 0 (doc_length doc)
                (CodeBlockLineHighlighter.enter doc)
                (fun n => node_from n <= doc_length doc)
                (code_text_outside doc)) as H.
  destruct (H) with (tree := tree) (acc := @nil Range) as [H1 H2]; clear H.
  - intros n Hn. split; [exact Hn|lia].
  - intros n acc Ht. unfold code_text_outside in Ht.
    apply andb_true_iff in Ht as [Hname Hto]. apply Nat.ltb_lt in Hto.
    unfold CodeBlockLineHighlighter.enter. rewrite Hname. cbn [negb].
    rewrite (lineAt_none _ Hto). now destruct (lineAt doc (node_from n)).
  - intros n acc Hn Ht. unfold code_text_outside in Ht.
    destruct (String.eqb (node_name n) "CodeText") eqn:Hname.
    + cbn [andb] in Ht. apply Nat.ltb_ge in Ht.
      destruct (@CodeBlockClaims.enter_spec doc n acc Hne) as (out & -> & _);
        [split; auto|eauto].
    + unfold CodeBlockLineHighlighter.enter. rewrite Hname. cbn [negb]. eauto.
  - exact Hfrom.
  - assert (Hiff : (exists n, In n (nodes tree) /\ code_text_outside doc n = true) <->
                   (exists n, In n (nodes tree) /\ node_name n = "CodeText"%string /\
                      doc_length doc < node_to n)).
    { split; intros (n & Hin & Ht); exists n; (split; [exact Hin|]).
      - unfold code_text_outside in Ht. apply andb_true_iff in Ht as [Hname Hto].
        split; [now apply String.eqb_eq|now apply Nat.ltb_lt].
      - unfold code_text_outside. destruct Ht as [Hname Hto].
        apply andb_true_iff. split; [now apply String.eqb_eq|now apply Nat.ltb_lt]. }
    rewrite <- Hiff.
    destruct (iterate 0 (doc_length doc) (CodeBlockLineHighlighter.enter doc) tree [])
      as [widgets|].
    + split; [discriminate|]. intros Hex. apply H2 in Hex. discriminate.
    + split; [intros _; now apply H1|reflexivity].
Qed.

(** X12: on a tree without CodeText nodes the code block highlighter
    returns the empty set, whatever the document and wherever the nodes
    lie: no line is looked up. *)
Theorem no_code_text_no_decoration doc tree :
  (forall n, In n (nodes tree) -> node_name n <> "CodeText"%string) ->
  CodeBlockLineHighlighter.render doc tree = Some [].
Proof.
  intros Hno. unfold CodeBlockLineHighlighter.render.
  rewrite iterate_unchanged; [reflexivity|].
  intros n acc Hn. unfold CodeBlockLineHighlighter.enter.
  apply Hno, String.eqb_neq in Hn. rewrite Hn. cbn [negb]. eauto.
Qed.

(** X13: on a tree without heading nodes the heading highlighter returns
    the empty set, whatever the order and the positions of the nodes. *)
Theorem no_heading_no_decoration doc tree :
  (forall n, In n (nodes tree) -> HeadingLineHighlighter.heading_level n = None) ->
  HeadingLineHighlighter.render doc tree = Some [].
Proof.
  intros Hno. unfold HeadingLineHighlighter.render.
  rewrite iterate_unchanged; [reflexivity|].
  intros n acc Hn. rewrite HeadingFacts.enter_emit. unfold HeadingFacts.emit.
  rewrite HeadingFacts.heading_deco_level, (Hno n Hn). cbn [option_map].
  rewrite app_nil_r. eauto.
Qed.

(** The statements above at example documents. *)

Lemma code_block_render_throws_outside_document_example :
  CodeBlockLineHighlighter.render CodeBlockLineHighlighter.example_doc
    CodeBlockLineHighlighter.example_tree = None <->
  exists n, In n (nodes CodeBlockLineHighlighter.example_tree) /\
    node_name n = "CodeText"%string /\
    doc_length CodeBlockLineHighlighter.example_doc < node_to n.
Proof.
  apply code_block_render_throws_outside_document.
  - discriminate.
  - repeat constructor; vm_compute; lia.
Defined.

Lemma no_code_text_no_decoration_example :
  CodeBlockLineHighlighter.render HeadingLineHighlighter.atx_doc
    HeadingLineHighlighter.atx_tree = Some [].
Proof.
  apply no_code_text_no_decoration.
  intros n Hn.
  repeat (destruct Hn as [<-|Hn]; [discriminate|]). destruct Hn.
Defined.

Lemma no_heading_no_decoration_example :
  HeadingLineHighlighter.render CodeBlockLineHighlighter.example_doc
    CodeBlockLineHighlighter.example_tree = Some [].
Proof.
  apply no_heading_no_decoration.
  intros n Hn.
  repeat (destruct Hn as [<-|Hn]; [reflexivity|]). destruct Hn.
Defined.

End LineHighlighterProperties.

(** ** The inline decorator: order of the ranges and the text under them *)

Module InlineDecoratorOrder.
Import RegExp RegExpFacts InlineDecorator InlineDecoratorFacts.

(** The UTF-16 code units of a code point, and of a sequence of them. *)
Definition encode_code_point (c : N) : list N :=
  if (65536 <=? c)%N
  then [(55296 + (c - 65536) / 1024)%N; (56320 + (c - 65536) mod 1024)%N]
  else [c].

Definition encode (cs : list N) : jsstring := flat_map encode_code_point cs.

(** The elements of a string are 16-bit code units. *)
Definition valid_units (s : jsstring) : Prop := Forall (fun c => (c < 65536)%N) s.

(** One range ends where, or before, the other starts. *)
Definition precedes (r1 r2 : Range) : Prop := r_to r1 <= r_from r2.

Lemma encode_pair c t :
  is_lead c && is_trail t = true -> encode_code_point (code_point c t) = [c; t].
Proof.
  unfold is_lead, is_trail. intros H.
  apply andb_true_iff in H as [Hc Ht].
  apply andb_true_iff in Hc as [Hc1 Hc2]. apply andb_true_iff in Ht as [Ht1 Ht2].
  apply N.leb_le in Hc1, Hc2, Ht1, Ht2.
  unfold encode_code_point, code_point.
  replace (65536 <=? (c - 55296) * 1024 + (t - 56320) + 65536)%N with true
    by (symmetry; apply N.leb_le; lia).
  replace ((c - 55296) * 1024 + (t - 56320) + 65536 - 65536)%N
    with ((c - 55296) * 1024 + (t - 56320))%N by lia.
  rewrite N.div_add_l by discriminate.
  rewrite (N.add_comm ((c - 55296) * 1024)).
  rewrite N.Div0.mod_add.
  rewrite N.div_small, N.mod_small by lia.
  f_equal; [lia|f_equal; lia].
Qed.

Lemma encode_unit c : (c < 65536)%N -> encode_code_point c = [c].
Proof.
  intros H. unfold encode_code_point.
  replace (65536 <=? c)%N with false by (symmetry; apply N.leb_gt; exact H).
  reflexivity.
Qed.

Lemma StringToCodePoints_cons c t rest :
  StringToCodePoints (c :: t :: rest)
  = if is_lead c && is_trail t
    then code_point c t :: StringToCodePoints rest
    else c :: StringToCodePoints (t :: rest).
Proof. reflexivity. Qed.

(** Decoding a string into code points and encoding them again gives the
    string back. *)
Lemma encode_decode_bounded n : forall s,
  length s <= n -> valid_units s -> encode (StringToCodePoints s) = s.
Proof.
  induction n as [|n IH]; intros s Hlen Hv.
  - destruct s; [reflexivity|simpl in Hlen; lia].
  - destruct s as [|c [|t rest]]; [reflexivity| |].
    + inversion Hv; subst. cbn. rewrite encode_unit by assumption. reflexivity.
    + inversion Hv as [|? ? Hc Hv']; subst. rewrite StringToCodePoints_cons.
      destruct (is_lead c && is_trail t) eqn:E.
      * cbn [encode flat_map]. rewrite (encode_pair _ _ E).
        fold (encode (StringToCodePoints rest)). rewrite IH.
        -- reflexivity.
        -- simpl in Hlen. lia.
        -- now inversion Hv'.
      * cbn [encode flat_map]. rewrite encode_unit by assumption.
        fold (encode (StringToCodePoints (t :: rest))). rewrite IH.
        -- reflexivity.
        -- simpl in Hlen. simpl. lia.
        -- exact Hv'.
Qed.

Lemma encode_decode s : valid_units s -> encode (StringToCodePoints s) = s.
Proof. apply (@encode_decode_bounded (length s)). lia. Qed.

Lemma encode_app a b : encode (a ++ b) = encode a ++ encode b.
Proof. apply flat_map_app. Qed.

Lemma length_encode cs : length (encode cs) = utf16_length cs.
Proof.
  induction cs as [|c cs IH]; [reflexivity|].
  cbn [encode flat_map utf16_length]. rewrite length_app. fold (encode cs).
  rewrite IH. f_equal. unfold encode_code_point, width.
  destruct (65536 <=? c)%N; reflexivity.
Qed.

Lemma utf16_length_decode s :
  valid_units s -> utf16_length (StringToCodePoints s) = length s.
Proof.
  intros H. rewrite <- length_encode. now rewrite encode_decode.
Qed.

Lemma utf16_length_pos w : w <> [] -> 0 < utf16_length w.
Proof.
  destruct w as [|c w]; [congruence|]. intros _. simpl. unfold width.
  destruct (65536 <=? c)%N; lia.
Qed.

Lemma substring_middle (a w b : jsstring) :
  substring (a ++ w ++ b) (length a) (length a + length w) = w.
Proof.
  unfold substring. rewrite skipn_app, skipn_all, Nat.sub_diag. cbn [skipn app].
  replace (length a + length w - length a) with (length w) by lia.
  rewrite firstn_app, firstn_all, Nat.sub_diag. cbn [firstn]. apply app_nil_r.
Qed.

(** [exec] finds a match where it starts to look or further on. *)
Lemma scan_skips r : forall aft bef x z,
  scan r bef aft = Some (x, z) ->
  exists k, before x = rev k ++ bef /\ aft = k ++ after x.
Proof.
  induction aft as [|ch rest IH]; intros bef x z H; simpl in H.
  - exists []. destruct (rmatch r Forward (mkState bef [] []) Success);
      try discriminate; inversion H; subst; auto.
  - destruct (rmatch r Forward (mkState bef (ch :: rest) []) Success) eqn:E.
    + apply IH in H as (k & Hb & Ha). exists (ch :: k). split.
      * rewrite Hb. cbn [rev]. now rewrite <- app_assoc.
      * rewrite Ha at 1. reflexivity.
    + exists []. inversion H; subst; auto.
    + exists []. inversion H; subst; auto.
Qed.

Lemma sorted_app (A : Type) (R : A -> A -> Prop) l1 l2 :
  StronglySorted R l1 -> StronglySorted R l2 ->
  (forall a b, In a l1 -> In b l2 -> R a b) ->
  StronglySorted R (l1 ++ l2).
Proof.
  induction 1 as [|a l1 Hs IH Hall]; intros H2 Hcross; [exact H2|].
  cbn [app]. constructor.
  - apply IH; auto. intros x y Hx Hy. apply Hcross; [now right|exact Hy].
  - apply Forall_app. split; [exact Hall|].
    apply Forall_forall. intros y Hy. apply Hcross; [now left|exact Hy].
Qed.

Lemma sorted_map (A B : Type) (f : A -> B) (R : A -> A -> Prop)
    (R' : B -> B -> Prop) l :
  (forall a b, R a b -> R' (f a) (f b)) ->
  StronglySorted R l -> StronglySorted R' (map f l).
Proof.
  intros Hf. induction 1 as [|a l Hs IH Hall]; cbn [map]; constructor; auto.
  apply Forall_forall. intros y Hy. apply in_map_iff in Hy as (x & <- & Hx).
  rewrite Forall_forall in Hall. auto.
Qed.

Section Loop.

Variable r : regex.
Hypothesis r_wf : well_formed r.
Hypothesis r_reads : forall x y,
  Denote r Forward x y -> exists w, w <> [] /\ spans x y w.

(** The matches of the loop come one behind the other, none of them empty,
    all of them inside the input. *)
Lemma exec_loop_ordered fuel : forall bef aft ms,
  exec_loop fuel r bef aft = Some ms ->
  StronglySorted (fun m1 m2 => m_index m1 + m_length m1 <= m_index m2) ms /\
  Forall (fun m => utf16_length bef <= m_index m /\ 0 < m_length m /\
                   m_index m + m_length m <= utf16_length bef + utf16_length aft) ms.
Proof.
  induction fuel as [|fuel IH]; intros bef aft ms H; [discriminate|].
  simpl in H. destruct (scan r bef aft) as [[x z]|] eqn:E.
  - pose proof (scan_skips _ _ _ E) as (k & Hbx & Hax).
    apply scan_spec in E as (_ & _ & _ & y & -> & Hm).
    apply rmatch_sound in Hm as (y' & HD & Hy); auto. inversion Hy; subst y'.
    destruct (@r_reads _ _ HD) as (w & Hw & [Say Sby]).
    destruct (exec_loop fuel r (before y) (after y)) as [ms'|] eqn:E'; [|discriminate].
    inversion H; subst ms. destruct (IH _ _ _ E') as [Hs Hall].
    assert (Hby : utf16_length (before y)
                  = utf16_length w + (utf16_length k + utf16_length bef)).
    { rewrite Sby, Hbx, !utf16_length_app, !utf16_length_rev. reflexivity. }
    assert (Hbx' : utf16_length (before x) = utf16_length k + utf16_length bef).
    { rewrite Hbx, utf16_length_app, utf16_length_rev. reflexivity. }
    assert (Haft : utf16_length aft
                   = utf16_length k + (utf16_length w + utf16_length (after y))).
    { rewrite Hax, Say, !utf16_length_app. reflexivity. }
    pose proof (utf16_length_pos Hw) as Hpos.
    split.
    + constructor; [exact Hs|]. eapply Forall_impl; [|exact Hall].
      cbv beta. unfold match_of. cbn [m_index m_length]. intros m [H1 _]. lia.
    + constructor.
      * unfold match_of. cbn [m_index m_length]. lia.
      * eapply Forall_impl; [|exact Hall]. cbv beta. intros m (H1 & H2 & H3). lia.
  - inversion H; subst. split; constructor.
Qed.

End Loop.

Lemma regexp_reads x y :
  Denote (pattern regexp) Forward x y -> exists w, w <> [] /\ spans x y w.
Proof.
  intros H. apply regexp_shape in H as (w & Hs & [[[Hd|Hd] _]|[Ht _]]);
    exists w; split; eauto using delimited_nonempty, tag_word_nonempty.
Qed.

(** The ranges of a line: in order, none empty, none overlapping another,
    all on the line. *)
Lemma decorate_line_ordered pos line rs :
  decorate_line pos line = Some rs ->
  StronglySorted precedes rs /\
  Forall (fun r => pos <= r_from r /\ r_from r < r_to r /\
                   r_to r <= pos + utf16_length (StringToCodePoints line)) rs.
Proof.
  unfold decorate_line, exec_all. intros H.
  destruct (exec_loop _ _ _ _) as [ms|] eqn:E; [|discriminate].
  simpl in H. inversion H; subst rs; clear H.
  destruct (@exec_loop_ordered _ regexp_well_formed regexp_reads _ _ _ _ E)
    as [Hs Hall].
  split.
  - eapply sorted_map; [|exact Hs]. intros a b Hab. cbv beta in Hab.
    unfold precedes, addMatch. cbn [r_from r_to]. lia.
  - apply Forall_forall. intros r Hr. apply in_map_iff in Hr as (m & <- & Hm).
    rewrite Forall_forall in Hall. destruct (Hall m Hm) as (H1 & H2 & H3).
    cbn [utf16_length input_of regexp flag_u] in *.
    unfold addMatch. cbn [r_from r_to]. lia.
Qed.

(** The ranges of a document: those of its lines, one line after the
    other. *)
Lemma createDeco_from_ordered lines : forall pos number,
  Forall valid_units lines ->
  exists rs, createDeco_from pos lines = Some rs /\
    StronglySorted precedes rs /\
    Forall (fun r => pos <= r_from r /\
              exists k l, CM6.line_from pos number lines k = Some l /\
                CM6.l_from l <= r_from r /\ r_from r < r_to r /\
                r_to r <= CM6.l_to l) rs.
Proof.
  induction lines as [|l rest IH]; intros pos number Hv.
  - exists []. repeat split; constructor.
  - inversion Hv as [|? ? Hl Hrest]; subst. cbn [createDeco_from].
    destruct (decorate_line_total pos l) as [rs1 H1]. rewrite H1.
    destruct (decorate_line_ordered _ _ H1) as [Hs1 Hall1].
    rewrite (utf16_length_decode Hl) in Hall1.
    destruct (IH (pos + length l + 1) (S number) Hrest) as (rs2 & -> & Hs2 & Hall2).
    exists (rs1 ++ rs2). split; [reflexivity|].
    rewrite Forall_forall in Hall1, Hall2. split.
    + apply sorted_app; auto. intros a b Ha Hb.
      destruct (Hall1 a Ha) as (_ & _ & Hto). destruct (Hall2 b Hb) as (Hfrom & _).
      unfold precedes. lia.
    + apply Forall_forall. intros r Hr. apply in_app_or in Hr as [Hr|Hr].
      * destruct (Hall1 r Hr) as (Ha & Hb & Hc). split; [exact Ha|].
        exists number. eexists. cbn [CM6.line_from]. rewrite Nat.eqb_refl.
        split; [reflexivity|]. cbn [CM6.l_from CM6.l_to]. auto.
      * destruct (Hall2 r Hr) as (Ha & k & l' & Hk & Hb). split; [lia|].
        exists k, l'. split; [|exact Hb]. cbn [CM6.line_from].
        destruct (CM6Facts.line_number _ _ _ _ Hk) as [_ Hnum].
        replace (number =? k) with false by (symmetry; apply Nat.eqb_neq; lia).
        exact Hk.
Qed.

End InlineDecoratorOrder.

Module InlineDecoratorProperties.
Import RegExp RegExpFacts InlineDecorator InlineDecoratorFacts InlineDecoratorOrder.

(** X14: the ranges the decorator puts on a document come in the order of
    the text and never overlap; none is empty, and each lies within one
    line: no highlight or tag reaches over a line break. *)
Theorem decorations_in_order_within_lines (lines : list jsstring) :
  Forall valid_units lines ->
  exists rs, createDeco lines = Some rs /\
    StronglySorted (fun r1 r2 => r_to r1 <= r_from r2) rs /\
    forall r, In r rs ->
      exists k l, CM6.line lines k = Some l /\
        CM6.l_from l <= r_from r /\ r_from r < r_to r /\ r_to r <= CM6.l_to l.
Proof.
  intros Hv. destruct (createDeco_from_ordered 0 1 Hv) as (rs & Hrs & Hs & Hall).
  exists rs. split; [exact Hrs|]. split; [exact Hs|].
  intros r Hr. rewrite Forall_forall in Hall. destruct (Hall r Hr) as [_ H]. exact H.
Qed.

(** X15: the piece of the line under a range - from the range's start to
    its end, counted in code units from the start of the line - is the
    matched text itself: a delimited text under a highlight range, a tag
    under a tag range. *)
Theorem range_covers_match_text pos line rs r :
  valid_units line -> decorate_line pos line = Some rs -> In r rs ->
  exists w,
    pos <= r_from r <= r_to r /\
    substring line (r_from r - pos) (r_to r - pos) = encode w /\
    ((r_value r = highlightDeco /\ (delimited (chr ":") w \/ delimited (chr "=") w))
     \/ (r_value r = tagDeco /\ tag_word w)).
Proof.
  intros Hv Hrs Hr.
  destruct (@decorate_line_sound _ _ _ _ Hrs Hr) as (pre & w & post & E & Hf & Ht & Hk).
  exists w. split; [lia|]. split.
  - rewrite <- (encode_decode Hv) at 1. rewrite E, !encode_app.
    replace (r_from r - pos) with (length (encode pre))
      by (rewrite length_encode; lia).
    replace (r_to r - pos) with (length (encode pre) + length (encode w))
      by (rewrite !length_encode; lia).
    apply substring_middle.
  - destruct Hk as [Hk|(Hk & Hw & _)]; auto.
Qed.

(** X16: a line without [#], [:] and [=] gets no decoration. *)
Theorem plain_text_is_not_decorated pos line :
  valid_units line ->
  (forall c, In c line -> c <> chr "#" /\ c <> chr ":" /\ c <> chr "=") ->
  decorate_line pos line = Some [].
Proof.
  intros Hv Hplain. destruct (decorate_line_total pos line) as [rs Hrs].
  destruct rs as [|r rs]; [exact Hrs|exfalso].
  destruct (@decorate_line_sound _ _ _ r Hrs) as (pre & w & post & E & _ & _ & Hk);
    [now left|].
  assert (Hin : forall c, (c < 65536)%N -> (exists w', w = c :: w') -> In c line).
  { intros c Hc (w' & ->). rewrite <- (encode_decode Hv), E, !encode_app.
    apply in_or_app. right. apply in_or_app. left.
    cbn [encode flat_map]. rewrite encode_unit by exact Hc. now left. }
  destruct Hk as [[_ [Hd|Hd]]|(_ & Hw & _)].
  - destruct Hd as (body & _ & _ & ->).
    destruct (Hplain (chr ":")) as (_ & H & _); [|congruence].
    apply Hin; [reflexivity|]. eexists. reflexivity.
  - destruct Hd as (body & _ & _ & ->).
    destruct (Hplain (chr "=")) as (_ & _ & H); [|congruence].
    apply Hin; [reflexivity|]. eexists. reflexivity.
  - destruct Hw as (h1 & body & h2 & _ & _ & _ & _ & ->).
    destruct (Hplain (chr "#")) as (H & _); [|congruence].
    apply Hin; [reflexivity|]. eexists. reflexivity.
Qed.

(** The statements above at example texts. *)

Lemma decorations_in_order_within_lines_example :
  exists rs, createDeco [str "a ::b:: #c"; str "#d ==e=="] = Some rs /\
    StronglySorted (fun r1 r2 => r_to r1 <= r_from r2) rs /\
    forall r, In r rs ->
      exists k l, CM6.line [str "a ::b:: #c"; str "#d ==e=="] k = Some l /\
        CM6.l_from l <= r_from r /\ r_from r < r_to r /\ r_to r <= CM6.l_to l.
Proof.
  apply decorations_in_order_within_lines.
  repeat constructor.
Defined.

Lemma range_covers_match_text_example :
  exists w,
    0 <= 4 <= 14 /\
    substring (str "see #project-a and #sub#") (4 - 0) (14 - 0) = encode w /\
    ((tagDeco = highlightDeco /\ (delimited (chr ":") w \/ delimited (chr "=") w))
     \/ (tagDeco = tagDeco /\ tag_word w)).
Proof.
  apply (@range_covers_match_text 0 (str "see #project-a and #sub#")
           [mkRange 4 14 tagDeco; mkRange 19 24 tagDeco] (mkRange 4 14 tagDeco)).
  - repeat constructor.
  - vm_compute. reflexivity.
  - left. reflexivity.
Defined.

Lemma plain_text_is_not_decorated_example :
  decorate_line 0 (str "plain text") = Some [].
Proof.
  apply plain_text_is_not_decorated.
  - repeat constructor.
  - intros c Hc.
    repeat (destruct Hc as [<-|Hc]; [repeat split; discriminate|]). destruct Hc.
Defined.

End InlineDecoratorProperties.

(** ** The matcher: completeness *)

Module RegExpComplete.
Import RegExp RegExpFacts.

(** Terms that match exactly one character. *)
Definition atom (r : regex) : bool :=
  match r with
  | R_char _ | R_dot | R_class _ _ => true
  | _ => false
  end.

(** Expressions in which every quantifier stands behind a one-character
    term and no lookbehind captures: the expressions of the sources are of
    this kind. *)
Fixpoint simple (r : regex) : Prop :=
  match r with
  | R_seq r1 r2 | R_alt r1 r2 => simple r1 /\ simple r2
  | R_quant r0 _ _ _ => atom r0 = true
  | R_group _ r0 => simple r0
  | R_lookbehind r0 => simple r0 /\ groups r0 = []
  | _ => True
  end.

Lemma read_caps d x ch y : read d x = Some (ch, y) -> caps y = caps x.
Proof.
  unfold read. destruct d.
  - destruct (after x); [discriminate|]. intros H; inversion H; reflexivity.
  - destruct (before x); [discriminate|]. intros H; inversion H; reflexivity.
Qed.

Lemma read_moves d x ch y : read d x = Some (ch, y) -> endIndex y <> endIndex x.
Proof.
  unfold read, endIndex. destruct d.
  - destruct (after x); [discriminate|]. intros H; inversion H; simpl; lia.
  - destruct (before x) eqn:E; [discriminate|]. intros H; inversion H; simpl; lia.
Qed.

(** A term without groups leaves the captures alone. *)
Lemma Denote_caps r : forall d x y,
  groups r = [] -> Denote r d x y -> caps y = caps x.
Proof.
  induction r as [|ch| |inv atoms|r1 IH1 r2 IH2|r1 IH1 r2 IH2
                 |r0 IH min max greedy|n r0 IH|r0 IH| |];
    intros d x y Hg H; cbn [Denote groups] in *.
  - now subst.
  - destruct H as (c & H & _). eapply read_caps; eauto.
  - destruct H as (c & H & _). eapply read_caps; eauto.
  - destruct H as (c & H & _). eapply read_caps; eauto.
  - apply app_eq_nil in Hg as [G1 G2].
    destruct d; destruct H as (z & H1 & H2).
    + rewrite (IH2 _ _ _ G2 H2). eauto.
    + rewrite (IH1 _ _ _ G1 H2). eauto.
  - apply app_eq_nil in Hg as [G1 G2]. destruct H; eauto.
  - destruct H as (k & _ & _ & H). rewrite Hg in H.
    revert H. apply iter_invariant with (P := fun a b => caps b = caps a); auto.
    + intros; congruence.
    + intros a b Hab. rewrite clear_caps_nil in Hab. eauto.
  - discriminate.
  - destruct H as (z & H & ->). cbn [caps with_caps]. eauto.
  - destruct H; now subst.
  - destruct H; now subst.
Qed.

Lemma atom_single r0 :
  atom r0 = true ->
  groups r0 = [] /\
  exists p, (forall d x c, rmatch r0 d x c = single d x c p) /\
            (forall d x y, Denote r0 d x y = reads d p x y).
Proof.
  destruct r0; try discriminate; intros _; (split; [reflexivity|]);
    eexists; split; reflexivity.
Qed.

Section Repeat.

Variable d : direction.
Variable p : N -> bool.
Variable m : MState -> Cont -> MResult.
Hypothesis m_single : forall x c, m x c = single d x c p.
Variable greedy : bool.
Variable c : Cont.

(** The quantifier tries every number of iterations the bounds allow. *)
Lemma repeat_matcher_complete fuel : forall n min max x y,
  min <= n -> within n max ->
  iter n (fun a b => reads d p (clear_caps [] a) b) x y ->
  c y <> Failure ->
  repeat_matcher m [] greedy fuel min max x c <> Failure.
Proof.
  induction fuel as [|fuel IH]; intros n min max x y Hmin Hmax Hit Hc;
    [discriminate|].
  assert (Hzero : n = 0 -> c x <> Failure)
    by (intros ->; simpl in Hit; now subst y).
  assert (Hstep : 0 < n -> max <> Some 0 ->
            m (clear_caps [] x)
              (fun y0 => if (min =? 0) && (endIndex y0 =? endIndex x) then Failure
                         else repeat_matcher m [] greedy fuel (pred min)
                                (option_map pred max) y0 c) <> Failure).
  { intros Hn Hmax0. destruct n as [|n]; [lia|]. simpl in Hit.
    destruct Hit as (z & (ch & Hread & Hp) & Hit).
    rewrite m_single. unfold single. rewrite Hread, Hp.
    pose proof (read_moves _ _ Hread) as Hmv. rewrite clear_caps_nil in Hmv.
    apply Nat.eqb_neq in Hmv. rewrite Hmv, andb_false_r.
    apply (IH n (pred min) _ z y); auto; [lia|].
    destruct max as [[|k]|]; simpl in *; [congruence|lia|exact I]. }
  cbn [repeat_matcher].
  set (dk := fun y0 : MState =>
               if (min =? 0) && (endIndex y0 =? endIndex x) then Failure
               else repeat_matcher m [] greedy fuel (pred min)
                      (option_map pred max) y0 c) in *.
  assert (Hbody : max <> Some 0 ->
            (if negb (min =? 0) then m (clear_caps [] x) dk
             else if negb greedy
                  then match c x with
                       | Failure => m (clear_caps [] x) dk
                       | z => z
                       end
                  else match m (clear_caps [] x) dk with
                       | Failure => c x
                       | z => z
                       end) <> Failure).
  { intros Hmax0. destruct (min =? 0) eqn:E0; cbn [negb].
    - apply Nat.eqb_eq in E0. destruct greedy; cbn [negb].
      + destruct (m (clear_caps [] x) dk) eqn:Es; try discriminate.
        destruct n as [|n]; [now apply Hzero|].
        exfalso. apply Hstep; [lia|exact Hmax0|reflexivity].
      + destruct (c x) eqn:Ec; try discriminate.
        destruct n as [|n]; [exfalso; now apply Hzero|].
        apply Hstep; [lia|exact Hmax0].
    - apply Nat.eqb_neq in E0. apply Hstep; [lia|exact Hmax0]. }
  destruct max as [[|k]|].
  - simpl in Hmax. apply Hzero. lia.
  - apply Hbody. discriminate.
  - apply Hbody. discriminate.
Qed.

End Repeat.

(** Whenever an expression can take the matcher to a state the
    continuation does not reject, the matcher does not fail. *)
Lemma rmatch_complete r : forall d x y c,
  simple r -> well_formed r ->
  Denote r d x y -> c y <> Failure -> rmatch r d x c <> Failure.
Proof.
  induction r as [|ch| |inv atoms|r1 IH1 r2 IH2|r1 IH1 r2 IH2
                 |r0 IH min max greedy|n r0 IH|r0 IH| |];
    intros d x y c Hs Hwf H Hc; cbn [rmatch]; cbn [Denote simple well_formed] in *.
  - now subst.
  - destruct H as (a & Hr & Hp). unfold single. now rewrite Hr, Hp.
  - destruct H as (a & Hr & Hp). unfold single. now rewrite Hr, Hp.
  - destruct H as (a & Hr & Hp). unfold single. now rewrite Hr, Hp.
  - destruct Hs as [S1 S2], Hwf as [W1 W2].
    destruct d; destruct H as (z & H1 & H2).
    + apply (IH1 _ _ z); auto. apply (IH2 _ _ y); auto.
    + apply (IH2 _ _ z); auto. apply (IH1 _ _ y); auto.
  - destruct Hs as [S1 S2], Hwf as [W1 W2].
    destruct (rmatch r1 d x c) eqn:E1; try discriminate.
    destruct H as [H|H]; [|now apply (IH2 _ _ y)].
    exfalso. revert E1. now apply (IH1 _ _ y).
  - destruct (atom_single _ Hs) as (Hg & p & Hm & HD).
    destruct H as (k & Hmin & Hmax & Hit). rewrite Hg in *.
    apply repeat_matcher_complete with (d := d) (p := p) (n := k) (y := y); auto.
    clear -Hit HD. revert x Hit. induction k as [|k IHk]; simpl; intros x Hit; auto.
    destruct Hit as (z & Hz & Hit). exists z. split; [|auto].
    now rewrite <- HD.
  - destruct H as (z & H & ->). now apply (IH _ _ z).
  - destruct Hs as [S0 Hg]. destruct H as (z & H & ->).
    assert (Hnf : rmatch r0 Backward x Success <> Failure)
      by (apply (IH _ _ z); auto; discriminate).
    assert (Hno : rmatch r0 Backward x Success <> OutOfFuel)
      by (apply rmatch_fuel; discriminate).
    destruct (rmatch r0 Backward x Success) as [|z'|] eqn:E; try contradiction.
    apply rmatch_sound in E as (z'' & HD & E); auto. inversion E; subst z''.
    rewrite (@Denote_caps _ _ _ _ Hg HD). rewrite (@Denote_caps _ _ _ _ Hg H) in Hc. exact Hc.
  - destruct H as [-> Hb]. now rewrite Hb.
  - destruct H as [-> Ha]. now rewrite Ha.
Qed.

End RegExpComplete.

(** ** The inline decorator: no match is missed *)

Module InlineDecoratorComplete.
Import RegExp RegExpFacts RegExpComplete.
Import InlineDecorator InlineDecoratorFacts InlineDecoratorOrder.

Lemma scan_unfold r bef aft :
  scan r bef aft =
  match rmatch r Forward (mkState bef aft []) Success with
  | Failure =>
      match aft with
      | [] => None
      | ch :: rest => scan r (ch :: bef) rest
      end
  | z => Some (mkState bef aft [], z)
  end.
Proof. destruct aft; reflexivity. Qed.

(** [exec] stops at the first place where the matcher does not fail. *)
Lemma scan_finds r : forall k bef rest,
  rmatch r Forward (mkState (rev k ++ bef) rest []) Success <> Failure ->
  exists x z k1 k2,
    scan r bef (k ++ rest) = Some (x, z) /\ k = k1 ++ k2 /\
    before x = rev k1 ++ bef /\ after x = k2 ++ rest.
Proof.
  induction k as [|ch k IH]; intros bef rest H; rewrite scan_unfold.
  - cbn [rev app] in *.
    destruct (rmatch r Forward (mkState bef rest []) Success) eqn:E;
      [contradiction| |]; eexists; eexists; exists [], []; repeat split.
  - cbn [app].
    destruct (rmatch r Forward (mkState bef (ch :: k ++ rest) []) Success) eqn:E.
    + destruct (IH (ch :: bef) rest) as (x & z & k1 & k2 & Hs & Hk & Hb & Ha).
      * cbn [rev] in H. now rewrite <- app_assoc in H.
      * exists x, z, (ch :: k1), k2. split; [exact Hs|]. split; [now rewrite Hk|].
        split; [|exact Ha]. rewrite Hb. cbn [rev]. now rewrite <- app_assoc.
    + eexists; eexists; exists [], (ch :: k); repeat split.
    + eexists; eexists; exists [], (ch :: k); repeat split.
Qed.

Section Covers.

Variable r : regex.
Hypothesis r_wf : well_formed r.
Hypothesis r_reads : forall x y,
  Denote r Forward x y -> exists w, w <> [] /\ spans x y w.

(** A place of the input where the matcher does not fail lies inside one
    of the matches the loop collects. *)
Lemma exec_loop_covers fuel : forall bef k rest ms,
  exec_loop fuel r bef (k ++ rest) = Some ms ->
  rmatch r Forward (mkState (rev k ++ bef) rest []) Success <> Failure ->
  exists m, In m ms /\
    m_index m <= utf16_length bef + utf16_length k /\
    utf16_length bef + utf16_length k < m_index m + m_length m.
Proof.
  induction fuel as [|fuel IH]; intros bef k rest ms H Hnf; [discriminate|].
  simpl in H.
  destruct (@scan_finds _ _ _ _ Hnf) as (x & z & k1 & k2 & Hs & Hk & Hbx & Hax).
  rewrite Hs in H.
  apply scan_spec in Hs as (_ & _ & _ & y & -> & Hm).
  apply rmatch_sound in Hm as (y' & HD & Hy); auto. inversion Hy; subst y'.
  destruct (@r_reads _ _ HD) as (w & Hw & [Say Sby]).
  destruct (exec_loop fuel r (before y) (after y)) as [ms'|] eqn:E'; [|discriminate].
  inversion H; subst ms; clear H.
  assert (Hbx' : utf16_length (before x) = utf16_length k1 + utf16_length bef).
  { rewrite Hbx, utf16_length_app, utf16_length_rev. reflexivity. }
  assert (Hby : utf16_length (before y)
                = utf16_length w + (utf16_length k1 + utf16_length bef)).
  { rewrite Sby, Hbx, !utf16_length_app, !utf16_length_rev. reflexivity. }
  assert (Hcases : (exists l, k2 = w ++ l /\ after y = l ++ rest)
                   \/ (exists c l, w = k2 ++ c :: l)).
  { rewrite Hax in Say. apply app_eq_app in Say as (l & [[H1 H2]|[H1 H2]]).
    - left. exists l. auto.
    - destruct l as [|c l].
      + left. exists []. rewrite app_nil_r in *. cbn [app] in *. split; congruence.
      + right. exists c, l. exact H1. }
  destruct Hcases as [(l & Hk2 & Hay)|(c & l & Hw')].
  - destruct (IH (before y) l rest ms') as (m & Hin & H1 & H2).
    + now rewrite <- Hay.
    + replace (rev l ++ before y) with (rev k ++ bef); [exact Hnf|].
      rewrite Sby, Hbx, Hk, Hk2, !rev_app_distr, <- !app_assoc. reflexivity.
    + exists m. split; [now right|].
      rewrite Hk, Hk2, !utf16_length_app. rewrite Hby in H1, H2. lia.
  - exists (match_of x y). split; [now left|].
    unfold match_of. cbn [m_index m_length].
    rewrite Hk, utf16_length_app. rewrite Hw', utf16_length_app in Hby.
    cbn [utf16_length] in Hby.
    assert (0 < width c) by (unfold width; destruct (65536 <=? c)%N; lia).
    lia.
Qed.

End Covers.

Lemma regexp_simple : simple (pattern regexp).
Proof. cbn. repeat split; auto. Qed.

Lemma decorate_line_covers pos line rs pre rest :
  decorate_line pos line = Some rs ->
  StringToCodePoints line = pre ++ rest ->
  rmatch (pattern regexp) Forward (mkState (rev pre) rest []) Success <> Failure ->
  exists r, In r rs /\ r_from r <= pos + utf16_length pre < r_to r.
Proof.
  unfold decorate_line, exec_all. intros H E Hnf.
  destruct (exec_loop _ _ _ _) as [ms|] eqn:El; [|discriminate].
  simpl in H. inversion H; subst rs; clear H.
  cbn [input_of regexp flag_u] in El. rewrite E in El.
  destruct (@exec_loop_covers _ regexp_well_formed regexp_reads _ [] pre rest ms El)
    as (m & Hin & H1 & H2).
  - now rewrite app_nil_r.
  - exists (addMatch pos m). split; [now apply in_map|].
    unfold addMatch. cbn [r_from r_to utf16_length] in *. lia.
Qed.

(** *** A text of the right shape is a match *)

Lemma reads_char c b a cs :
  reads Forward (N.eqb c) (mkState b (c :: a) cs) (mkState (c :: b) a cs).
Proof. exists c. split; [reflexivity|apply N.eqb_refl]. Qed.

Lemma iter_reads_intro p w : forall b rest cs,
  Forall (fun ch => p ch = true) w ->
  iter (length w) (fun x y => reads Forward p (clear_caps [] x) y)
    (mkState b (w ++ rest) cs) (mkState (rev w ++ b) rest cs).
Proof.
  induction w as [|ch w IH]; intros b rest cs Hall; [reflexivity|].
  inversion Hall as [|? ? Hp Hall']; subst. cbn [length iter].
  exists (mkState (ch :: b) (w ++ rest) cs). split.
  - rewrite clear_caps_nil. exists ch. split; [reflexivity|exact Hp].
  - cbn [rev]. rewrite <- app_assoc. cbn [app]. now apply IH.
Qed.

Lemma maybe_hash_Denote h b rest cs :
  maybe_hash h ->
  Denote opt_hash Forward (mkState b (h ++ rest) cs) (mkState (rev h ++ b) rest cs).
Proof.
  intros Hh. unfold opt_hash. cbn [Denote groups]. exists (length h).
  split; [lia|]. split.
  - destruct Hh as [->| ->]; simpl; lia.
  - apply iter_reads_intro. destruct Hh as [->| ->]; repeat constructor.
Qed.

Lemma delimited_Denote dl w b rest cs :
  dl = chr ":" \/ dl = chr "=" -> delimited dl w ->
  exists y, Denote highlightRe Forward (mkState b (w ++ rest) cs) y.
Proof.
  intros Hdl (body & Hne & Hall & ->).
  assert (Hbody : Denote lazy_any Forward
            (mkState (dl :: dl :: b) (body ++ dl :: dl :: rest) cs)
            (mkState (rev body ++ dl :: dl :: b) (dl :: dl :: rest) cs)).
  { unfold lazy_any. cbn [Denote groups]. exists (length body).
    split; [destruct body; [congruence|simpl; lia]|]. split; [exact I|].
    apply iter_reads_intro. eapply Forall_impl; [|exact Hall].
    cbv beta. intros a Ha. now rewrite Ha. }
  replace (([dl; dl] ++ body ++ [dl; dl]) ++ rest)
    with (dl :: dl :: body ++ dl :: dl :: rest)
    by (cbn [app]; now rewrite <- app_assoc).
  unfold highlightRe. cbn [Denote].
  destruct Hdl as [-> | ->]; (eexists; eexists; split; [|reflexivity]);
    [left|right];
    (eexists; split; [apply reads_char|];
     eexists; split; [apply reads_char|];
     eexists; split; [exact Hbody|];
     eexists; split; [apply reads_char|apply reads_char]).
Qed.

Lemma boundary_Denote b a cs :
  boundary b ->
  Denote tag_boundary Forward (mkState b a cs) (mkState b a cs).
Proof.
  intros Hb. unfold tag_boundary. cbn [Denote].
  destruct Hb as [->|(p & rest & -> & Hp)].
  - exists (mkState [] a cs). split; [left; split; reflexivity|reflexivity].
  - exists (mkState rest (p :: a) cs). split; [right|reflexivity].
    destruct Hp as [Hp|Hp].
    + left. exists p. split; [reflexivity|]. cbn. now rewrite Hp.
    + right. exists p. split; [reflexivity|].
      destruct Hp as [->|[->| ->]]; reflexivity.
Qed.

Lemma tag_Denote w b rest cs :
  tag_word w -> boundary b ->
  exists y, Denote tagRe Forward (mkState b (w ++ rest) cs) y.
Proof.
  intros (h1 & body & h2 & Hh1 & Hh2 & Hne & Hall & ->) Hb.
  replace ((chr "#" :: h1 ++ body ++ h2) ++ rest)
    with (chr "#" :: h1 ++ body ++ h2 ++ rest)
    by (cbn [app]; now rewrite <- !app_assoc).
  unfold tagRe. cbn [Denote]. eexists.
  eexists. split; [apply boundary_Denote; exact Hb|].
  eexists. split; [apply reads_char|].
  eexists. split; [|reflexivity].
  eexists. split; [apply maybe_hash_Denote; exact Hh1|].
  eexists. split; [|apply maybe_hash_Denote; exact Hh2].
  unfold tag_chars. cbn [Denote groups]. exists (length body).
  split; [destruct body; [congruence|simpl; lia]|]. split; [exact I|].
  apply iter_reads_intro. eapply Forall_impl; [|exact Hall].
  cbv beta. intros a Ha. now rewrite Ha.
Qed.

End InlineDecoratorComplete.

Module InlineDecoratorCoverage.
Import RegExp RegExpFacts RegExpComplete.
Import InlineDecorator InlineDecoratorFacts InlineDecoratorOrder InlineDecoratorComplete.

(** X17: no tag and no highlight is missed.  Wherever a line holds a
    delimited text, or a tag behind a boundary, the first character of that
    text lies inside one of the ranges the decorator puts on the line. *)
Theorem no_match_is_missed pos line pre w post :
  StringToCodePoints line = pre ++ w ++ post ->
  delimited (chr ":") w \/ delimited (chr "=") w
  \/ (tag_word w /\ boundary (rev pre)) ->
  exists rs r, decorate_line pos line = Some rs /\ In r rs /\
    r_from r <= pos + utf16_length pre < r_to r.
Proof.
  intros E Hshape. destruct (decorate_line_total pos line) as [rs Hrs].
  destruct (@decorate_line_covers pos line rs pre (w ++ post) Hrs E) as (r & Hin & Hr).
  - assert (HD : exists y,
              Denote (pattern regexp) Forward (mkState (rev pre) (w ++ post) []) y).
    { cbn [pattern regexp Denote].
      destruct Hshape as [Hd|[Hd|[Ht Hb]]].
      - destruct (@delimited_Denote (chr ":") w (rev pre) post []) as [y Hy]; eauto.
      - destruct (@delimited_Denote (chr "=") w (rev pre) post []) as [y Hy]; eauto.
      - destruct (@tag_Denote w (rev pre) post [] Ht Hb) as [y Hy]. eauto. }
    destruct HD as [y HD].
    apply (@rmatch_complete _ Forward _ y);
      [apply regexp_simple|apply regexp_well_formed|exact HD|discriminate].
  - exists rs, r. auto.
Qed.

Lemma no_match_is_missed_example :
  exists rs r, decorate_line 0 (str "a #b c") = Some rs /\ In r rs /\
    r_from r <= 0 + utf16_length (str "a ") < r_to r.
Proof.
  apply (@no_match_is_missed 0 (str "a #b c") (str "a ") (str "#b") (str " c")).
  - reflexivity.
  - right. right. split.
    + exists [], (str "b"), []. repeat split; try (now left).
      * discriminate.
      * repeat constructor.
    + right. exists 32%N, (str "a"). split; [reflexivity|]. left. reflexivity.
Defined.

End InlineDecoratorCoverage.

(** ** The matcher: what lazy and greedy quantifiers choose *)

Module RegExpOrder.
Import RegExp RegExpFacts RegExpComplete.

Lemma rmatch_seq r1 r2 x c :
  rmatch (R_seq r1 r2) Forward x c
  = rmatch r1 Forward x (fun y => rmatch r2 Forward y c).
Proof. reflexivity. Qed.

Lemma rmatch_group n r0 d x c :
  rmatch (R_group n r0) d x c
  = rmatch r0 d x (fun y => c (set_cap n (span d x y) y)).
Proof. reflexivity. Qed.

Lemma rmatch_quant r0 min max greedy d x c :
  rmatch (R_quant r0 min max greedy) d x c
  = repeat_matcher (rmatch r0 d) (groups r0) greedy
      (S (min + length (before x) + length (after x))) min max x c.
Proof. reflexivity. Qed.

Lemma state_eta x : mkState (before x) (after x) (caps x) = x.
Proof. now destruct x. Qed.

(** Reading one character forward. *)
Lemma single_forward x c p res :
  single Forward x c p = Success res ->
  exists ch rest, after x = ch :: rest /\ p ch = true /\
    c (mkState (ch :: before x) rest (caps x)) = Success res.
Proof.
  unfold single, read. destruct (after x) as [|ch rest]; [discriminate|].
  destruct (p ch) eqn:E; [|discriminate]. intros H. exists ch, rest. auto.
Qed.

Section Quantifier.

Variable p : N -> bool.
Variable m : MState -> Cont -> MResult.
Hypothesis m_single : forall x c, m x c = single Forward x c p.
Variable c : Cont.

(** One iteration of the quantifier behind a one-character term. *)
Lemma iteration fuel min x res :
  m (clear_caps [] x)
    (fun y => if (min =? 0) && (endIndex y =? endIndex x) then Failure
              else repeat_matcher m [] false fuel (pred min) None y c)
  = Success res ->
  exists ch rest, after x = ch :: rest /\ p ch = true /\
    repeat_matcher m [] false fuel (pred min) None
      (mkState (ch :: before x) rest (caps x)) c = Success res.
Proof.
  rewrite m_single, clear_caps_nil. intros H.
  apply single_forward in H as (ch & rest & Ha & Hp & H).
  exists ch, rest. split; [exact Ha|]. split; [exact Hp|].
  unfold endIndex in H. cbn [before length] in H.
  replace (S (length (before x)) =? length (before x)) with false in H
    by (symmetry; apply Nat.eqb_neq; lia).
  now rewrite andb_false_r in H.
Qed.

(** A lazy quantifier stops at the first place, once the minimum is
    reached, where what follows it matches. *)
Lemma lazy_minimal fuel : forall min x res,
  repeat_matcher m [] false fuel min None x c = Success res ->
  exists w y,
    spans x y w /\ caps y = caps x /\ min <= length w /\
    Forall (fun ch => p ch = true) w /\ c y = Success res /\
    forall w1 w2, w = w1 ++ w2 -> min <= length w1 -> w2 <> [] ->
      c (mkState (rev w1 ++ before x) (w2 ++ after y) (caps x)) = Failure.
Proof.
  induction fuel as [|fuel IH]; intros min x res H; [discriminate|].
  cbn [repeat_matcher negb] in H.
  assert (Hstep : c x = Failure \/ min <> 0 ->
            m (clear_caps [] x)
              (fun y => if (min =? 0) && (endIndex y =? endIndex x) then Failure
                        else repeat_matcher m [] false fuel (pred min) None y c)
            = Success res ->
            exists w y,
              spans x y w /\ caps y = caps x /\ min <= length w /\
              Forall (fun ch => p ch = true) w /\ c y = Success res /\
              forall w1 w2, w = w1 ++ w2 -> min <= length w1 -> w2 <> [] ->
                c (mkState (rev w1 ++ before x) (w2 ++ after y) (caps x)) = Failure).
  { intros Hfirst Hm. apply iteration in Hm as (ch & rest & Ha & Hp & Hm).
    apply IH in Hm as (w & y & [Sa Sb] & Hc & Hlen & Hall & Hy & Hmin).
    cbn [before after caps] in *.
    exists (ch :: w), y. split; [split|].
    - rewrite Ha, Sa. reflexivity.
    - rewrite Sb. cbn [rev]. now rewrite <- app_assoc.
    - split; [exact Hc|]. split; [simpl; lia|]. split; [now constructor|].
      split; [exact Hy|]. intros w1 w2 Hw Hl Hne.
      destruct w1 as [|a w1].
      + cbn [app rev] in *. subst w2.
        destruct Hfirst as [Hf|Hf]; [|simpl in Hl; lia].
        cbn [app]. rewrite <- Sa, <- Ha, state_eta. exact Hf.
      + cbn [app] in Hw. inversion Hw; subst a w.
        specialize (Hmin w1 w2 eq_refl). cbn [rev]. rewrite <- app_assoc.
        apply Hmin; [simpl in Hl; lia|exact Hne]. }
  destruct (min =? 0) eqn:E0; cbn [negb] in H.
  - apply Nat.eqb_eq in E0. destruct (c x) eqn:Ec; try discriminate.
    + apply Hstep; auto.
    + inversion H; subst. exists [], x. split; [apply spans_nil|].
      split; [reflexivity|]. split; [simpl; lia|]. split; [constructor|].
      split; [exact Ec|]. intros w1 w2 Hw _ Hne.
      symmetry in Hw. apply app_eq_nil in Hw as [_ ->]. congruence.
  - apply Nat.eqb_neq in E0. apply Hstep; auto.
Qed.

End Quantifier.

Section Greedy.

Variable p : N -> bool.
Variable m : MState -> Cont -> MResult.
Hypothesis m_single : forall x c, m x c = single Forward x c p.
Variable c : Cont.
Hypothesis c_total : forall z, c z <> Failure.

Lemma greedy_never_fails fuel x :
  repeat_matcher m [] true fuel 0 None x c <> Failure.
Proof.
  destruct fuel as [|fuel]; [discriminate|]. cbn [repeat_matcher Nat.eqb negb].
  destruct (m (clear_caps [] x) _); try discriminate. apply c_total.
Qed.

(** A greedy quantifier in front of something that always matches reads
    as many characters as there are. *)
Lemma greedy_maximal fuel : forall min x res,
  repeat_matcher m [] true fuel min None x c = Success res ->
  exists w y,
    spans x y w /\ caps y = caps x /\ min <= length w /\
    Forall (fun ch => p ch = true) w /\ c y = Success res /\
    forall ch rest, after y = ch :: rest -> p ch = false.
Proof.
  induction fuel as [|fuel IH]; intros min x res H; [discriminate|].
  cbn [repeat_matcher negb] in H.
  assert (Hstep : forall ch rest, after x = ch :: rest -> p ch = true ->
            repeat_matcher m [] true fuel (pred min) None
              (mkState (ch :: before x) rest (caps x)) c = Success res ->
            exists w y,
              spans x y w /\ caps y = caps x /\ min <= length w /\
              Forall (fun ch => p ch = true) w /\ c y = Success res /\
              forall ch rest, after y = ch :: rest -> p ch = false).
  { intros ch rest Ha Hp Hm.
    apply IH in Hm as (w & y & [Sa Sb] & Hc & Hlen & Hall & Hy & Hmax).
    cbn [before after caps] in *.
    exists (ch :: w), y. split; [split|].
    - rewrite Ha, Sa. reflexivity.
    - rewrite Sb. cbn [rev]. now rewrite <- app_assoc.
    - split; [exact Hc|]. split; [simpl; lia|]. split; [now constructor|]. auto. }
  set (dk := fun y : MState =>
               if (min =? 0) && (endIndex y =? endIndex x) then Failure
               else repeat_matcher m [] true fuel (pred min)
                      (option_map pred None) y c) in *.
  assert (Hdk : forall ch rest,
            dk (mkState (ch :: before x) rest (caps x))
            = repeat_matcher m [] true fuel (pred min) None
                (mkState (ch :: before x) rest (caps x)) c).
  { intros ch rest. unfold dk, endIndex. cbn [before length option_map].
    replace (S (length (before x)) =? length (before x)) with false
      by (symmetry; apply Nat.eqb_neq; lia).
    now rewrite andb_false_r. }
  assert (Hm : forall res',
            m (clear_caps [] x) dk = Success res' ->
            exists ch rest, after x = ch :: rest /\ p ch = true /\
              repeat_matcher m [] true fuel (pred min) None
                (mkState (ch :: before x) rest (caps x)) c = Success res').
  { intros res'. rewrite m_single, clear_caps_nil. intros H'.
    apply single_forward in H' as (ch & rest & Ha & Hp & H').
    exists ch, rest. split; [exact Ha|]. split; [exact Hp|].
    now rewrite <- Hdk. }
  assert (Hfail : min = 0 -> m (clear_caps [] x) dk = Failure ->
            forall ch rest, after x = ch :: rest -> p ch = false).
  { intros -> Em ch rest Ha. destruct (p ch) eqn:Hp; [exfalso|reflexivity].
    revert Em. rewrite m_single, clear_caps_nil. unfold single, read.
    rewrite Ha, Hp, Hdk. apply greedy_never_fails. }
  destruct (min =? 0) eqn:E0; cbn [negb] in H.
  - apply Nat.eqb_eq in E0.
    destruct (m (clear_caps [] x) dk) eqn:Em; try discriminate.
    + exists [], x. split; [apply spans_nil|]. split; [reflexivity|].
      split; [simpl; lia|]. split; [constructor|]. split; [exact H|].
      now apply Hfail.
    + inversion H; subst y. destruct (Hm _ eq_refl) as (ch & rest & Ha & Hp & Em').
      eapply Hstep; eauto.
  - apply Hm in H as (ch & rest & Ha & Hp & H). eapply Hstep; eauto.
Qed.

End Greedy.

Section Matches.

Variable r : regex.
Hypothesis r_wf : well_formed r.

(** Every element the loop collects is the result of the matcher at some
    place of the input. *)
Lemma exec_loop_matches fuel : forall bef aft ms m,
  exec_loop fuel r bef aft = Some ms -> In m ms ->
  exists x y, input x = rev bef ++ aft /\ caps x = [] /\
    rmatch r Forward x Success = Success y /\ m = match_of x y.
Proof.
  induction fuel as [|fuel IH]; intros bef aft ms m H Hin; [discriminate|].
  simpl in H.
  destruct (scan r bef aft) as [[x z]|] eqn:E.
  - apply scan_spec in E as (Hx & Hc & _ & y & -> & Hm).
    pose proof Hm as Hm'.
    apply rmatch_sound in Hm' as (y' & HD & Hy); auto. inversion Hy; subst y'.
    destruct (exec_loop fuel r (before y) (after y)) as [ms'|] eqn:E'; [|discriminate].
    inversion H; subst ms. destruct Hin as [<-|Hin].
    + exists x, y. auto.
    + destruct (IH _ _ _ _ E' Hin) as (x' & y' & Hx' & Hr).
      exists x', y'. split; auto.
      rewrite Hx'. fold (input y). rewrite (Denote_input _ _ _ _ HD). exact Hx.
  - inversion H; subst. destruct Hin.
Qed.

End Matches.

End RegExpOrder.

(** ** The inline decorator: how far a match reaches *)

Module InlineDecoratorExtent.
Import RegExp RegExpFacts RegExpComplete RegExpOrder.
Import InlineDecorator InlineDecoratorFacts InlineDecoratorOrder InlineDecoratorComplete.

Lemma rmatch_alt r1 r2 d x c :
  rmatch (R_alt r1 r2) d x c
  = match rmatch r1 d x c with
    | Failure => rmatch r2 d x c
    | z => z
    end.
Proof. reflexivity. Qed.

Lemma rmatch_char c0 d x c : rmatch (R_char c0) d x c = single d x c (N.eqb c0).
Proof. reflexivity. Qed.

(** Every range of a line comes from a result of the matcher. *)
Lemma decorate_line_exec pos line rs r :
  decorate_line pos line = Some rs -> In r rs ->
  exists x y, input x = StringToCodePoints line /\ caps x = [] /\
    rmatch (pattern regexp) Forward x Success = Success y /\
    r = addMatch pos (match_of x y).
Proof.
  unfold decorate_line, exec_all. intros H Hin.
  destruct (exec_loop _ _ _ _) as [ms|] eqn:E; [|discriminate].
  simpl in H. inversion H; subst rs; clear H.
  apply in_map_iff in Hin as (m & <- & Hin).
  destruct (@exec_loop_matches _ regexp_well_formed _ _ _ _ _ E Hin)
    as (x & y & Hx & Hc & Hm & ->).
  exists x, y. repeat split; auto.
Qed.

(** The alternative that has matched decides the style. *)
Lemma highlight_or_tag x y :
  caps x = [] ->
  rmatch (pattern regexp) Forward x Success = Success y ->
  (rmatch highlightRe Forward x Success = Success y /\
     decoration (match_of x y) = highlightDeco)
  \/ (rmatch tagRe Forward x Success = Success y /\
        decoration (match_of x y) = tagDeco).
Proof.
  intros Hc H. pose proof regexp_well_formed as [W1 W2].
  change (pattern regexp) with (R_alt highlightRe tagRe) in H.
  rewrite rmatch_alt in H.
  destruct (rmatch highlightRe Forward x Success) as [|y'|] eqn:Eh; [|left|discriminate].
  - right. split; [exact H|].
    apply rmatch_sound in H as (y' & HD & Hy); auto. inversion Hy; subst y'.
    apply tag_shape in HD as (w & _ & _ & _ & Hcap).
    unfold decoration, match_of. cbn [m_groups]. now rewrite (Hcap Hc).
  - inversion H; subst y'. split; [reflexivity|].
    apply rmatch_sound in Eh as (y' & HD & Hy); auto. inversion Hy; subst y'.
    apply highlight_shape in HD as (w & _ & _ & Hcap).
    unfold decoration, match_of. cbn [m_groups].
    destruct (cap_get 1 (caps y)); congruence.
Qed.

Lemma eqb_char c ch : N.eqb c ch = true -> ch = c.
Proof. intros H. apply N.eqb_eq in H. congruence. Qed.

Lemma two_chars dl b a cs (K : Cont) :
  rmatch (R_seq (R_char dl) (R_char dl)) Forward (mkState b (dl :: dl :: a) cs) K
  = K (mkState (dl :: dl :: b) a cs).
Proof.
  rewrite rmatch_seq, !rmatch_char. unfold single, read. cbn [after before caps].
  rewrite N.eqb_refl. rewrite rmatch_char. unfold single, read.
  cbn [after before caps]. now rewrite N.eqb_refl.
Qed.

(** One alternative of the highlight pattern: the text between the
    delimiters ends at the first doubled delimiter behind its first
    character. *)
Lemma delimited_minimal dl x (K : Cont) res :
  (forall z, K z <> Failure) ->
  rmatch (R_seq (R_char dl) (R_seq (R_char dl)
            (R_seq lazy_any (R_seq (R_char dl) (R_char dl))))) Forward x K
  = Success res ->
  exists body rest,
    after x = [dl; dl] ++ body ++ [dl; dl] ++ rest /\ body <> [] /\
    K (mkState (rev ([dl; dl] ++ body ++ [dl; dl]) ++ before x) rest (caps x))
    = Success res /\
    forall b1 b2, body = b1 ++ b2 -> b1 <> [] -> b2 <> [] ->
      forall t, b2 ++ [dl; dl] <> dl :: dl :: t.
Proof.
  intros HK H.
  rewrite rmatch_seq, rmatch_char in H.
  apply single_forward in H as (c1 & rest1 & Ha1 & Hc1 & H).
  apply eqb_char in Hc1. subst c1.
  rewrite rmatch_seq, rmatch_char in H.
  apply single_forward in H as (c2 & rest2 & Ha2 & Hc2 & H).
  apply eqb_char in Hc2. subst c2. cbn [before after caps] in *.
  rewrite rmatch_seq in H. unfold lazy_any in H. rewrite rmatch_quant in H.
  cbn [groups] in H.
  apply (@lazy_minimal (fun ch => negb (is_line_terminator ch))
           (rmatch R_dot Forward) (fun _ _ => eq_refl)) in H
    as (body & y & [Sa Sb] & Hcy & Hlen & _ & Hy & Hmin).
  cbn [before after caps] in *.
  rewrite rmatch_seq, rmatch_char in Hy.
  apply single_forward in Hy as (c3 & rest3 & Ha3 & Hc3 & Hy).
  apply eqb_char in Hc3. subst c3.
  rewrite rmatch_char in Hy.
  apply single_forward in Hy as (c4 & rest4 & Ha4 & Hc4 & Hy).
  apply eqb_char in Hc4. subst c4. cbn [before after caps] in *.
  exists body, rest4. split; [|split; [|split]].
  - rewrite Ha1, Ha2, Sa, Ha3, Ha4. reflexivity.
  - destruct body; [simpl in Hlen; lia|discriminate].
  - rewrite <- Hy. f_equal. rewrite Sb, Hcy.
    rewrite !rev_app_distr. cbn [rev app]. rewrite <- !app_assoc. reflexivity.
  - intros b1 b2 Hb Hb1 Hb2 t Ht.
    specialize (Hmin b1 b2 Hb).
    assert (Hfail : rmatch (R_seq (R_char dl) (R_char dl)) Forward
                      (mkState (rev b1 ++ dl :: dl :: before x)
                         (b2 ++ after y) (caps x)) K = Failure).
    { apply Hmin; [destruct b1; [congruence|simpl; lia]|exact Hb2]. }
    rewrite Ha3, Ha4 in Hfail.
    replace (b2 ++ dl :: dl :: rest4) with (dl :: dl :: t ++ rest4) in Hfail
      by (change (dl :: dl :: rest4) with ([dl; dl] ++ rest4);
          rewrite app_assoc, Ht; reflexivity).
    rewrite two_chars in Hfail. now apply HK in Hfail.
Qed.

(** [#?] takes the [#] when there is one. *)
Lemma opt_hash_greedy x (K : Cont) res :
  (forall z, K z <> Failure) ->
  rmatch opt_hash Forward x K = Success res ->
  (K x = Success res /\ forall rest, after x <> chr "#" :: rest)
  \/ (exists rest, after x = chr "#" :: rest /\
        K (mkState (chr "#" :: before x) rest (caps x)) = Success res).
Proof.
  intros HK H. unfold opt_hash in H. rewrite rmatch_quant in H. cbn [groups] in H.
  cbn [repeat_matcher Nat.eqb negb andb] in H. rewrite clear_caps_nil in H.
  rewrite rmatch_char in H. unfold single at 1 in H. unfold read in H.
  destruct (after x) as [|ch rest] eqn:Ea.
  - left. split; [exact H|]. intros rest. discriminate.
  - destruct (N.eqb (chr "#") ch) eqn:Ech.
    + apply eqb_char in Ech. subst ch. right. exists rest. split; [reflexivity|].
      unfold endIndex in H. cbn [before length] in H.
      replace (S (length (before x)) =? length (before x)) with false in H
        by (symmetry; apply Nat.eqb_neq; lia).
      cbn [Nat.add length] in H. rewrite Nat.add_succ_r in H.
      cbn [repeat_matcher pred option_map] in H.
      destruct (K (mkState (chr "#" :: before x) rest (caps x))) eqn:EK;
        [now apply HK in EK|exact H|discriminate].
    + left. split; [exact H|]. intros rest' E. inversion E; subst.
      now rewrite N.eqb_refl in Ech.
Qed.

Lemma opt_hash_total z (K : Cont) :
  (forall y, K y <> Failure) -> rmatch opt_hash Forward z K <> Failure.
Proof.
  intros HK. apply (@rmatch_complete opt_hash Forward z z); auto.
  - reflexivity.
  - cbn. split; [lia|exact I].
  - unfold opt_hash. cbn [Denote]. exists 0. repeat split; simpl; lia.
Qed.

(** The tag pattern: the characters of the tag go on until one that a tag
    cannot contain, and a [#] behind them is taken in. *)
Lemma tag_maximal x y :
  rmatch tagRe Forward x Success = Success y ->
  exists h1 body h2,
    maybe_hash h1 /\ maybe_hash h2 /\ body <> [] /\
    Forall (fun ch => class_mem tag_excluded ch = false) body /\
    spans x y (chr "#" :: h1 ++ body ++ h2) /\ boundary (before x) /\
    (h2 = [] -> forall ch rest, after y = ch :: rest ->
       class_mem tag_excluded ch = true /\ ch <> chr "#").
Proof.
  intros H. unfold tagRe in H. rewrite rmatch_seq in H.
  apply rmatch_sound in H as (y0 & HD0 & H); [|cbn; auto].
  apply boundary_shape in HD0 as [-> Hb].
  rewrite rmatch_seq, rmatch_char in H.
  apply single_forward in H as (c1 & rest1 & Ha1 & Hc1 & H).
  apply eqb_char in Hc1. subst c1.
  set (x1 := mkState (chr "#" :: before x) rest1 (caps x)) in *.
  rewrite rmatch_group, rmatch_seq in H.
  apply rmatch_sound in H as (x2 & HD1 & H); [|cbn; split; [lia|exact I]].
  apply opt_hash_shape in HD1 as (h1 & Hh1 & S1 & C1).
  rewrite rmatch_seq in H. unfold tag_chars in H. rewrite rmatch_quant in H.
  cbn [groups] in H.
  set (K := fun y0 : MState => Success (set_cap 2 (span Forward x1 y0) y0)) in *.
  assert (HK : forall z, K z <> Failure) by (intros z; discriminate).
  apply (@greedy_maximal (fun ch => xorb true (class_mem tag_excluded ch))
           (rmatch (R_class true tag_excluded) Forward) (fun _ _ => eq_refl)) in H
    as (body & x3 & S2 & C2 & Hlen & Hall & Hy & Hmax);
    [|intros z; now apply opt_hash_total].
  assert (Hbody : body <> []) by (destruct body; [simpl in Hlen; lia|discriminate]).
  assert (Hall' : Forall (fun ch => class_mem tag_excluded ch = false) body).
  { eapply Forall_impl; [|exact Hall]. cbv beta. intros a Ha.
    now apply negb_true_iff in Ha. }
  assert (S0 : spans x x1 [chr "#"]).
  { split; [exact Ha1|reflexivity]. }
  apply opt_hash_greedy in Hy as [[Hy Hno]|(rest4 & Ha4 & Hy)]; [| |exact HK].
  - unfold K in Hy. inversion Hy; subst y. exists h1, body, [].
    split; [exact Hh1|]. split; [now left|]. split; [exact Hbody|].
    split; [exact Hall'|]. split; [|split; [exact Hb|]].
    + apply spans_caps. rewrite app_nil_r.
      apply (spans_app S0 (spans_app S1 S2)).
    + intros _ ch rest Ha. cbn [after set_cap] in Ha. split.
      * specialize (Hmax ch rest Ha). cbv beta in Hmax.
        now apply negb_false_iff in Hmax.
      * intros ->. now apply (Hno rest).
  - unfold K in Hy. inversion Hy; subst y. exists h1, body, [chr "#"].
    split; [exact Hh1|]. split; [now right|]. split; [exact Hbody|].
    split; [exact Hall'|]. split; [|split; [exact Hb|discriminate]].
    apply spans_caps.
    assert (S3 : spans x3 (mkState (chr "#" :: before x3) rest4 (caps x3)) [chr "#"])
      by (split; [exact Ha4|reflexivity]).
    apply (spans_app S0 (spans_app S1 (spans_app S2 S3))).
Qed.

End InlineDecoratorExtent.

Module InlineDecoratorExtentProperties.
Import RegExp RegExpFacts RegExpOrder.
Import InlineDecorator InlineDecoratorFacts InlineDecoratorOrder InlineDecoratorExtent.

(** X18: a highlight ends at the first closing delimiter.  Every range
    with the highlight style covers two delimiters, a text and two
    delimiters, and no doubled delimiter begins inside that text behind its
    first character. *)
Theorem highlight_ends_at_first_delimiter pos line rs r :
  decorate_line pos line = Some rs -> In r rs -> r_value r = highlightDeco ->
  exists pre dl body post,
    (dl = chr ":" \/ dl = chr "=") /\
    StringToCodePoints line = pre ++ ([dl; dl] ++ body ++ [dl; dl]) ++ post /\
    r_from r = pos + utf16_length pre /\
    r_to r = r_from r + utf16_length ([dl; dl] ++ body ++ [dl; dl]) /\
    body <> [] /\
    forall b1 b2, body = b1 ++ b2 -> b1 <> [] -> b2 <> [] ->
      forall t, b2 ++ [dl; dl] <> dl :: dl :: t.
Proof.
  intros Hrs Hin Hv.
  destruct (@decorate_line_exec _ _ _ _ Hrs Hin) as (x & y & Hx & Hc & Hm & ->).
  cbn [addMatch r_value r_from r_to] in *.
  destruct (@highlight_or_tag _ _ Hc Hm) as [[Hh _]|[_ Ht]];
    [|rewrite Ht in Hv; discriminate].
  unfold highlightRe in Hh. rewrite rmatch_group, rmatch_alt in Hh.
  set (K := fun y0 : MState => Success (set_cap 1 (span Forward x y0) y0)) in *.
  assert (HK : forall z, K z <> Failure) by (intros z; discriminate).
  assert (Hcases : exists dl, (dl = chr ":" \/ dl = chr "=") /\
            rmatch (R_seq (R_char dl) (R_seq (R_char dl)
                      (R_seq lazy_any (R_seq (R_char dl) (R_char dl)))))
              Forward x K = Success y).
  { destruct (rmatch _ Forward x K) as [|y'|] eqn:E1 in Hh.
    - exists (chr "="). split; [now right|exact Hh].
    - exists (chr ":"). split; [now left|]. rewrite E1. exact Hh.
    - discriminate. }
  destruct Hcases as (dl & Hdl & Hd).
  apply (@delimited_minimal _ _ _ _ HK) in Hd as (body & rest & Ha & Hne & Hy & Hmin).
  assert (Hby : before y = rev ([dl; dl] ++ body ++ [dl; dl]) ++ before x).
  { unfold K in Hy. injection Hy as <-. reflexivity. }
  exists (rev (before x)), dl, body, rest.
  split; [exact Hdl|]. split; [|split; [|split; [|split; [exact Hne|exact Hmin]]]].
  - rewrite <- Hx. unfold input. rewrite Ha, <- !app_assoc. reflexivity.
  - unfold match_of. cbn [m_index]. now rewrite utf16_length_rev.
  - unfold match_of. cbn [m_index m_length].
    rewrite Hby, utf16_length_app, utf16_length_rev. lia.
Qed.

(** X19: a tag is never cut short.  Every range with the tag style covers
    a tag, and unless the tag ends with its closing [#], the character behind
    the range, if there is one, is a character a tag cannot contain and not
    a [#]. *)
Theorem tag_is_never_cut_short pos line rs r :
  decorate_line pos line = Some rs -> In r rs -> r_value r = tagDeco ->
  exists pre h1 body h2 post,
    maybe_hash h1 /\ maybe_hash h2 /\ body <> [] /\
    Forall (fun ch => class_mem tag_excluded ch = false) body /\
    StringToCodePoints line = pre ++ (chr "#" :: h1 ++ body ++ h2) ++ post /\
    r_from r = pos + utf16_length pre /\
    r_to r = r_from r + utf16_length (chr "#" :: h1 ++ body ++ h2) /\
    (h2 = [] -> forall ch rest, post = ch :: rest ->
       class_mem tag_excluded ch = true /\ ch <> chr "#").
Proof.
  intros Hrs Hin Hv.
  destruct (@decorate_line_exec _ _ _ _ Hrs Hin) as (x & y & Hx & Hc & Hm & ->).
  cbn [addMatch r_value r_from r_to] in *.
  destruct (@highlight_or_tag _ _ Hc Hm) as [[_ Hh]|[Ht _]];
    [rewrite Hh in Hv; discriminate|].
  apply tag_maximal in Ht
    as (h1 & body & h2 & Hh1 & Hh2 & Hne & Hall & [Sa Sb] & _ & Hmax).
  exists (rev (before x)), h1, body, h2, (after y).
  repeat (split; [assumption|]).
  split; [|split; [|split; [|exact Hmax]]].
  - rewrite <- Hx. unfold input. now rewrite Sa.
  - unfold match_of. cbn [m_index]. now rewrite utf16_length_rev.
  - unfold match_of. cbn [m_index m_length].
    rewrite Sb, utf16_length_app, utf16_length_rev. lia.
Qed.

(** The statements above at example texts. *)

Lemma highlight_ends_at_first_delimiter_example :
  exists pre dl body post,
    (dl = chr ":" \/ dl = chr "=") /\
    StringToCodePoints (str "a ::b::c::")
    = pre ++ ([dl; dl] ++ body ++ [dl; dl]) ++ post /\
    2 = 0 + utf16_length pre /\
    7 = 2 + utf16_length ([dl; dl] ++ body ++ [dl; dl]) /\
    body <> [] /\
    forall b1 b2, body = b1 ++ b2 -> b1 <> [] -> b2 <> [] ->
      forall t, b2 ++ [dl; dl] <> dl :: dl :: t.
Proof.
  apply (@highlight_ends_at_first_delimiter 0 (str "a ::b::c::")
           [mkRange 2 7 highlightDeco] (mkRange 2 7 highlightDeco)).
  - vm_compute. reflexivity.
  - left. reflexivity.
  - reflexivity.
Defined.

Lemma tag_is_never_cut_short_example :
  exists pre h1 body h2 post,
    maybe_hash h1 /\ maybe_hash h2 /\ body <> [] /\
    Forall (fun ch => class_mem tag_excluded ch = false) body /\
    StringToCodePoints (str "see #project-a and #sub#")
    = pre ++ (chr "#" :: h1 ++ body ++ h2) ++ post /\
    4 = 0 + utf16_length pre /\
    14 = 4 + utf16_length (chr "#" :: h1 ++ body ++ h2) /\
    (h2 = [] -> forall ch rest, post = ch :: rest ->
       class_mem tag_excluded ch = true /\ ch <> chr "#").
Proof.
  apply (@tag_is_never_cut_short 0 (str "see #project-a and #sub#")
           [mkRange 4 14 tagDeco; mkRange 19 24 tagDeco] (mkRange 4 14 tagDeco)).
  - vm_compute. reflexivity.
  - left. reflexivity.
  - reflexivity.
Defined.

End InlineDecoratorExtentProperties.

(** ** The code block highlighter puts its decorations on line starts *)

Module CodeBlockProperties.
Import CM6 CM6Facts CodeBlockLineHighlighter.

(** X21: every range of the set the code block highlighter returns is
    empty, sits at the start of a line of the document and carries one of
    the three line decorations. *)
Theorem code_decorations_sit_at_line_starts doc tree :
  doc <> [] -> Forall (fits doc) (nodes tree) ->
  exists set, render doc tree = Some set /\
    forall r, In r set ->
      r_to r = r_from r /\
      (exists l, line doc (l_number l) = Some l /\ r_from r = l_from l) /\
      (r_value r = codeBlockStart \/ r_value r = codeLineDecorator
       \/ r_value r = codeBlockEnd).
Proof.
  intros Hne Hfit.
  destruct (@CodeBlockClaims.render_spec _ _ Hne Hfit) as (set & Hset & Hin).
  exists set. split; [exact Hset|]. intros r Hr.
  apply Hin in Hr as (n & Hn & _ & ls & le & Hls & Hle & Hr).
  rewrite Forall_forall in Hfit. destruct (Hfit n Hn) as [Hf Ht].
  destruct (lineAt_some Hne Hf) as (ls' & Hls' & _ & Hline_s).
  destruct (lineAt_some Hne Ht) as (le' & Hle' & _ & Hline_e).
  assert (ls' = ls) by congruence. assert (le' = le) by congruence. subst ls' le'.
  destruct Hr as [->|[->|(k & lk & Hk & Hlk & ->)]];
    (split; [reflexivity|]); (split; [|cbn; auto]).
  - exists ls. auto.
  - exists le. auto.
  - exists lk. split; [|reflexivity].
    destruct (line_number _ _ _ _ Hlk) as [-> _]. exact Hlk.
Qed.

Lemma code_decorations_sit_at_line_starts_example :
  exists set, render example_doc example_tree = Some set /\
    forall r, In r set ->
      r_to r = r_from r /\
      (exists l, line example_doc (l_number l) = Some l /\ r_from r = l_from l) /\
      (r_value r = codeBlockStart \/ r_value r = codeLineDecorator
       \/ r_value r = codeBlockEnd).
Proof.
  apply code_decorations_sit_at_line_starts.
  - discriminate.
  - unfold fits. repeat constructor; vm_compute; lia.
Defined.

End CodeBlockProperties.
